(** * PuzzleMaker: the puzzle layout engine (utils/puzzleGen)

    A shallow embedding of the seeded generator, the word normaliser, the
    Fisher-Yates shuffle and the two grid generators (word search and
    crossword), followed by the properties the design document states
    about them.

    Conventions of the embedding.
    - A JavaScript number that holds an integer is a [Z]. Sums, products
      and remainders of integers are exact on doubles below [2^53]; the one
      product that can exceed this bound is [seed * 9301] (the application
      seeds the generator with a millisecond timestamp), and [round53]
      rounds it the way a double does. Overflow to infinity is outside the
      model (seeds of magnitude below 2^1000).
    - The quotient [seed / 233280] returned by the generator is kept as an
      exact rational [Q]; [Math.floor (v * n)] is the floor of the exact
      product. On doubles the two agree for every state and every
      [n <= 44], which covers the eight directions, the alphabet and the
      grid sizes of the application; for a larger [n] the rounded product
      of a few states lies just below the integer it should reach.
    - The grid size of the word search is an integer.
    - A string is the list of its UTF-16 code units;
      [String.prototype.toUpperCase] is a parameter of the generators.
    - A call that throws is an [outcome] other than [Ok]. *)

From Stdlib Require Import ZArith QArith Qround Lia String Ascii.
From stdpp Require Import base list sorting gmap.

Local Open Scope Z_scope.

(** ** Numbers *)

(** Round an integer to the nearest double (53 significant bits, ties to
    even). *)
Definition round53 (x : Z) : Z :=
  let a := Z.abs x in
  if a <? 2 ^ 53 then x
  else
    let e := Z.log2 a - 52 in
    let q := a / 2 ^ e in
    let r := a mod 2 ^ e in
    let half := 2 ^ (e - 1) in
    let q' := if r <? half then q
              else if half <? r then q + 1
              else if Z.even q then q else q + 1 in
    Z.sgn x * (q' * 2 ^ e).

(** The quotient of [n] by [d], rounded to the nearest integer, ties to
    even. *)
Definition round_half_even (n d : Z) : Z :=
  let q := n / d in
  let r := n mod d in
  if 2 * r <? d then q
  else if d <? 2 * r then q + 1
  else if Z.even q then q else q + 1.

(** The double nearest to a rational (53 significant bits, ties to even):
    with [l] the integer part of the binary logarithm of [|x|], the
    mantissa is [|x| / 2 ^ (l - 52)] rounded to an integer. The exponent
    is not bounded: the values of this program, quotients by 233280 and
    their products with array lengths and indices, are far from the
    subnormal range and from overflow. *)
Definition to_double (x : Q) : Q :=
  let a := Z.abs (Qnum x) in
  let b := Z.pos (Qden x) in
  if a =? 0 then 0%Q
  else
    let k := Z.log2 a - Z.log2 b in
    let l := if b * 2 ^ Z.max 0 k <=? a * 2 ^ Z.max 0 (- k) then k else k - 1 in
    let e := l - 52 in
    let p := 2 ^ Z.max 0 e in
    let r := 2 ^ Z.max 0 (- e) in
    let m := round_half_even (a * r) (b * p) in
    (Z.sgn (Qnum x) * (m * p)) # Z.to_pos r.

(** [Math.floor(v * n)] for the quotient [v] that [next] returns and an
    integer [n]: the quotient is rounded to a double, and so is the
    product. *)
Definition floor_mul (v : Q) (n : Z) : Z :=
  Qfloor (to_double (to_double v * inject_Z n)).

(** [v > 0.5] *)
Definition gt_half (v : Q) : bool := negb (Qle_bool v (1 # 2)).

(** ** Outcomes: a value, or one of the two exceptions the engine can raise *)

Inductive outcome (A : Type) : Type :=
| Ok (a : A)
| TypeError
| RangeError.
Arguments Ok {A} a.
Arguments TypeError {A}.
Arguments RangeError {A}.

#[global] Instance outcome_bind : MBind outcome := fun A B f m =>
  match m with
  | Ok a => f a
  | TypeError => TypeError
  | RangeError => RangeError
  end.

(** ** class Random *)

(** The object has the single private field [seed]; the model of an
    instance is the value of that field. *)
Definition Random : Type := Z.

Definition new_Random (seed : Z) : Random := seed.

(** [next()] stores [(seed * 9301 + 49297) % 233280] and returns the stored
    value divided by 233280. [%] is the remainder of the truncated
    division ([Z.rem]): it has the sign of the dividend. *)
Definition next (rng : Random) : Q * Random :=
  let seed := Z.rem (round53 (round53 (rng * 9301) + 49297)) 233280 in
  (seed # 233280, seed).

Arguments next : simpl never.
Arguments floor_mul : simpl never.

(** The first [n] values an instance returns. *)
Fixpoint outputs (rng : Random) (n : nat) : list Q :=
  match n with
  | O => []
  | S n' => let '(v, rng') := next rng in v :: outputs rng' n'
  end.

(** The field [seed] after [k] calls of [next], and the value the call
    number [k] (counted from 0) returns. *)
Fixpoint state_after (rng : Random) (k : nat) : Z :=
  match k with
  | O => rng
  | S k' => state_after (snd (next rng)) k'
  end.

Definition output_at (rng : Random) (k : nat) : Q :=
  fst (next (state_after rng k)).

(** ** Strings and arrays *)

Definition code_unit : Type := N.
Definition jsstring : Type := list code_unit.

(** A string literal of the source, code unit by code unit. *)
Definition units (s : string) : jsstring :=
  List.map N_of_ascii (list_ascii_of_string s).

(** [a.length] *)
Definition len {A} (l : list A) : Z := Z.of_nat (length l).

(** [a[i]] for an integer [i]: [None] is [undefined]. *)
Definition at_index {A} (l : list A) (i : Z) : option A :=
  if i <? 0 then None else l !! Z.to_nat i.

(** [Array.prototype.sort(cmp)] on a copy: the sort is stable and, for a
    comparator that is a total preorder, its result is the one stable
    sorted arrangement; insertion from the right computes it. *)
Fixpoint sort_insert {A} (cmp : A -> A -> Z) (a : A) (l : list A) : list A :=
  match l with
  | [] => [a]
  | b :: l' => if cmp a b <=? 0 then a :: b :: l' else b :: sort_insert cmp a l'
  end.

Fixpoint js_sort {A} (cmp : A -> A -> Z) (l : list A) : list A :=
  match l with
  | [] => []
  | a :: l' => sort_insert cmp a (js_sort cmp l')
  end.

(** types.ts *)
Record WordPair : Type := {
  id : jsstring;
  word : jsstring;
  definition : jsstring
}.

(** [(a, b) => b.word.length - a.word.length] *)
Definition by_length_desc (a b : WordPair) : Z := len (word b) - len (word a).

(** [[...words].sort((a, b) => b.word.length - a.word.length)] *)
Definition sortedWords (words : list WordPair) : list WordPair :=
  js_sort by_length_desc words.

(** The character class [A-ZÑÁÉÍÓÚÜ] of [cleanWord], by code unit. *)
Definition in_class (c : code_unit) : bool :=
  ((65 <=? c) && (c <=? 90) ||
   (c =? 209) || (c =? 193) || (c =? 201) || (c =? 205) ||
   (c =? 211) || (c =? 218) || (c =? 220))%N.

(** [String.prototype.toUpperCase] on strings of Latin-1 characters (code
    units below 256): the instance used to evaluate the engine on concrete
    words. The sharp s becomes "SS"; the micro sign and the y with
    diaeresis leave Latin-1. *)
Definition upper_unit (c : code_unit) : jsstring :=
  (if (97 <=? c) && (c <=? 122) then [c - 32]
   else if (224 <=? c) && (c <=? 254) && negb (c =? 247) then [c - 32]
   else if c =? 223 then [83; 83]
   else if c =? 181 then [924]
   else if c =? 255 then [376]
   else [c])%N.

Definition upper_latin (s : jsstring) : jsstring := flat_map upper_unit s.

(** ** shuffleArray *)

(** An array under reads and writes at arbitrary integer keys: the indexed
    elements ([None] is [undefined] or a hole) and the properties stored
    under keys that are not indices (a write at a negative key creates
    one, and a later read at that key finds it). *)
Record jsarray (T : Type) : Type := JsArray {
  elems : list (option T);
  props : Z -> option T
}.
Arguments JsArray {T} elems props.
Arguments elems {T} j.
Arguments props {T} j.

(** [a[i]] *)
Definition arr_get {T} (a : jsarray T) (i : Z) : option T :=
  if (0 <=? i) && (i <? len (elems a))
  then default None (elems a !! Z.to_nat i)
  else props a i.

(** [a[i] = v]; a write past the end extends the array with holes. *)
Definition arr_set {T} (a : jsarray T) (i : Z) (v : option T) : jsarray T :=
  if i <? 0 then JsArray (elems a) (fun k => if k =? i then v else props a k)
  else if i <? len (elems a) then JsArray (<[Z.to_nat i := v]> (elems a)) (props a)
  else JsArray (elems a ++ replicate (Z.to_nat (i - len (elems a))) None ++ [v])
               (props a).

(** The loop [for (let i = newArr.length - 1; i > 0; i--)], entered at [i].
    The right-hand side [[newArr[j], newArr[i]]] is read in full before
    either element is assigned. *)
Fixpoint shuffle_loop {T} (i : nat) (rng : Random) (newArr : jsarray T)
  : jsarray T :=
  match i with
  | O => newArr
  | S i' =>
      let '(v, rng) := next rng in
      let j := floor_mul v (Z.of_nat i + 1) in
      let rhs := (arr_get newArr j, arr_get newArr (Z.of_nat i)) in
      let newArr := arr_set newArr (Z.of_nat i) (fst rhs) in
      let newArr := arr_set newArr j (snd rhs) in
      shuffle_loop i' rng newArr
  end.

(** The argument is a list, so the guard [!Array.isArray(array)] is never
    taken. The result is the element list of [newArr]. *)
Definition shuffleArray {T} (array : list T) (seed : Z) : list (option T) :=
  let rng := new_Random seed in
  let newArr := JsArray (Some <$> array) (fun _ => None) in
  elems (shuffle_loop (length array - 1) rng newArr).

(** The shuffle in the words of the design document, on a plain list: for
    [i] from the last index down to 1, draw [j = floor(next() * (i+1))] and
    swap the elements [i] and [j]. *)
Definition swap_elements {T} (l : list T) (i j : nat) : list T :=
  match l !! i, l !! j with
  | Some a, Some b => <[j := a]> (<[i := b]> l)
  | _, _ => l
  end.

Fixpoint fisher_yates_from {T} (i : nat) (rng : Random) (l : list T) : list T :=
  match i with
  | O => l
  | S i' =>
      let '(v, rng) := next rng in
      let j := floor_mul v (Z.of_nat i + 1) in
      fisher_yates_from i' rng (swap_elements l i (Z.to_nat j))
  end.

Definition fisher_yates {T} (l : list T) (seed : Z) : list T :=
  fisher_yates_from (length l - 1) (new_Random seed) l.

(** ** Word search: data *)

(** A cell of the character matrix: [''], a one-unit string, or
    [undefined]. *)
Inductive wscell : Type :=
| Blank
| Letter (c : code_unit)
| Undefined.

#[global] Instance wscell_eq_dec : EqDecision wscell.
Proof. solve_decision. Defined.

Record DirectionVector : Type := { dx : Z; dy : Z }.

Definition directions : list DirectionVector :=
  [ {| dx := 1; dy := 0 |}; {| dx := 0; dy := 1 |};
    {| dx := 1; dy := 1 |}; {| dx := 1; dy := -1 |};
    {| dx := -1; dy := 0 |}; {| dx := 0; dy := -1 |};
    {| dx := -1; dy := -1 |}; {| dx := -1; dy := 1 |} ].

Definition alphabet : jsstring := units "ABCDEFGHIJKLMNOPQRSTUVWXYZ".

Arguments alphabet : simpl never.
Arguments directions : simpl never.

Module WS.
Record entry : Type := {
  word : jsstring;
  x : Z;
  y : Z;
  dx : Z;
  dy : Z
}.
Record result : Type := {
  grid : list (list wscell);
  placedWords : list entry
}.
End WS.

(** [grid[y]?.[x]]: the cell at column [x] of row [y], when there is
    one. *)
Definition cell_at {A} (grid : list (list A)) (x y : Z) : option A :=
  row ← at_index grid y; at_index row x.

(** [grid[y][x]] as a read: a missing row throws, a missing column reads
    [undefined]. *)
Definition grid_read (grid : list (list wscell)) (x y : Z) : outcome wscell :=
  match at_index grid y with
  | None => TypeError
  | Some row => Ok (default Undefined (at_index row x))
  end.

(** [grid[y][x] = v] for a cell inside the matrix. The generator writes
    only cells it has just read inside the matrix (see [fits_loop]), so the
    store outside is never exercised and is left as the identity here. *)
Definition grid_write (grid : list (list wscell)) (x y : Z) (v : wscell)
  : list (list wscell) :=
  if (0 <=? x) && (0 <=? y)
  then alter (fun row => <[Z.to_nat x := v]> row) (Z.to_nat y) grid
  else grid.

(** The positions of an [h] by [w] matrix in the order of
    [for (y ...) for (x ...)], as pairs [(x, y)]. *)
Definition row_major (h w : Z) : list (Z * Z) :=
  y ← seqZ 0 h; x ← seqZ 0 w; [(x, y)].

(** ** Crossword: data *)

Inductive Direction : Type := across | down.

#[global] Instance Direction_eq_dec : EqDecision Direction.
Proof. solve_decision. Defined.

Module GridCell.
Record t : Type := {
  char : option code_unit;
  x : Z;
  y : Z
}.
End GridCell.

Module CW.
(** [number] is absent until the numbering pass. *)
Record entry : Type := {
  word : jsstring;
  clue : jsstring;
  x : Z;
  y : Z;
  direction : Direction;
  number : option Z
}.
Record layout : Type := {
  grid : list (list GridCell.t);
  placedWords : list entry;
  width : Z;
  height : Z
}.
End CW.

Definition gridSize : Z := 40.
Definition center : Z := gridSize / 2.

(** [Array(gridSize)...map((_, y) => ...map((_, x) => ({char: null, x, y})))] *)
Definition blank_canvas : list (list GridCell.t) :=
  (fun y => (fun x => {| GridCell.char := None; GridCell.x := x; GridCell.y := y |})
              <$> seqZ 0 gridSize) <$> seqZ 0 gridSize.

(** [grid[y]?.[x]?.char], with [null] and [undefined] both [None]: the
    source only tests the value for truthiness, or against both. Where the
    source writes [grid[cy][cx]] without [?.] on the row, [cy] has passed
    the bounds test or comes from the scan of the grid. *)
Definition char_at (grid : list (list GridCell.t)) (x y : Z) : option code_unit :=
  cell_at grid x y ≫= GridCell.char.

(** [grid[y][x].char = c]: throws when [grid[y][x]] is [undefined]. *)
Definition set_char (grid : list (list GridCell.t)) (x y : Z) (c : code_unit)
  : outcome (list (list GridCell.t)) :=
  match cell_at grid x y with
  | None => TypeError
  | Some cell =>
      let cell' := {| GridCell.char := Some c;
                      GridCell.x := GridCell.x cell;
                      GridCell.y := GridCell.y cell |} in
      Ok (alter (fun row => <[Z.to_nat x := cell']> row) (Z.to_nat y) grid)
  end.

(** The cell of the [k]-th letter of a word that starts at
    [(startX, startY)]. *)
Definition cx_of (direction : Direction) (startX k : Z) : Z :=
  if decide (direction = across) then startX + k else startX.
Definition cy_of (direction : Direction) (startY k : Z) : Z :=
  if decide (direction = down) then startY + k else startY.

(** The two writing loops ([grid[center][startX + i].char = term[i]] for
    the first word, [grid[cy][cx].char = term[k]] for the others), entered
    at index [k] with the letters [rest] still to write. *)
Fixpoint write_term (grid : list (list GridCell.t)) (direction : Direction)
  (startX startY k : Z) (rest : jsstring) : outcome (list (list GridCell.t)) :=
  match rest with
  | [] => Ok grid
  | c :: rest' =>
      grid' ← set_char grid (cx_of direction startX k) (cy_of direction startY k) c;
      write_term grid' direction startX startY (k + 1) rest'
  end.

(** A neighbour is occupied when its [char] is neither [null] nor
    [undefined]. *)
Definition occupied (grid : list (list GridCell.t)) (x y : Z) : bool :=
  bool_decide (is_Some (char_at grid x y)).

(** ** The generators *)

Section Engine.

(** [String.prototype.toUpperCase] of the host. *)
Variable toUpperCase : jsstring -> jsstring.

(** [w.toUpperCase().replace(/[^A-ZÑÁÉÍÓÚÜ]/g, '')] *)
Definition cleanWord (w : jsstring) : jsstring :=
  List.filter in_class (toUpperCase w).

(** [scrambleWord]: [join] prints [undefined] as the empty string. *)
Definition scrambleWord (w : jsstring) (seed : Z) : jsstring :=
  omap (fun u => u) (shuffleArray w seed).

(** *** generateWordSearch *)

(** The collision loop, entered at index [i] with [rest] the letters
    [term[i]], [term[i+1]], ... *)
Fixpoint fits_loop (grid : list (list wscell)) (startX startY : Z)
  (dir : DirectionVector) (i : Z) (rest : jsstring) : outcome bool :=
  match rest with
  | [] => Ok true
  | c :: rest' =>
      charAtGrid ← grid_read grid (startX + i * dx dir) (startY + i * dy dir);
      if bool_decide (charAtGrid ≠ Blank) && bool_decide (charAtGrid ≠ Letter c)
      then Ok false
      else fits_loop grid startX startY dir (i + 1) rest'
  end.

(** The loop that writes the letters of a word that fits. *)
Fixpoint write_loop (grid : list (list wscell)) (startX startY : Z)
  (dir : DirectionVector) (i : Z) (rest : jsstring) : list (list wscell) :=
  match rest with
  | [] => grid
  | c :: rest' =>
      write_loop (grid_write grid (startX + i * dx dir) (startY + i * dy dir) (Letter c))
                 startX startY dir (i + 1) rest'
  end.

Definition ws_state : Type := Random * list (list wscell) * list WS.entry.

(** [while (!placed && attempts < 100)], with [fuel = 100 - attempts].
    [dir.dx] throws when the drawn index selects no direction. *)
Fixpoint attempt_loop (fuel : nat) (size : Z) (term : jsstring) (st : ws_state)
  : outcome ws_state :=
  match fuel with
  | O => Ok st
  | S fuel' =>
      let '(rng, grid, placedWords) := st in
      let '(v, rng) := next rng in
      let dir := at_index directions (floor_mul v (len directions)) in
      let '(v, rng) := next rng in
      let startX := floor_mul v size in
      let '(v, rng) := next rng in
      let startY := floor_mul v size in
      match dir with
      | None => TypeError
      | Some dir =>
          let endX := startX + (len term - 1) * dx dir in
          let endY := startY + (len term - 1) * dy dir in
          if (0 <=? endX) && (endX <? size) && (0 <=? endY) && (endY <? size)
          then
            fits ← fits_loop grid startX startY dir 0 term;
            if fits : bool
            then
              let grid := write_loop grid startX startY dir 0 term in
              Ok (rng, grid,
                  placedWords ++ [ {| WS.word := term; WS.x := startX; WS.y := startY;
                                      WS.dx := dx dir; WS.dy := dy dir |} ])
            else attempt_loop fuel' size term (rng, grid, placedWords)
          else attempt_loop fuel' size term (rng, grid, placedWords)
      end
  end.

(** [for (const item of sortedWords)] *)
Fixpoint place_words (size : Z) (items : list WordPair) (st : ws_state)
  : outcome ws_state :=
  match items with
  | [] => Ok st
  | item :: items' =>
      st' ← attempt_loop 100 size (cleanWord (word item)) st;
      place_words size items' st'
  end.

(** The body of the fill loops at one position. *)
Definition fill_cell (st : Random * list (list wscell)) (p : Z * Z)
  : outcome (Random * list (list wscell)) :=
  let '(rng, grid) := st in
  let '(x, y) := p in
  c ← grid_read grid x y;
  if bool_decide (c = Blank)
  then
    let '(v, rng) := next rng in
    let letter := match at_index alphabet (floor_mul v (len alphabet)) with
                  | Some a => Letter a
                  | None => Undefined
                  end in
    Ok (rng, grid_write grid x y letter)
  else Ok (rng, grid).

Fixpoint fill_loop (ps : list (Z * Z)) (st : Random * list (list wscell))
  : outcome (Random * list (list wscell)) :=
  match ps with
  | [] => Ok st
  | p :: ps' => st' ← fill_cell st p; fill_loop ps' st'
  end.

(** [Array(size)] throws unless [size] is an array length. *)
Definition generateWordSearch (words : list WordPair) (size seed : Z)
  : outcome WS.result :=
  let rng := new_Random seed in
  if (size <? 0) || (2 ^ 32 - 1 <? size) then RangeError
  else
    let grid := replicate (Z.to_nat size) (replicate (Z.to_nat size) Blank) in
    let placedWords := [] in
    '(rng, grid, placedWords) ← place_words size (sortedWords words)
                                  (rng, grid, placedWords);
    '(rng, grid) ← fill_loop (row_major size size) (rng, grid);
    Ok {| WS.grid := grid; WS.placedWords := placedWords |}.

(** *** generateCrossword *)

Definition Canvas : Type := list (list GridCell.t).

(** The validation loop of a candidate, entered at index [k] with [rest]
    the letters still to check; [n] is [term.length]. *)
Fixpoint cw_fits (grid : Canvas) (direction : Direction) (startX startY n k : Z)
  (rest : jsstring) : bool :=
  match rest with
  | [] => true
  | c :: rest' =>
      let cx := cx_of direction startX k in
      let cy := cy_of direction startY k in
      if (cx <? 0) || (gridSize <=? cx) || (cy <? 0) || (gridSize <=? cy) then false
      else
        let cell_char := char_at grid cx cy in
        if bool_decide (cell_char ≠ None) && bool_decide (cell_char ≠ Some c)
        then false
        else if bool_decide (cell_char = None) &&
                (let n1 := if decide (direction = across)
                           then char_at grid cx (cy - 1) else char_at grid (cx - 1) cy in
                 let n2 := if decide (direction = across)
                           then char_at grid cx (cy + 1) else char_at grid (cx + 1) cy in
                 bool_decide (is_Some n1) || bool_decide (is_Some n2))
        then false
        else if (k =? 0) &&
                (let prev := if decide (direction = across)
                             then char_at grid (cx - 1) cy else char_at grid cx (cy - 1) in
                 bool_decide (is_Some prev))
        then false
        else if (k =? n - 1) &&
                (let next := if decide (direction = across)
                             then char_at grid (cx + 1) cy else char_at grid cx (cy + 1) in
                 bool_decide (is_Some next))
        then false
        else cw_fits grid direction startX startY n (k + 1) rest'
  end.

(** The direction heuristic at the cell [(x, y)]; draws from the generator
    only when no neighbour is occupied. *)
Definition choose_direction (grid : Canvas) (x y : Z) (rng : Random)
  : option Direction * Random :=
  let isOccupiedHorizontally := occupied grid (x + 1) y || occupied grid (x - 1) y in
  let isOccupiedVertically := occupied grid x (y + 1) || occupied grid x (y - 1) in
  if isOccupiedHorizontally && negb isOccupiedVertically then (Some down, rng)
  else if isOccupiedVertically && negb isOccupiedHorizontally then (Some across, rng)
  else if negb isOccupiedHorizontally && negb isOccupiedVertically
  then let '(v, rng) := next rng in
       (Some (if gt_half v then across else down), rng)
  else (None, rng).

(** A placement found by the search: direction and start cell. *)
Definition found : Type := Direction * Z * Z.

(** [for (const charIdx of possibleIndices)], up to the first candidate
    that fits. *)
Fixpoint try_indices (grid : Canvas) (term : jsstring) (x y : Z)
  (possibleIndices : list Z) (rng : Random) : Random * option found :=
  match possibleIndices with
  | [] => (rng, None)
  | charIdx :: rest =>
      let '(direction, rng) := choose_direction grid x y rng in
      match direction with
      | None => try_indices grid term x y rest rng
      | Some direction =>
          let startX := if decide (direction = across) then x - charIdx else x in
          let startY := if decide (direction = down) then y - charIdx else y in
          if cw_fits grid direction startX startY (len term) 0 term
          then (rng, Some (direction, startX, startY))
          else try_indices grid term x y rest rng
      end
  end.

(** The indices [k] with [term[k] === cellChar], ascending. *)
Definition indices_of (term : jsstring) (cellChar : code_unit) : list Z :=
  List.filter (fun k => bool_decide (at_index term k = Some cellChar))
              (seqZ 0 (len term)).

(** [for (const {x, y} of scanOrder)], up to the first placement. The cells
    of [scanOrder] hold a letter; the branch for an empty cell is never
    taken. *)
Fixpoint try_cells (grid : Canvas) (term : jsstring) (scanOrder : list (Z * Z))
  (rng : Random) : Random * option found :=
  match scanOrder with
  | [] => (rng, None)
  | (x, y) :: rest =>
      match char_at grid x y with
      | Some cellChar =>
          if bool_decide (cellChar ∈ term)
          then
            match try_indices grid term x y (indices_of term cellChar) rng with
            | (rng, Some f) => (rng, Some f)
            | (rng, None) => try_cells grid term rest rng
            end
          else try_cells grid term rest rng
      | None => try_cells grid term rest rng
      end
  end.

Definition cw_state : Type := Random * Canvas * list CW.entry.

Definition new_entry (term clue : jsstring) (startX startY : Z) (d : Direction)
  : CW.entry :=
  {| CW.word := term; CW.clue := clue; CW.x := startX; CW.y := startY;
     CW.direction := d; CW.number := None |}.

(** The first word, written across the centre without any test. *)
Definition place_first (first : WordPair) (grid : Canvas) : outcome (Canvas * list CW.entry) :=
  let term := cleanWord (word first) in
  let startX := center - len term / 2 in
  grid ← write_term grid across startX center 0 term;
  Ok (grid, [new_entry term (definition first) startX center across]).

(** One iteration of [for (let i = 1; i < sortedWords.length; i++)]. *)
Definition place_next (currentPair : WordPair) (st : cw_state) : outcome cw_state :=
  let '(rng, grid, placedWords) := st in
  let term := cleanWord (word currentPair) in
  let scanOrder := List.filter (fun p => bool_decide (is_Some (char_at grid p.1 p.2)))
                               (row_major gridSize gridSize) in
  match try_cells grid term scanOrder rng with
  | (rng, Some (direction, startX, startY)) =>
      grid ← write_term grid direction startX startY 0 term;
      Ok (rng, grid,
          placedWords ++ [new_entry term (definition currentPair) startX startY direction])
  | (rng, None) => Ok (rng, grid, placedWords)
  end.

Fixpoint place_rest (pairs : list WordPair) (st : cw_state) : outcome cw_state :=
  match pairs with
  | [] => Ok st
  | currentPair :: pairs' => st' ← place_next currentPair st; place_rest pairs' st'
  end.

(** The bounding box [(minX, maxX, minY, maxY)] accumulated by
    [placedWords.forEach]. *)
Definition extend_box (box : Z * Z * Z * Z) (w : CW.entry) : Z * Z * Z * Z :=
  let '(minX, maxX, minY, maxY) := box in
  (Z.min minX (CW.x w),
   Z.max maxX (if decide (CW.direction w = across)
               then CW.x w + len (CW.word w) else CW.x w + 1),
   Z.min minY (CW.y w),
   Z.max maxY (if decide (CW.direction w = down)
               then CW.y w + len (CW.word w) else CW.y w + 1)).

Definition bounding_box (placedWords : list CW.entry) : Z * Z * Z * Z :=
  foldl extend_box (gridSize, 0, gridSize, 0) placedWords.

(** The cell of the cropped grid at [(x, y)]. *)
Definition cropped_cell (grid : Canvas) (minX minY x y : Z) : GridCell.t :=
  let globalY := y + minY in
  let globalX := x + minX in
  if (globalY <? gridSize) && (globalX <? gridSize)
  then {| GridCell.char := char_at grid globalX globalY;
          GridCell.x := x; GridCell.y := y |}
  else {| GridCell.char := None; GridCell.x := x; GridCell.y := y |}.

(** [Array(height).fill(null).map((_, y) => Array(width)...)]: [Array(n)]
    throws for a negative [n]; the inner one is reached only when there is
    a row. *)
Definition crop (grid : Canvas) (minX minY width height : Z) : outcome Canvas :=
  if height <? 0 then RangeError
  else if (0 <? height) && (width <? 0) then RangeError
  else Ok ((fun y => (fun x => cropped_cell grid minX minY x y) <$> seqZ 0 width)
             <$> seqZ 0 height).

(** The key [`${x},${y}`] of a start cell is modelled by the pair itself
    (the decimal rendering of two integers is injective and
    [split(',').map(Number)] recovers them). *)
Definition start_key (w : CW.entry) : Z * Z := (CW.x w, CW.y w).

(** [starts.add(k)]: a [Set] keeps insertion order and ignores an element
    it holds. *)
Definition set_add (s : list (Z * Z)) (k : Z * Z) : list (Z * Z) :=
  if bool_decide (k ∈ s) then s else s ++ [k].

(** [(a, b) => a.y - b.y || a.x - b.x] on pairs [(x, y)] *)
Definition by_row_then_column (a b : Z * Z) : Z :=
  if bool_decide (a.2 - b.2 ≠ 0) then a.2 - b.2 else a.1 - b.1.

(** [sortedStarts.forEach((pos, idx) => numberMap.set(key(pos), idx + 1))],
    entered at index [idx]. *)
Fixpoint number_from (idx : Z) (sortedStarts : list (Z * Z))
  (numberMap : gmap (Z * Z) Z) : gmap (Z * Z) Z :=
  match sortedStarts with
  | [] => numberMap
  | pos :: rest => number_from (idx + 1) rest (<[pos := idx + 1]> numberMap)
  end.

(** [{...w, number: numberMap.get(key(w))}] *)
Definition with_number (numberMap : gmap (Z * Z) Z) (w : CW.entry) : CW.entry :=
  {| CW.word := CW.word w; CW.clue := CW.clue w;
     CW.x := CW.x w; CW.y := CW.y w; CW.direction := CW.direction w;
     CW.number := numberMap !! start_key w |}.

(** The distinct start cells in the order of their numbers. *)
Definition sorted_starts (shiftedWords : list CW.entry) : list (Z * Z) :=
  let starts := foldl (fun s w => set_add s (start_key w)) [] shiftedWords in
  js_sort by_row_then_column starts.

Definition assign_numbers (shiftedWords : list CW.entry) : list CW.entry :=
  let sortedStarts := sorted_starts shiftedWords in
  let numberMap := number_from 0 sortedStarts ∅ in
  with_number numberMap <$> shiftedWords.

(** [{...w, x: w.x - minX, y: w.y - minY}] *)
Definition shift_entry (minX minY : Z) (w : CW.entry) : CW.entry :=
  {| CW.word := CW.word w; CW.clue := CW.clue w;
     CW.x := CW.x w - minX; CW.y := CW.y w - minY;
     CW.direction := CW.direction w; CW.number := CW.number w |}.

Definition generateCrossword (words : list WordPair) (seed : Z) : outcome CW.layout :=
  let grid := blank_canvas in
  let rng := new_Random seed in
  let sortedWords := sortedWords words in
  '(grid, placedWords) ←
     match sortedWords with
     | first :: _ => place_first first grid
     | [] => Ok (grid, [])
     end;
  '(rng, grid, placedWords) ← place_rest (tail sortedWords) (rng, grid, placedWords);
  let '(minX, maxX, minY, maxY) := bounding_box placedWords in
  let minX := Z.max 0 (minX - 1) in
  let minY := Z.max 0 (minY - 1) in
  let width := (maxX - minX) + 2 in
  let height := (maxY - minY) + 2 in
  croppedGrid ← crop grid minX minY width height;
  let shiftedWords := shift_entry minX minY <$> placedWords in
  let finalWords := assign_numbers shiftedWords in
  Ok {| CW.grid := croppedGrid; CW.placedWords := finalWords;
        CW.width := width; CW.height := height |}.

(** The order the design document describes for both generators: the
    words sorted by the length of their normalised form, longest first. *)
Definition by_normalized_length_desc (a b : WordPair) : Z :=
  len (cleanWord (word b)) - len (cleanWord (word a)).

Definition sorted_by_normalized_length (words : list WordPair) : list WordPair :=
  js_sort by_normalized_length_desc words.

End Engine.

(** A word pair with the given word and empty [id] and [definition]. *)
Definition wp (w : string) : WordPair :=
  {| id := []; word := units w; definition := [] |}.

(** ** Notions used in the statements *)

(** A matrix of [n] rows of [n] cells. *)
Definition square {A} (n : Z) (grid : list (list A)) : Prop :=
  length grid = Z.to_nat n /\ Forall (fun row => length row = Z.to_nat n) grid.

(** A cell that holds one letter of the class kept by [cleanWord]. *)
Definition upper_letter (v : wscell) : Prop :=
  exists c, v = Letter c /\ in_class c = true.

(** The letters of a word-search entry lie on its path in the matrix. *)
Definition ws_entry_on_grid (grid : list (list wscell)) (e : WS.entry) : Prop :=
  forall k c, at_index (WS.word e) k = Some c ->
    cell_at grid (WS.x e + k * WS.dx e) (WS.y e + k * WS.dy e) = Some (Letter c).

(** Every cell inside the matrix is still empty or holds a letter of the
    class. *)
Definition ws_letters (grid : list (list wscell)) : Prop :=
  forall x y v, cell_at grid x y = Some v -> v = Blank \/ upper_letter v.

(** What the placement loops of the word search maintain. *)
Definition ws_inv (size : Z) (st : Random * list (list wscell) * list WS.entry)
  : Prop :=
  square size st.1.2 /\
  Forall (ws_entry_on_grid st.1.2) st.2 /\
  ws_letters st.1.2.

(** What the fill pass does to a matrix: every cell stays, and a cell that
    was not empty keeps its value. *)
Definition filled_from (g g' : list (list wscell)) : Prop :=
  forall x y v, cell_at g x y = Some v ->
    exists v', cell_at g' x y = Some v' /\ (v <> Blank -> v' = v).

(** The cell of the [k]-th letter of a crossword entry. *)
Definition cw_cell (e : CW.entry) (k : Z) : Z * Z :=
  (cx_of (CW.direction e) (CW.x e) k, cy_of (CW.direction e) (CW.y e) k).

(** The letters of a crossword entry lie on its path in the grid. *)
Definition cw_entry_on (grid : Canvas) (e : CW.entry) : Prop :=
  forall k c, at_index (CW.word e) k = Some c ->
    char_at grid (cw_cell e k).1 (cw_cell e k).2 = Some c.

(** Every letter of the grid belongs to the path of a placed entry. *)
Definition cw_covered (grid : Canvas) (placedWords : list CW.entry) : Prop :=
  forall x y, is_Some (char_at grid x y) ->
    exists e k, e ∈ placedWords /\ 0 <= k < len (CW.word e) /\ cw_cell e k = (x, y).

(** Two entries share a cell. *)
Definition overlap (e e' : CW.entry) : Prop :=
  exists k k', 0 <= k < len (CW.word e) /\ 0 <= k' < len (CW.word e') /\
               cw_cell e k = cw_cell e' k'.

(** Every entry after the first shares a cell with an earlier one. *)
Definition chained (placedWords : list CW.entry) : Prop :=
  forall i e, placedWords !! i = Some e -> (0 < i)%nat ->
    exists j e', (j < i)%nat /\ placedWords !! j = Some e' /\ overlap e e'.

(** Row-major order of cells [(x, y)]: by [y], then by [x]. *)
Definition row_major_lt (a b : Z * Z) : Prop :=
  a.2 < b.2 \/ (a.2 = b.2 /\ a.1 < b.1).

(** What the placement loop of the crossword maintains. *)
Definition cw_inv (grid : Canvas) (placedWords : list CW.entry) : Prop :=
  square gridSize grid /\
  Forall (cw_entry_on grid) placedWords /\
  cw_covered grid placedWords /\
  chained placedWords.

(** ** Sample runs *)

Definition sample_words : list WordPair :=
  [wp "robot"; wp "boat"; wp "tab"; wp "orb"].

(** [generateWordSearch(sample_words, 6, 1)] *)
Definition sample_search : WS.result :=
  Eval vm_compute in
    match generateWordSearch upper_latin sample_words 6 1 with
    | Ok r => r
    | _ => {| WS.grid := []; WS.placedWords := [] |}
    end.

(** [generateCrossword(sample_words, 5)] *)
Definition sample_crossword : CW.layout :=
  Eval vm_compute in
    match generateCrossword upper_latin sample_words 5 with
    | Ok l => l
    | _ => {| CW.grid := []; CW.placedWords := []; CW.width := 0; CW.height := 0 |}
    end.

(** ** Callers in components/PuzzlePreview *)

(** [renderMatching]: [safeShuffledDefs.findIndex(d => d.id === w.id)],
    entered at index [i]; reading [d.id] of an [undefined] element throws,
    and -1 reports that no element matches. *)
Fixpoint findIndex_id (defs : list (option WordPair)) (w : WordPair) (i : Z)
  : outcome Z :=
  match defs with
  | [] => Ok (-1)
  | None :: _ => TypeError
  | Some d :: rest =>
      if bool_decide (id d = id w) then Ok i else findIndex_id rest w (i + 1)
  end.

(** [defIndex] of [renderMatching] for the word [w]: [shuffleArray] does
    not throw and returns an array, so [shuffledDefs] is its result. *)
Definition matching_defIndex (vocabList : list WordPair) (seed : Z) (w : WordPair)
  : outcome Z :=
  findIndex_id (shuffleArray vocabList (seed + 1)) w 0.

(** [renderAnagrams]: [scrambleWord(cleanWord(w.word), seed + i)] for the
    word at index [i]. *)
Definition anagram_of (toUpperCase : jsstring -> jsstring) (w : WordPair)
  (seed i : Z) : jsstring :=
  scrambleWord (cleanWord toUpperCase (word w)) (seed + i).

(** [renderWordSearch]: the test of the callback given to
    [placedWords.some], and [isAnswer] for the cell [(x, y)]. *)
Definition on_path (w : WS.entry) (x y : Z) : bool :=
  existsb (fun k => (WS.x w + k * WS.dx w =? x) && (WS.y w + k * WS.dy w =? y))
          (seqZ 0 (len (WS.word w))).

Definition isAnswer (showAnswerKey : bool) (placedWords : list WS.entry) (x y : Z)
  : bool :=
  showAnswerKey && existsb (fun w => on_path w x y) placedWords.

(** A word pair with an id, for the sample runs of the callers. *)
Definition sample_vocab : list WordPair :=
  [ {| id := units "a1"; word := units "cat"; definition := units "pet" |};
    {| id := units "b2"; word := units "dog"; definition := units "friend" |};
    {| id := units "c3"; word := units "owl"; definition := units "bird" |} ].

(** One of the eight direction vectors. *)
Definition compass (vx vy : Z) : Prop :=
  exists i dir, at_index directions i = Some dir /\ dx dir = vx /\ dy dir = vy.

(** PuzzlePreview.tsx, [renderCrossword]:
    [placedWords.find(w => w.x === cell.x && w.y === cell.y)], the entry
    whose number is printed in the cell. *)
Definition startWord (placedWords : list CW.entry) (cell : GridCell.t)
  : option CW.entry :=
  List.find (fun w => (CW.x w =? GridCell.x cell) && (CW.y w =? GridCell.y cell))
            placedWords.

(** [(a, b) => a.number - b.number]; [sort] takes a [NaN] result, that of
    a missing number, as 0. *)
Definition by_number (a b : CW.entry) : Z :=
  match CW.number a, CW.number b with
  | Some x, Some y => x - y
  | _, _ => 0
  end.

(** [placedWords.filter(w => w.direction === 'across').sort(...)] and the
    same for ['down']. *)
Definition acrossClues (placedWords : list CW.entry) : list CW.entry :=
  js_sort by_number
    (List.filter (fun w => bool_decide (CW.direction w = across)) placedWords).

Definition downClues (placedWords : list CW.entry) : list CW.entry :=
  js_sort by_number
    (List.filter (fun w => bool_decide (CW.direction w = down)) placedWords).

(** Both entries have a number, and the first is not after the second. *)
Definition number_le (a b : CW.entry) : Prop :=
  exists x y, CW.number a = Some x /\ CW.number b = Some y /\ x <= y.

(** The number of an entry, 0 when it has none. *)
Definition number_or_0 (a : CW.entry) : Z := default 0 (CW.number a).

(** The column and the row one past the last cell of an entry, as the
    bounding box takes them. *)
Definition end_x (w : CW.entry) : Z :=
  if decide (CW.direction w = across) then CW.x w + len (CW.word w) else CW.x w + 1.

Definition end_y (w : CW.entry) : Z :=
  if decide (CW.direction w = down) then CW.y w + len (CW.word w) else CW.y w + 1.

(** Two generator states from which [next] continues alike. *)
Definition same_next (rng rng' : Random) : Prop := next rng = next rng'.

(** Two outcomes of the same kind, with related results. *)
Definition outcome_rel {A} (R : A -> A -> Prop) (o o' : outcome A) : Prop :=
  match o, o' with
  | Ok a, Ok a' => R a a'
  | TypeError, TypeError => True
  | RangeError, RangeError => True
  | _, _ => False
  end.

(** States of the word search that differ at most in a generator state
    from which [next] continues alike. *)
Definition ws_rel (st st' : Random * list (list wscell) * list WS.entry) : Prop :=
  same_next st.1.1 st'.1.1 /\ st.1.2 = st'.1.2 /\ st.2 = st'.2.

Definition fill_rel (st st' : Random * list (list wscell)) : Prop :=
  same_next st.1 st'.1 /\ st.2 = st'.2.

Definition cw_rel (st st' : Random * list (list GridCell.t) * list CW.entry) : Prop :=
  same_next st.1.1 st'.1.1 /\ st.1.2 = st'.1.2 /\ st.2 = st'.2.

(** ** components/VocabularyInput *)

(** The code units [.] of a regular expression does not match. *)
Definition is_line_terminator (c : code_unit) : bool :=
  ((c =? 10) || (c =? 13) || (c =? 8232) || (c =? 8233))%N.

(** The code units [String.prototype.trim] strips: WhiteSpace and
    LineTerminator. *)
Definition is_white_space (c : code_unit) : bool :=
  ((c =? 9) || (c =? 11) || (c =? 12) || (c =? 32) || (c =? 160) || (c =? 5760)
   || ((8192 <=? c) && (c <=? 8202)) || (c =? 8239) || (c =? 8287)
   || (c =? 12288) || (c =? 65279))%N
  || is_line_terminator c.

Fixpoint trim_start (s : jsstring) : jsstring :=
  match s with
  | [] => []
  | c :: s' => if is_white_space c then trim_start s' else s
  end.

(** [s.trim()] *)
Definition trim (s : jsstring) : jsstring :=
  reverse (trim_start (reverse (trim_start s))).

(** [text.split('\n')] *)
Fixpoint split_lines (text : jsstring) : list jsstring :=
  match text with
  | [] => [[]]
  | c :: text' =>
      if (c =? 10)%N then [] :: split_lines text'
      else match split_lines text' with
           | line :: lines => (c :: line) :: lines
           | [] => [[c]]
           end
  end.

(** The class [[:\-=\,]] *)
Definition is_separator (c : code_unit) : bool :=
  ((c =? 58) || (c =? 45) || (c =? 61) || (c =? 44))%N.

(** The longest prefix without a separator, and what follows it. *)
Fixpoint span_word (s : jsstring) : jsstring * jsstring :=
  match s with
  | [] => ([], [])
  | c :: s' =>
      if is_separator c then ([], s)
      else let '(w, rest) := span_word s' in (c :: w, rest)
  end.

(** [trimmed.match(/^([^:\-=\,]+)[:\-=\,](.+)$/)], the groups 1 and 2.
    Group 1 must stop in front of a separator, so it is the longest prefix
    without one, and it is not empty; group 2 is all that follows the
    separator, not empty and without a line terminator. *)
Definition match_pair (trimmed : jsstring) : option (jsstring * jsstring) :=
  match span_word trimmed with
  | ((_ :: _) as m1, _ :: ((_ :: _) as m2)) =>
      if forallb (fun c => negb (is_line_terminator c)) m2 then Some (m1, m2) else None
  | _ => None
  end.

(** [array.join('\n')] *)
Definition join_lines (lines : list jsstring) : jsstring :=
  match lines with
  | [] => []
  | line :: lines' => line ++ flat_map (fun l => 10%N :: l) lines'
  end.

(** The text the effect of [VocabularyInput] puts in the box:
    [words.map(w => `${w.word}: ${w.definition}`).join('\n')] *)
Definition initial_text (words : list WordPair) : jsstring :=
  join_lines ((fun w => word w ++ [58%N; 32%N] ++ definition w) <$> words).

Section VocabularyInput.

(** [String.prototype.toLowerCase] of the host; the value of the call
    number [n], counted from 0, of [crypto.randomUUID()] during one run of
    [parseText]; and the message [t(locale, 'vocab.errorNoPairs')]. *)
Variable toLowerCase : jsstring -> jsstring.
Variable randomUUID : nat -> jsstring.
Variable errorNoPairs : jsstring.

(** The callback of [lines.forEach], on the pair of [newWords] and [seen];
    one identifier is drawn for each pair pushed. *)
Definition parse_line (st : list WordPair * list jsstring) (line : jsstring)
  : list WordPair * list jsstring :=
  let '(newWords, seen) := st in
  let trimmed := trim line in
  match trimmed with
  | [] => st
  | _ :: _ =>
      match match_pair trimmed with
      | Some (m1, m2) =>
          let word := trim m1 in
          let definition := trim m2 in
          let lowerWord := toLowerCase word in
          if bool_decide (lowerWord ∈ seen) then st
          else (newWords ++ [ {| id := randomUUID (length newWords);
                                 word := word; definition := definition |} ],
                seen ++ [lowerWord])
      | None => st
      end
  end.

(** [parseText]: the argument of [setError], and the argument of
    [onUpdate] when it is called. *)
Definition parseText (text : jsstring) : option jsstring * option (list WordPair) :=
  let lines := split_lines text in
  let '(newWords, _) := foldl parse_line ([], []) lines in
  let parseError :=
    if (len newWords =? 0) && (0 <? len (trim text)) then Some errorNoPairs else None in
  (parseError, if 0 <? len newWords then Some newWords else None).

End VocabularyInput.

(** A string that does not start, or end, with a code unit [trim]
    strips. *)
Definition starts_clean (s : jsstring) : Prop :=
  match s with
  | [] => True
  | c :: _ => is_white_space c = false
  end.

Definition ends_clean (s : jsstring) : Prop := starts_clean (reverse s).

(** A pair as [parseText] makes them: word and definition are not empty
    and trimmed, the word is on one line and has no separator, the
    definition has no line terminator. *)
Definition storable (w : WordPair) : Prop :=
  word w <> [] /\ trim (word w) = word w /\
  Forall (fun c => is_separator c = false /\ c <> 10%N) (word w) /\
  definition w <> [] /\ trim (definition w) = definition w /\
  Forall (fun c => is_line_terminator c = false) (definition w).

(** What the loop over the lines of [parseText] maintains. *)
Definition parse_inv (toLowerCase : jsstring -> jsstring) (randomUUID : nat -> jsstring)
  (st : list WordPair * list jsstring) : Prop :=
  st.2 = (fun w => toLowerCase (word w)) <$> st.1 /\
  NoDup st.2 /\
  forall i w, st.1 !! i = Some w -> id w = randomUUID i /\ storable w.

(** The text of three lines with a pair and an empty line: [cat: pet],
    [ dog - friend ] and [cat, again]. *)
Definition sample_text : jsstring :=
  units "cat: pet" ++ [10%N] ++ units " dog - friend " ++ [10%N; 10%N]
  ++ units "cat, again".

(** [toLowerCase] on strings of ASCII code units, for the sample runs. *)
Definition lower_ascii (s : jsstring) : jsstring :=
  (fun c => if ((65 <=? c) && (c <=? 90))%N then (c + 32)%N else c) <$> s.

(** Identifiers for the sample runs: [id0], [id1], ... *)
Definition sample_uuid (n : nat) : jsstring := units "id" ++ [(48 + N.of_nat n)%N].

(** [parseText(sample_text)]: the second [cat] is dropped. *)
Definition sample_parse : option jsstring * option (list WordPair) :=
  Eval vm_compute in parseText lower_ascii sample_uuid (units "no pairs") sample_text.




(** ** generateWordSearch with its generator as an object in a store *)

(** The store of a run holds the instances of [Random] that exist when a
    call starts and those made since, by address: for each, the value of
    its field [seed]. *)

(** [new Random(seed)]: a new object, at an address no object has. *)
Definition alloc_Random (seed : Z) (σ : list Z) : nat * list Z :=
  (length σ, σ ++ [seed]).

(** [rng.next()] for the object at the address [rng]: the field is read,
    and the new value is stored in it. *)
Definition next_at (rng : nat) (σ : list Z) : Q * list Z :=
  let '(v, seed) := next (default 0 (σ !! rng)) in
  (v, <[rng := (seed : Z)]> σ).

Section EngineInStore.
Variable toUpperCase : jsstring -> jsstring.

Definition ws_store_state : Type := list Z * list (list wscell) * list WS.entry.

(** [while (!placed && attempts < 100)], with [fuel = 100 - attempts]. *)
Fixpoint attempt_loop_at (rng : nat) (fuel : nat) (size : Z) (term : jsstring)
  (st : ws_store_state) : outcome ws_store_state :=
  match fuel with
  | O => Ok st
  | S fuel' =>
      let '(σ, grid, placedWords) := st in
      let '(v, σ) := next_at rng σ in
      let dir := at_index directions (floor_mul v (len directions)) in
      let '(v, σ) := next_at rng σ in
      let startX := floor_mul v size in
      let '(v, σ) := next_at rng σ in
      let startY := floor_mul v size in
      match dir with
      | None => TypeError
      | Some dir =>
          let endX := startX + (len term - 1) * dx dir in
          let endY := startY + (len term - 1) * dy dir in
          if (0 <=? endX) && (endX <? size) && (0 <=? endY) && (endY <? size)
          then
            fits ← fits_loop grid startX startY dir 0 term;
            if fits : bool
            then
              let grid := write_loop grid startX startY dir 0 term in
              Ok (σ, grid,
                  placedWords ++ [ {| WS.word := term; WS.x := startX; WS.y := startY;
                                      WS.dx := dx dir; WS.dy := dy dir |} ])
            else attempt_loop_at rng fuel' size term (σ, grid, placedWords)
          else attempt_loop_at rng fuel' size term (σ, grid, placedWords)
      end
  end.

(** [for (const item of sortedWords)] *)
Fixpoint place_words_at (rng : nat) (size : Z) (items : list WordPair)
  (st : ws_store_state) : outcome ws_store_state :=
  match items with
  | [] => Ok st
  | item :: items' =>
      st' ← attempt_loop_at rng 100 size (cleanWord toUpperCase (word item)) st;
      place_words_at rng size items' st'
  end.

(** The body of the fill loops at one position. *)
Definition fill_cell_at (rng : nat) (st : list Z * list (list wscell)) (p : Z * Z)
  : outcome (list Z * list (list wscell)) :=
  let '(σ, grid) := st in
  let '(x, y) := p in
  c ← grid_read grid x y;
  if bool_decide (c = Blank)
  then
    let '(v, σ) := next_at rng σ in
    let letter := match at_index alphabet (floor_mul v (len alphabet)) with
                  | Some a => Letter a
                  | None => Undefined
                  end in
    Ok (σ, grid_write grid x y letter)
  else Ok (σ, grid).

Fixpoint fill_loop_at (rng : nat) (ps : list (Z * Z))
  (st : list Z * list (list wscell)) : outcome (list Z * list (list wscell)) :=
  match ps with
  | [] => Ok st
  | p :: ps' => st' ← fill_cell_at rng st p; fill_loop_at rng ps' st'
  end.

(** A call of [generateWordSearch] in the store [σ]: the result and the
    store the call leaves. *)
Definition generateWordSearch_at (words : list WordPair) (size seed : Z) (σ : list Z)
  : outcome (WS.result * list Z) :=
  let '(rng, σ) := alloc_Random seed σ in
  if (size <? 0) || (2 ^ 32 - 1 <? size) then RangeError
  else
    let grid := replicate (Z.to_nat size) (replicate (Z.to_nat size) Blank) in
    let placedWords := [] in
    '(σ, grid, placedWords) ← place_words_at rng size (sortedWords words)
                                (σ, grid, placedWords);
    '(σ, grid) ← fill_loop_at rng (row_major size size) (σ, grid);
    Ok ({| WS.grid := grid; WS.placedWords := placedWords |}, σ).

End EngineInStore.

(** Two outcomes of the same kind, with related results of two types. *)
Definition outcome_sim {A B} (R : A -> B -> Prop) (o : outcome A) (o' : outcome B)
  : Prop :=
  match o, o' with
  | Ok a, Ok b => R a b
  | TypeError, TypeError => True
  | RangeError, RangeError => True
  | _, _ => False
  end.

(** A state of the loops in the store [σ] changed at the address [rng],
    against a state of the loops that carry the field of the generator
    along. *)
Definition ws_sim (rng : nat) (σ : list Z)
  (a : list Z * list (list wscell) * list WS.entry)
  (b : Random * list (list wscell) * list WS.entry) : Prop :=
  a.1.1 = <[rng := b.1.1]> σ /\ a.1.2 = b.1.2 /\ a.2 = b.2.

Definition fill_sim (rng : nat) (σ : list Z)
  (a : list Z * list (list wscell)) (b : Random * list (list wscell)) : Prop :=
  a.1 = <[rng := b.1]> σ /\ a.2 = b.2.

(** The store [generateWordSearch_at] is run in for the sample: two
    generators left by earlier calls. *)
Definition sample_store : list Z := [17; -4].

(** * Properties *)

(** ** The generator *)

Lemma round53_small (x : Z) : Z.abs x < 2 ^ 53 -> round53 x = x.
Proof.
  intros H. unfold round53.
  destruct (Z.ltb_spec (Z.abs x) (2 ^ 53)); [reflexivity | lia].
Qed.

Lemma round53_nonneg (x : Z) : 0 <= x -> 0 <= round53 x.
Proof.
  intros Hx. unfold round53.
  destruct (Z.ltb_spec (Z.abs x) (2 ^ 53)) as [|Hbig]; [assumption |].
  cbv zeta.
  set (e := Z.log2 (Z.abs x) - 52).
  assert (He : 0 <= 2 ^ e) by (apply Z.pow_nonneg; lia).
  assert (Hq : 0 <= Z.abs x / 2 ^ e).
  { apply Z.div_pos; [lia |]. apply Z.pow_pos_nonneg; [lia |].
    pose proof (Z.log2_le_mono (2 ^ 53) (Z.abs x) Hbig) as Hl.
    rewrite Z.log2_pow2 in Hl by lia. lia. }
  assert (Hs : 0 <= Z.sgn x) by lia.
  repeat match goal with |- context [if ?b then _ else _] => destruct b end;
    apply Z.mul_nonneg_nonneg; try apply Z.mul_nonneg_nonneg; lia.
Qed.

Lemma next_value (rng : Random) : fst (next rng) = snd (next rng) # 233280.
Proof. reflexivity. Qed.

Lemma next_bounds (rng : Random) : -233280 < snd (next rng) < 233280.
Proof.
  unfold next; simpl.
  set (a := round53 (round53 (rng * 9301) + 49297)).
  pose proof (Z.rem_bound_abs a 233280 ltac:(lia)).
  pose proof (Z.abs_nonneg a).
  destruct (Z.eq_dec a 0) as [->|Hne]; [rewrite Z.rem_0_l; lia |].
  destruct (Z_lt_le_dec a 0).
  - pose proof (Z.rem_bound_neg_pos a (-233280)). 
    pose proof (Z.rem_bound_pos_neg a 233280 ltac:(lia) ltac:(lia)). lia.
  - pose proof (Z.rem_bound_pos a 233280 ltac:(lia) ltac:(lia)). lia.
Qed.

Lemma next_nonneg (rng : Random) : 0 <= rng -> 0 <= snd (next rng) < 233280.
Proof.
  intros H. unfold next; simpl.
  apply Z.rem_bound_pos; [| lia].
  apply round53_nonneg.
  pose proof (round53_nonneg (rng * 9301) ltac:(lia)). lia.
Qed.

Lemma next_exact (rng : Random) :
  0 <= rng -> rng * 9301 + 49297 < 2 ^ 53 ->
  snd (next rng) = (rng * 9301 + 49297) mod 233280.
Proof.
  intros H0 H1. unfold next; simpl.
  rewrite (round53_small (rng * 9301)) by lia.
  rewrite round53_small by lia.
  apply Z.rem_mod_nonneg; lia.
Qed.

Lemma state_after_S (rng : Random) (k : nat) :
  state_after rng (S k) = snd (next (state_after rng k)).
Proof.
  revert rng. induction k as [|k IH]; intros rng; [reflexivity |].
  change (state_after rng (S (S k))) with (state_after (snd (next rng)) (S k)).
  rewrite IH. reflexivity.
Qed.

Lemma state_after_nonneg (rng : Random) (k : nat) :
  0 <= rng -> 0 <= state_after rng k.
Proof.
  revert rng. induction k as [|k IH]; intros rng H; simpl; [assumption |].
  apply IH. apply next_nonneg, H.
Qed.

Lemma state_after_small (rng : Random) (k : nat) :
  (1 <= k)%nat -> -233280 < state_after rng k < 233280.
Proof.
  destruct k as [|k]; [lia |]. intros _.
  rewrite state_after_S. apply next_bounds.
Qed.

Lemma unit_interval (s : Z) : 0 <= s < 233280 -> (0 <= s # 233280 < 1)%Q.
Proof.
  intros H. unfold Qle, Qlt; simpl. lia.
Qed.

Lemma round_half_even_bounds (n d : Z) :
  0 <= n -> 0 < d ->
  n / d <= round_half_even n d /\ 2 * (round_half_even n d * d) <= 2 * n + d.
Proof.
  intros Hn Hd. unfold round_half_even.
  pose proof (Z.div_mod n d ltac:(lia)) as Hdm.
  pose proof (Z.mod_pos_bound n d Hd) as Hr.
  destruct (Z.ltb_spec (2 * (n mod d)) d); [split; nia |].
  destruct (Z.ltb_spec d (2 * (n mod d))); [split; nia |].
  destruct (Z.even (n / d)); split; nia.
Qed.

Lemma pow2_pos (e : Z) : 0 < 2 ^ Z.max 0 e.
Proof. apply Z.pow_pos_nonneg; lia. Qed.

(** [2 ^ (u + v) = 2 ^ u * 2 ^ v], for exponents of any sign. *)
Lemma pow2_split (u v : Z) :
  2 ^ Z.max 0 (u + v) * 2 ^ Z.max 0 (- u) * 2 ^ Z.max 0 (- v)
  = 2 ^ Z.max 0 u * 2 ^ Z.max 0 v * 2 ^ Z.max 0 (- (u + v)).
Proof.
  rewrite <- !Z.pow_add_r by lia. f_equal. lia.
Qed.

Lemma log2_scale (a b : Z) :
  0 < a -> 0 < b ->
  let k := Z.log2 a - Z.log2 b in
  b * 2 ^ Z.max 0 (k - 1) <= a * 2 ^ Z.max 0 (- (k - 1)).
Proof.
  intros Ha Hb k.
  pose proof (Z.log2_spec a Ha) as [Hla _].
  pose proof (Z.log2_spec b Hb) as [_ Hlb].
  pose proof (Z.log2_nonneg a) as Hna. pose proof (Z.log2_nonneg b) as Hnb.
  destruct (Z.le_gt_cases 0 (k - 1)) as [Hk | Hk].
  - rewrite Z.max_r by lia. rewrite (Z.max_l 0 (- (k - 1))) by lia. rewrite Z.pow_0_r, Z.mul_1_r.
    apply Z.le_trans with (2 ^ Z.succ (Z.log2 b) * 2 ^ (k - 1)).
    + apply Z.mul_le_mono_nonneg_r; [apply Z.pow_nonneg; lia | lia].
    + rewrite <- Z.pow_add_r by lia.
      replace (Z.succ (Z.log2 b) + (k - 1)) with (Z.log2 a) by (unfold k; lia). exact Hla.
  - rewrite Z.max_l by lia. rewrite (Z.max_r 0 (- (k - 1))) by lia. rewrite Z.pow_0_r, Z.mul_1_r.
    apply Z.le_trans with (2 ^ Z.log2 a * 2 ^ (- (k - 1))).
    + rewrite <- Z.pow_add_r by lia.
      replace (Z.log2 a + - (k - 1)) with (Z.succ (Z.log2 b)) by (unfold k; lia). lia.
    + apply Z.mul_le_mono_nonneg_r; [apply Z.pow_nonneg; lia | lia].
Qed.

(** The double of a positive rational: a positive mantissa over a power
    of two, at most the value times [1 + 2^-53]. *)
Lemma to_double_pos (a : Z) (b : positive) :
  0 < a ->
  exists M R, to_double (a # b) = M # R /\ 0 < M /\
    M * Z.pos b * 2 ^ 53 <= a * Z.pos R * (2 ^ 53 + 1).
Proof.
  intros Ha. unfold to_double. cbn [Qnum Qden].
  rewrite (Z.abs_eq a) by lia. rewrite (Z.sgn_pos a) by lia.
  destruct (Z.eqb_spec a 0) as [| _]; [lia |].
  set (k := Z.log2 a - Z.log2 (Z.pos b)).
  set (l := if _ <=? _ then k else k - 1).
  assert (Hl : Z.pos b * 2 ^ Z.max 0 l <= a * 2 ^ Z.max 0 (- l)).
  { unfold l. destruct (Z.leb_spec (Z.pos b * 2 ^ Z.max 0 k) (a * 2 ^ Z.max 0 (- k)));
      [assumption |]. apply log2_scale; lia. }
  clearbody l. clear k.
  set (e := l - 52).
  pose proof (pow2_pos e) as Hp. pose proof (pow2_pos (- e)) as Hr.
  pose proof (pow2_pos l) as Hpl. pose proof (pow2_pos (- l)) as Hrl.
  pose proof (pow2_split e 52) as Hsplit.
  replace (e + 52) with l in Hsplit by (unfold e; lia).
  change (2 ^ Z.max 0 (Z.opp 52)) with 1 in Hsplit.
  change (Z.max 0 52) with 52 in Hsplit. rewrite Z.mul_1_r in Hsplit.
  set (p := 2 ^ Z.max 0 e) in *. set (r := 2 ^ Z.max 0 (- e)) in *.
  set (pl := 2 ^ Z.max 0 l) in *. set (rl := 2 ^ Z.max 0 (- l)) in *.
  assert (Hscaled : 2 ^ 52 * (Z.pos b * p) <= a * r).
  { apply (Z.mul_le_mono_pos_r _ _ rl Hrl).
    replace (2 ^ 52 * (Z.pos b * p) * rl) with (Z.pos b * (p * 2 ^ 52 * rl)) by ring.
    rewrite <- Hsplit.
    replace (Z.pos b * (pl * r)) with (Z.pos b * pl * r) by ring.
    replace (a * r * rl) with (a * rl * r) by ring.
    apply Z.mul_le_mono_nonneg_r; [lia | exact Hl]. }
  destruct (round_half_even_bounds (a * r) (Z.pos b * p) ltac:(nia) ltac:(nia))
    as [Hlow Hup].
  set (m := round_half_even (a * r) (Z.pos b * p)) in *.
  assert (Hm : 2 ^ 52 <= m).
  { eapply Z.le_trans; [| exact Hlow]. apply Z.div_le_lower_bound; [nia |].
    rewrite Z.mul_comm. exact Hscaled. }
  exists (1 * (m * p)), (Z.to_pos r). split; [reflexivity |].
  split; [nia |]. rewrite Z2Pos.id by exact Hr.
  replace (1 * (m * p) * Z.pos b * 2 ^ 53) with (2 ^ 52 * (2 * (m * (Z.pos b * p)))) by
    (change (2 ^ 53) with (2 ^ 52 * 2); ring).
  apply Z.le_trans with (2 ^ 52 * (2 * (a * r) + Z.pos b * p)).
  - apply Z.mul_le_mono_nonneg_l; [lia | exact Hup].
  - change (2 ^ 53) with (2 ^ 52 * 2). nia.
Qed.

Lemma to_double_neg (a : Z) (b : positive) :
  a < 0 -> exists M R, to_double (a # b) = M # R /\ M < 0.
Proof.
  intros Ha. unfold to_double. cbn [Qnum Qden].
  rewrite (Z.sgn_neg a) by lia.
  destruct (Z.eqb_spec (Z.abs a) 0) as [| _]; [lia |].
  set (k := Z.log2 (Z.abs a) - Z.log2 (Z.pos b)).
  set (l := if _ <=? _ then k else k - 1).
  assert (Hl : Z.pos b * 2 ^ Z.max 0 l <= Z.abs a * 2 ^ Z.max 0 (- l)).
  { unfold l. destruct (Z.leb_spec (Z.pos b * 2 ^ Z.max 0 k) (Z.abs a * 2 ^ Z.max 0 (- k)));
      [assumption |]. apply log2_scale; lia. }
  clearbody l. clear k.
  set (e := l - 52).
  pose proof (pow2_pos e) as Hp. pose proof (pow2_pos (- e)) as Hr.
  pose proof (pow2_pos l) as Hpl. pose proof (pow2_pos (- l)) as Hrl.
  pose proof (pow2_split e 52) as Hsplit.
  replace (e + 52) with l in Hsplit by (unfold e; lia).
  change (2 ^ Z.max 0 (Z.opp 52)) with 1 in Hsplit.
  change (Z.max 0 52) with 52 in Hsplit. rewrite Z.mul_1_r in Hsplit.
  set (p := 2 ^ Z.max 0 e) in *. set (r := 2 ^ Z.max 0 (- e)) in *.
  set (pl := 2 ^ Z.max 0 l) in *. set (rl := 2 ^ Z.max 0 (- l)) in *.
  assert (Hscaled : 2 ^ 52 * (Z.pos b * p) <= Z.abs a * r).
  { apply (Z.mul_le_mono_pos_r _ _ rl Hrl).
    replace (2 ^ 52 * (Z.pos b * p) * rl) with (Z.pos b * (p * 2 ^ 52 * rl)) by ring.
    rewrite <- Hsplit.
    replace (Z.pos b * (pl * r)) with (Z.pos b * pl * r) by ring.
    replace (Z.abs a * r * rl) with (Z.abs a * rl * r) by ring.
    apply Z.mul_le_mono_nonneg_r; [lia | exact Hl]. }
  destruct (round_half_even_bounds (Z.abs a * r) (Z.pos b * p) ltac:(nia) ltac:(nia))
    as [Hlow _].
  set (m := round_half_even (Z.abs a * r) (Z.pos b * p)) in *.
  assert (Hm : 2 ^ 52 <= m).
  { eapply Z.le_trans; [| exact Hlow]. apply Z.div_le_lower_bound; [nia |].
    rewrite Z.mul_comm. exact Hscaled. }
  exists (-1 * (m * p)), (Z.to_pos r). split; [reflexivity | nia].
Qed.

Lemma to_double_zero (b : positive) : to_double (0 # b) = 0%Q.
Proof. reflexivity. Qed.

Lemma floor_mul_range (s n : Z) :
  0 <= s < 233280 -> 0 < n -> 0 <= floor_mul (s # 233280) n < n.
Proof.
  intros Hs Hn. unfold floor_mul.
  destruct (Z.eq_dec s 0) as [-> | Hne]; [split; [reflexivity | exact Hn] |].
  destruct (to_double_pos s 233280 ltac:(lia)) as (M1 & R1 & -> & HM1 & H1).
  change ((M1 # R1) * inject_Z n)%Q with ((M1 * n) # (R1 * 1)).
  destruct (to_double_pos (M1 * n) (R1 * 1) ltac:(nia)) as (M2 & R2 & -> & HM2 & H2).
  rewrite Pos.mul_1_r in H2. unfold Qfloor.
  split; [apply Z.div_pos; lia |].
  apply Z.div_lt_upper_bound; [lia |].
  set (E := 2 ^ 53) in *.
  assert (H1' : M1 * 233280 * E <= 233279 * Z.pos R1 * (E + 1)).
  { eapply Z.le_trans; [exact H1 |].
    apply Z.mul_le_mono_nonneg_r; [unfold E; lia |].
    apply Z.mul_le_mono_nonneg_r; lia. }
  assert (H3 : M2 * Z.pos R1 * E * (233280 * E)
               <= 233279 * Z.pos R1 * (E + 1) * (n * Z.pos R2 * (E + 1))).
  { apply Z.le_trans with (M1 * n * Z.pos R2 * (E + 1) * (233280 * E)).
    - apply Z.mul_le_mono_nonneg_r; [unfold E; lia | exact H2].
    - replace (M1 * n * Z.pos R2 * (E + 1) * (233280 * E))
        with (M1 * 233280 * E * (n * Z.pos R2 * (E + 1))) by ring.
      apply Z.mul_le_mono_nonneg_r; [unfold E; nia | exact H1']. }
  assert (H4 : M2 * (233280 * E * E) <= Z.pos R2 * n * (233279 * (E + 1) * (E + 1))).
  { apply (Z.mul_le_mono_pos_l _ _ (Z.pos R1)); [lia |].
    replace (Z.pos R1 * (M2 * (233280 * E * E)))
      with (M2 * Z.pos R1 * E * (233280 * E)) by ring.
    replace (Z.pos R1 * (Z.pos R2 * n * (233279 * (E + 1) * (E + 1))))
      with (233279 * Z.pos R1 * (E + 1) * (n * Z.pos R2 * (E + 1))) by ring.
    exact H3. }
  assert (HK : 233279 * (E + 1) * (E + 1) < 233280 * E * E) by (unfold E; lia).
  assert (Hpos : 0 < Z.pos R2 * n) by lia.
  apply (Z.mul_lt_mono_pos_r (233280 * E * E)); [unfold E; lia |].
  eapply Z.le_lt_trans; [exact H4 |].
  apply Z.mul_lt_mono_pos_l; assumption.
Qed.

Lemma floor_mul_negative (s n : Z) :
  s < 0 -> 0 < n -> floor_mul (s # 233280) n < 0.
Proof.
  intros Hs Hn. unfold floor_mul.
  destruct (to_double_neg s 233280 Hs) as (M1 & R1 & -> & HM1).
  change ((M1 # R1) * inject_Z n)%Q with ((M1 * n) # (R1 * 1)).
  destruct (to_double_neg (M1 * n) (R1 * 1) ltac:(nia)) as (M2 & R2 & -> & HM2).
  unfold Qfloor. apply Z.div_lt_upper_bound; lia.
Qed.

Lemma floor_mul_zero (s : Z) : floor_mul (s # 233280) 0 = 0.
Proof.
  unfold floor_mul.
  assert (H : forall x : Q, to_double (x * inject_Z 0) = 0%Q).
  { intros [a b]. unfold Qmult, inject_Z, to_double. cbn [Qnum Qden].
    rewrite Z.mul_0_r. reflexivity. }
  rewrite H. reflexivity.
Qed.

(** The product is rounded: at the state 67392 and [n = 45] it is the
    double just below 13, where the exact product is 13. *)
Lemma floor_mul_rounds :
  floor_mul (67392 # 233280) 45 = 12 /\ 67392 * 45 / 233280 = 13.
Proof. split; reflexivity. Qed.

(** C4, as amended: for a non-negative seed, every call of [next] returns
    the new state divided by 233280, a value in [0,1); the new state is
    [(state * 9301 + 49297) mod 233280] from the second call on, and at the
    first call when [seed * 9301 + 49297] is below [2^53]; two instances
    built from the same seed return the same sequence. *)
Theorem Random_next_lcg (seed : Z) (k : nat) :
  0 <= seed ->
  let rng := new_Random seed in
  let s := state_after rng k in
  let s' := state_after rng (S k) in
  let v := output_at rng k in
  ((1 <= k)%nat \/ seed * 9301 + 49297 < 2 ^ 53 ->
   s' = (s * 9301 + 49297) mod 233280) /\
  v = s' # 233280 /\
  (0 <= v < 1)%Q /\
  (forall seed', seed' = seed ->
     forall n, outputs (new_Random seed') n = outputs rng n).
Proof.
  intros Hseed rng s s' v.
  assert (Hs : 0 <= s) by (apply state_after_nonneg, Hseed).
  assert (Hs' : s' = snd (next s)) by apply state_after_S.
  repeat split.
  - intros Hk. rewrite Hs'. apply next_exact; [assumption |].
    destruct Hk as [Hk | Hk].
    + pose proof (state_after_small rng k Hk). fold s in H. lia.
    + destruct k as [|k]; [exact Hk |].
      pose proof (state_after_small rng (S k) ltac:(lia)). fold s in H. lia.
  - unfold v, output_at. fold s. rewrite Hs'. apply next_value.
  - unfold v, output_at. fold s. rewrite next_value.
    apply unit_interval, next_nonneg, Hs.
  - unfold v, output_at. fold s. rewrite next_value.
    apply unit_interval, next_nonneg, Hs.
  - intros seed' -> n. reflexivity.
Qed.

Lemma Random_next_lcg_witness :
  0 <= 42 /\
  (state_after (new_Random 42) 3 =
     (state_after (new_Random 42) 2 * 9301 + 49297) mod 233280 /\
   (0 <= output_at (new_Random 42) 2 < 1)%Q).
Proof.
  split; [lia |].
  pose proof (Random_next_lcg 42 2 ltac:(lia)) as (H1 & _ & H3 & _).
  split; [apply H1; left; lia | exact H3].
Defined.

(** C4 as stated fails for a negative seed: the remainder keeps the sign
    of the dividend, so the value returned for the seed -6 is negative.
    It also fails at the first call for a seed as large as a millisecond
    timestamp: the product exceeds [2^53] and is rounded before the
    remainder is taken. *)
Lemma Random_next_negative_seed :
  (let v := output_at (new_Random (-6)) 0 in
   v = (-6509 # 233280) /\ (v < 0)%Q) /\
  (let seed := 1700000000001 in
   state_after (new_Random seed) 1 = 18596 /\
   (seed * 9301 + 49297) mod 233280 = 18598).
Proof. repeat split. Qed.

(** ** Sorting *)

Lemma sort_insert_perm {A} (cmp : A -> A -> Z) (a : A) (l : list A) :
  sort_insert cmp a l ≡ₚ a :: l.
Proof.
  induction l as [|b l IH]; simpl; [reflexivity |].
  destruct (cmp a b <=? 0); [reflexivity |].
  rewrite IH. apply perm_swap.
Qed.

Lemma js_sort_perm {A} (cmp : A -> A -> Z) (l : list A) : js_sort cmp l ≡ₚ l.
Proof.
  induction l as [|a l IH]; simpl; [reflexivity |].
  rewrite sort_insert_perm, IH. reflexivity.
Qed.

Section SortOrder.
Context {A : Type} (cmp : A -> A -> Z).
Hypothesis cmp_total : forall a b, 0 < cmp a b -> cmp b a <= 0.
Hypothesis cmp_trans : forall a b c, cmp a b <= 0 -> cmp b c <= 0 -> cmp a c <= 0.

Lemma sort_insert_sorted (a : A) (l : list A) :
  StronglySorted (fun x y => cmp x y <= 0) l ->
  StronglySorted (fun x y => cmp x y <= 0) (sort_insert cmp a l).
Proof.
  induction 1 as [|b l Hl IH Hb]; simpl.
  - repeat constructor.
  - destruct (Z.leb_spec (cmp a b) 0) as [Hab | Hab].
    + constructor; [constructor; assumption |].
      constructor; [assumption |].
      eapply Forall_impl; [exact Hb |]. intros c Hc. simpl in Hc. eauto.
    + constructor; [assumption |].
      rewrite sort_insert_perm. constructor; [auto | assumption].
Qed.

Lemma js_sort_sorted (l : list A) :
  StronglySorted (fun x y => cmp x y <= 0) (js_sort cmp l).
Proof.
  induction l as [|a l IH]; simpl; [constructor |].
  apply sort_insert_sorted, IH.
Qed.

End SortOrder.

Lemma StronglySorted_weaken {A} (R S : A -> A -> Prop) (l : list A) :
  (forall a b, R a b -> S a b) -> StronglySorted R l -> StronglySorted S l.
Proof.
  intros HRS. induction 1 as [|a l Hl IH Ha]; constructor; [assumption |].
  eapply Forall_impl; [exact Ha | auto].
Qed.

(** Stability: an element keeps its place among the elements that compare
    equal to it. [P] selects one class of equal keys. *)
Lemma sort_insert_stable {A} (cmp : A -> A -> Z) (P : A -> bool) (a : A) (l : list A) :
  (forall b, P a = true -> P b = true -> cmp a b <= 0) ->
  List.filter P (sort_insert cmp a l) = List.filter P (a :: l).
Proof.
  intros Hclass. induction l as [|b l IH]; [reflexivity |].
  simpl. destruct (Z.leb_spec (cmp a b) 0) as [Hab | Hab]; [reflexivity |].
  simpl. simpl in IH. rewrite IH.
  destruct (P a) eqn:Ha, (P b) eqn:Hb; try reflexivity.
  specialize (Hclass b eq_refl Hb). lia.
Qed.

Lemma js_sort_stable {A} (cmp : A -> A -> Z) (P : A -> bool) (l : list A) :
  (forall a b, P a = true -> P b = true -> cmp a b <= 0) ->
  List.filter P (js_sort cmp l) = List.filter P l.
Proof.
  intros Hclass. induction l as [|a l IH]; [reflexivity |].
  simpl js_sort. rewrite sort_insert_stable by (intros; apply Hclass; assumption).
  simpl. rewrite IH. reflexivity.
Qed.

(** A sorted list is a fixed point of the sort. *)
Lemma js_sort_sorted_id {A} (cmp : A -> A -> Z) (l : list A) :
  StronglySorted (fun x y => cmp x y <= 0) l -> js_sort cmp l = l.
Proof.
  induction 1 as [|a l Hl IH Ha]; [reflexivity |].
  cbn [js_sort]. rewrite IH. destruct Ha as [|b l' Hab _]; [reflexivity |].
  cbn [sort_insert]. destruct (Z.leb_spec (cmp a b) 0); [reflexivity | lia].
Qed.

Lemma sortedWords_sorted (words : list WordPair) :
  StronglySorted (fun a b => by_length_desc a b <= 0) (sortedWords words).
Proof. apply js_sort_sorted; unfold by_length_desc; intros; lia. Qed.

Lemma sortedWords_idem (words : list WordPair) :
  sortedWords (sortedWords words) = sortedWords words.
Proof. apply js_sort_sorted_id, sortedWords_sorted. Qed.

(** C3 as stated fails: "AB" has the longer normalised form, but "---" has
    the longer raw form and is tried first: in the word search its empty
    normalised form is the first entry, and in the crossword it takes the
    centre, so that "AB" finds no letter to cross and is dropped. *)
Lemma sortedWords_not_by_normalized_length :
  let words := [wp "AB"; wp "---"] in
  sortedWords words = [wp "---"; wp "AB"] /\
  sorted_by_normalized_length upper_latin words = [wp "AB"; wp "---"] /\
  sortedWords words <> sorted_by_normalized_length upper_latin words /\
  (exists r, generateWordSearch upper_latin words 3 1 = Ok r /\
             WS.word <$> WS.placedWords r = [[]; units "AB"]) /\
  (exists l, generateCrossword upper_latin words 1 = Ok l /\
             CW.word <$> CW.placedWords l = [[]]).
Proof.
  split; [reflexivity |]. split; [reflexivity |]. split; [discriminate |].
  split; eexists; (split; [vm_compute; reflexivity | reflexivity]).
Qed.

(** ** shuffleArray *)

Lemma swap_elements_perm {T} (l : list T) (i j : nat) : swap_elements l i j ≡ₚ l.
Proof.
  unfold swap_elements.
  destruct (l !! i) as [a|] eqn:Hi; [| reflexivity].
  destruct (l !! j) as [b|] eqn:Hj; [| reflexivity].
  apply Permutation_insert_swap; assumption.
Qed.

Lemma swap_elements_length {T} (l : list T) (i j : nat) :
  length (swap_elements l i j) = length l.
Proof. apply Permutation_length, swap_elements_perm. Qed.

Lemma fisher_yates_from_perm {T} (i : nat) (rng : Random) (l : list T) :
  fisher_yates_from i rng l ≡ₚ l.
Proof.
  revert rng l. induction i as [|i IH]; intros rng l; [reflexivity |].
  cbn [fisher_yates_from]. destruct (next rng) as [v rng'].
  rewrite IH. apply swap_elements_perm.
Qed.

(** One iteration on an array whose elements are all defined and whose
    drawn index is within bounds is the swap. *)
Lemma shuffle_step_swap {T} (l : list T) (p : Z -> option T) (i : nat) (j : Z) :
  (i < length l)%nat -> 0 <= j <= Z.of_nat i ->
  let newArr := JsArray (Some <$> l) p in
  arr_set (arr_set newArr (Z.of_nat i) (arr_get newArr j)) j
          (arr_get newArr (Z.of_nat i))
  = JsArray (Some <$> swap_elements l i (Z.to_nat j)) p.
Proof.
  intros Hi Hj newArr.
  destruct (lookup_lt_is_Some_2 l i Hi) as [a Ha].
  destruct (lookup_lt_is_Some_2 l (Z.to_nat j) ltac:(lia)) as [b Hb].
  assert (Hgetj : arr_get newArr j = Some b).
  { unfold arr_get, newArr, len; simpl. rewrite length_fmap.
    destruct (Z.leb_spec 0 j); [| lia].
    destruct (Z.ltb_spec j (Z.of_nat (length l))); [| lia].
    simpl. rewrite list_lookup_fmap, Hb. reflexivity. }
  assert (Hgeti : arr_get newArr (Z.of_nat i) = Some a).
  { unfold arr_get, newArr, len; simpl. rewrite length_fmap.
    destruct (Z.leb_spec 0 (Z.of_nat i)); [| lia].
    destruct (Z.ltb_spec (Z.of_nat i) (Z.of_nat (length l))); [| lia].
    simpl. rewrite Nat2Z.id, list_lookup_fmap, Ha. reflexivity. }
  rewrite Hgetj, Hgeti.
  unfold arr_set at 2, newArr, len; simpl. rewrite length_fmap.
  destruct (Z.ltb_spec (Z.of_nat i) 0); [lia |].
  destruct (Z.ltb_spec (Z.of_nat i) (Z.of_nat (length l))); [| lia].
  unfold arr_set, len; simpl. rewrite length_insert, length_fmap.
  destruct (Z.ltb_spec j 0); [lia |].
  destruct (Z.ltb_spec j (Z.of_nat (length l))); [| lia].
  unfold swap_elements. rewrite Ha, Hb, Nat2Z.id.
  rewrite !list_fmap_insert. reflexivity.
Qed.

Lemma shuffle_loop_fisher_yates {T} (i : nat) (rng : Random) (l : list T)
  (p : Z -> option T) :
  0 <= rng -> (i < length l)%nat ->
  shuffle_loop i rng (JsArray (Some <$> l) p)
  = JsArray (Some <$> fisher_yates_from i rng l) p.
Proof.
  revert rng l. induction i as [|i IH]; intros rng l Hrng Hi; [reflexivity |].
  cbn [shuffle_loop fisher_yates_from].
  pose proof (next_nonneg rng Hrng) as Hs. pose proof (next_value rng) as Hv.
  destruct (next rng) as [v rng']. simpl in Hs, Hv. subst v.
  pose proof (floor_mul_range rng' (Z.of_nat (S i) + 1) Hs ltac:(lia)) as Hj.
  cbv zeta. cbn [fst snd].
  rewrite shuffle_step_swap by (lia || assumption).
  apply IH; [lia |]. rewrite swap_elements_length. lia.
Qed.

(** C5, as amended: for a non-negative seed, [shuffleArray] returns the
    seeded Fisher-Yates arrangement of its argument, which is a
    permutation of it of the same length. *)
Theorem shuffleArray_permutation {T} (L : list T) (seed : Z) :
  0 <= seed ->
  shuffleArray L seed = Some <$> fisher_yates L seed /\
  fisher_yates L seed ≡ₚ L /\
  length (shuffleArray L seed) = length L.
Proof.
  intros Hseed.
  assert (Hfy : fisher_yates L seed ≡ₚ L) by apply fisher_yates_from_perm.
  assert (Heq : shuffleArray L seed = Some <$> fisher_yates L seed).
  { unfold shuffleArray, fisher_yates, new_Random.
    destruct L as [|a L]; [reflexivity |].
    rewrite shuffle_loop_fisher_yates; [reflexivity | assumption | simpl; lia]. }
  repeat split; [exact Heq | exact Hfy |].
  rewrite Heq, length_fmap. apply Permutation_length, Hfy.
Qed.

Lemma shuffleArray_permutation_witness :
  0 <= 7 /\
  shuffleArray [1; 2; 3; 4; 5] 7 = Some <$> fisher_yates [1; 2; 3; 4; 5] 7 /\
  fisher_yates [1; 2; 3; 4; 5] 7 ≡ₚ [1; 2; 3; 4; 5] /\
  length (shuffleArray [1; 2; 3; 4; 5] 7) = length [1; 2; 3; 4; 5].
Proof. split; [lia | apply (shuffleArray_permutation [1; 2; 3; 4; 5] 7); lia]. Defined.

(** C5 as stated fails for a negative seed: with the seed -6 the drawn
    index is -1, the element at index 1 is replaced by [undefined] and the
    value it held is stored under the key -1, outside the elements. *)
Lemma shuffleArray_negative_seed :
  shuffleArray [1; 2] (-6) = [Some 1; None] /\
  ~ shuffleArray [1; 2] (-6) ≡ₚ Some <$> [1; 2].
Proof.
  split; [reflexivity |].
  intros H.
  assert (Hin : Some 2 ∈ shuffleArray [1; 2] (-6)).
  { rewrite H. apply list_elem_of_fmap_2. set_solver. }
  change (shuffleArray [1; 2] (-6)) with [Some 1; None] in Hin.
  apply elem_of_cons in Hin as [Hin | Hin]; [discriminate Hin |].
  apply elem_of_cons in Hin as [Hin | Hin]; [discriminate Hin |].
  inversion Hin.
Qed.

(** ** Arrays and matrices *)

Lemma at_index_Some {A} (l : list A) (i : Z) (a : A) :
  at_index l i = Some a <-> 0 <= i /\ l !! Z.to_nat i = Some a.
Proof.
  unfold at_index. destruct (Z.ltb_spec i 0); split.
  - discriminate.
  - intros [? _]; lia.
  - auto.
  - intros [_ ?]; assumption.
Qed.

Lemma at_index_range {A} (l : list A) (i : Z) (a : A) :
  at_index l i = Some a -> 0 <= i < len l.
Proof.
  intros [H0 H]%at_index_Some. apply lookup_lt_Some in H. unfold len. lia.
Qed.

Lemma at_index_is_Some {A} (l : list A) (i : Z) :
  0 <= i < len l -> is_Some (at_index l i).
Proof.
  intros H. unfold at_index. destruct (Z.ltb_spec i 0); [lia |].
  apply lookup_lt_is_Some. unfold len in H. lia.
Qed.

Lemma at_index_nil {A} (i : Z) : at_index (@nil A) i = None.
Proof. unfold at_index. destruct (i <? 0); reflexivity. Qed.

Lemma at_index_app_l {A} (l l' : list A) (i : Z) (a : A) :
  at_index l i = Some a -> at_index (l ++ l') i = Some a.
Proof.
  rewrite !at_index_Some. intros [H0 H]. split; [assumption |].
  rewrite lookup_app_l; [assumption | eapply lookup_lt_Some, H].
Qed.

Lemma at_index_cons {A} (a : A) (l : list A) (i : Z) :
  at_index (a :: l) i = if decide (i = 0) then Some a else at_index l (i - 1).
Proof.
  unfold at_index. destruct (decide (i = 0)) as [-> | Hne]; [reflexivity |].
  destruct (Z.ltb_spec i 0), (Z.ltb_spec (i - 1) 0); try lia; try reflexivity.
  replace (Z.to_nat i) with (S (Z.to_nat (i - 1))) by lia. reflexivity.
Qed.

Lemma cell_at_Some {A} (grid : list (list A)) (x y : Z) (a : A) :
  cell_at grid x y = Some a <->
  exists row, at_index grid y = Some row /\ at_index row x = Some a.
Proof.
  unfold cell_at. destruct (at_index grid y) as [row|]; simpl.
  - split; [intros H; exists row; auto | intros (r & [= <-] & H); exact H].
  - split; [discriminate | intros (r & [=] & _)].
Qed.

(** The update both generators perform on a cell, read back. *)
Lemma cell_at_alter_insert {A} (grid : list (list A)) (x y x' y' : Z) (v : A) :
  0 <= x -> 0 <= y ->
  cell_at (alter (fun row => <[Z.to_nat x := v]> row) (Z.to_nat y) grid) x' y'
  = if decide (x = x' /\ y = y') then (fun _ => v) <$> cell_at grid x y
    else cell_at grid x' y'.
Proof.
  intros Hx Hy. unfold cell_at, at_index.
  destruct (Z.ltb_spec x 0); [lia |]. destruct (Z.ltb_spec y 0); [lia |].
  destruct (Z.ltb_spec y' 0) as [Hy' | Hy'].
  { destruct (decide _) as [[_ ->] |]; [lia | reflexivity]. }
  rewrite list_lookup_alter.
  destruct (decide (Z.to_nat y = Z.to_nat y')) as [Heq | Hne].
  - assert (y = y') as <- by lia.
    destruct (grid !! Z.to_nat y) as [row|]; simpl;
      [| destruct (decide _); reflexivity].
    destruct (Z.ltb_spec x' 0) as [Hx' | Hx'].
    { destruct (decide _) as [[-> _] |]; [lia | reflexivity]. }
    rewrite list_lookup_insert.
    destruct (decide (x = x' /\ y = y)) as [[<- _] | Hn].
    + destruct (decide _) as [[_ Hlt] | Hn].
      * destruct (lookup_lt_is_Some_2 row _ Hlt) as [a ->]. reflexivity.
      * assert (Hge : (length row <= Z.to_nat x)%nat) by lia.
        apply lookup_ge_None in Hge. rewrite Hge. reflexivity.
    + destruct (decide _) as [[Hxx _] | _]; [lia | reflexivity].
  - destruct (decide _) as [[_ ->] |]; [lia | reflexivity].
Qed.

Lemma square_alter_insert {A} (n : Z) (grid : list (list A)) (i j : nat) (v : A) :
  square n grid -> square n (alter (fun row => <[i := v]> row) j grid).
Proof.
  intros [Hlen Hrows]. split; [rewrite length_alter; exact Hlen |].
  rewrite Forall_lookup in Hrows |- *. intros k row.
  rewrite list_lookup_alter. destruct (decide (j = k)) as [-> |]; [| apply Hrows].
  destruct (grid !! k) as [r|] eqn:Hr; [| discriminate].
  intros [= <-]. rewrite length_insert. eapply Hrows, Hr.
Qed.

Lemma cell_at_square {A} (n : Z) (grid : list (list A)) (x y : Z) :
  square n grid -> (is_Some (cell_at grid x y) <-> 0 <= x < n /\ 0 <= y < n).
Proof.
  intros [Hlen Hrows]. rewrite Forall_lookup in Hrows. split.
  - intros [a (row & Hrow & Ha)%cell_at_Some].
    pose proof (at_index_range _ _ _ Hrow) as Hy.
    pose proof (at_index_range _ _ _ Ha) as Hx.
    apply at_index_Some in Hrow as [_ Hrow]. apply Hrows in Hrow.
    unfold len in *. lia.
  - intros [Hx Hy].
    destruct (at_index_is_Some grid y) as [row Hrow]; [unfold len; lia |].
    pose proof Hrow as [_ Hr]%at_index_Some. apply Hrows in Hr.
    destruct (at_index_is_Some row x) as [a Ha]; [unfold len; lia |].
    exists a. apply cell_at_Some. eauto.
Qed.

Lemma square_replicate {A} (n : Z) (a : A) :
  square n (replicate (Z.to_nat n) (replicate (Z.to_nat n) a)).
Proof.
  split; [apply length_replicate |].
  apply Forall_lookup. intros i row [-> _]%lookup_replicate.
  apply length_replicate.
Qed.

Lemma cell_at_replicate {A} (n m : nat) (a b : A) (x y : Z) :
  cell_at (replicate n (replicate m a)) x y = Some b -> b = a.
Proof.
  intros (row & [_ Hrow]%at_index_Some & [_ Hb]%at_index_Some)%cell_at_Some.
  apply lookup_replicate in Hrow as [-> _].
  apply lookup_replicate in Hb as [-> _]. reflexivity.
Qed.

(** ** Word search *)

Lemma grid_read_cell (grid : list (list wscell)) (x y : Z) (v : wscell) :
  cell_at grid x y = Some v -> grid_read grid x y = Ok v.
Proof.
  intros (row & Hrow & Hv)%cell_at_Some. unfold grid_read.
  rewrite Hrow, Hv. reflexivity.
Qed.

Lemma grid_read_defined (grid : list (list wscell)) (x y : Z) (v : wscell) :
  grid_read grid x y = Ok v -> v <> Undefined -> cell_at grid x y = Some v.
Proof.
  unfold grid_read, cell_at.
  destruct (at_index grid y) as [row|]; [| discriminate]. simpl.
  destruct (at_index row x) as [a|]; simpl; intros [= <-] Hv; congruence.
Qed.

Lemma cell_at_grid_write (grid : list (list wscell)) (x y x' y' : Z) (v : wscell) :
  cell_at (grid_write grid x y v) x' y'
  = if decide (x = x' /\ y = y') then (fun _ => v) <$> cell_at grid x y
    else cell_at grid x' y'.
Proof.
  unfold grid_write.
  destruct (Z.leb_spec 0 x) as [Hx | Hx], (Z.leb_spec 0 y) as [Hy | Hy]; simpl;
    try (apply cell_at_alter_insert; assumption);
    destruct (decide _) as [[<- <-] |]; try reflexivity;
    unfold cell_at, at_index.
  - destruct (Z.ltb_spec y 0); [reflexivity | lia].
  - destruct (Z.ltb_spec y 0); [reflexivity |].
    destruct (grid !! Z.to_nat y); simpl; [| reflexivity].
    destruct (Z.ltb_spec x 0); [reflexivity | lia].
  - destruct (Z.ltb_spec y 0); [reflexivity | lia].
Qed.

Lemma grid_write_is_Some (grid : list (list wscell)) (x y x' y' : Z) (v : wscell) :
  is_Some (cell_at grid x' y') -> is_Some (cell_at (grid_write grid x y v) x' y').
Proof.
  intros H. rewrite cell_at_grid_write.
  destruct (decide _) as [[-> ->] |]; [| exact H].
  destruct H as [a ->]. eexists; reflexivity.
Qed.

Lemma square_grid_write (n : Z) (grid : list (list wscell)) (x y : Z) (v : wscell) :
  square n grid -> square n (grid_write grid x y v).
Proof.
  intros H. unfold grid_write.
  destruct (_ && _); [apply square_alter_insert, H | exact H].
Qed.

Section WordSearchLoops.
Context (grid : list (list wscell)) (startX startY : Z) (dir : DirectionVector).

Lemma fits_loop_true (i : Z) (rest : jsstring) :
  fits_loop grid startX startY dir i rest = Ok true ->
  forall k c, at_index rest k = Some c ->
    let x := startX + (i + k) * dx dir in
    let y := startY + (i + k) * dy dir in
    cell_at grid x y = Some Blank \/ cell_at grid x y = Some (Letter c).
Proof.
  revert i. induction rest as [|c0 rest IH]; intros i Hfits k c Hk.
  { rewrite at_index_nil in Hk. discriminate Hk. }
  cbn [fits_loop] in Hfits.
  destruct (grid_read grid (startX + i * dx dir) (startY + i * dy dir))
    as [v | |] eqn:Hread; try discriminate Hfits.
  cbn in Hfits.
  destruct (bool_decide (v <> Blank)) eqn:Hb, (bool_decide (v <> Letter c0)) eqn:Hl;
    try discriminate Hfits; cbn in Hfits;
    rewrite at_index_cons in Hk;
    (destruct (decide (k = 0)) as [-> | Hne];
      [ injection Hk as <-; cbn zeta; rewrite Z.add_0_r
      | specialize (IH (i + 1) Hfits (k - 1) c Hk); cbn zeta in IH |- *;
        replace (i + 1 + (k - 1)) with (i + k) in IH by lia; exact IH ]).
  - apply bool_decide_eq_false in Hl. apply dec_stable in Hl. subst v.
    right. apply grid_read_defined; [assumption | discriminate].
  - apply bool_decide_eq_false in Hb. apply dec_stable in Hb. subst v.
    left. apply grid_read_defined; [assumption | discriminate].
  - apply bool_decide_eq_false in Hb. apply dec_stable in Hb. subst v.
    left. apply grid_read_defined; [assumption | discriminate].
Qed.


Lemma write_loop_other (g : list (list wscell)) (i : Z) (rest : jsstring) (x y : Z) :
  (forall k, 0 <= k < len rest ->
     ~ (x = startX + (i + k) * dx dir /\ y = startY + (i + k) * dy dir)) ->
  cell_at (write_loop g startX startY dir i rest) x y = cell_at g x y.
Proof.
  revert g i. induction rest as [|c0 rest IH]; intros g i Hoff; [reflexivity |].
  cbn [write_loop]. rewrite IH.
  - rewrite cell_at_grid_write. destruct (decide _) as [[<- <-] |]; [| reflexivity].
    exfalso. apply (Hoff 0); [unfold len; cbn [length]; lia |].
    rewrite Z.add_0_r. auto.
  - intros k Hk. replace (i + 1 + k) with (i + (k + 1)) by lia.
    apply Hoff. unfold len in *. cbn [length]. lia.
Qed.

Lemma write_loop_is_Some (g : list (list wscell)) (i : Z) (rest : jsstring) (x y : Z) :
  is_Some (cell_at g x y) ->
  is_Some (cell_at (write_loop g startX startY dir i rest) x y).
Proof.
  revert g i. induction rest as [|c0 rest IH]; intros g i H; [exact H |].
  cbn [write_loop]. apply IH, grid_write_is_Some, H.
Qed.

Lemma write_loop_square (size : Z) (g : list (list wscell)) (i : Z) (rest : jsstring) :
  square size g -> square size (write_loop g startX startY dir i rest).
Proof.
  revert g i. induction rest as [|c0 rest IH]; intros g i H; [exact H |].
  cbn [write_loop]. apply IH, square_grid_write, H.
Qed.

(** The letter written at index [k] is still there when the loop ends: a
    non-zero direction never returns to a cell. *)
Lemma write_loop_on (g : list (list wscell)) (i : Z) (rest : jsstring) (k : Z)
  (c : code_unit) :
  dx dir <> 0 \/ dy dir <> 0 ->
  at_index rest k = Some c ->
  is_Some (cell_at g (startX + (i + k) * dx dir) (startY + (i + k) * dy dir)) ->
  cell_at (write_loop g startX startY dir i rest)
          (startX + (i + k) * dx dir) (startY + (i + k) * dy dir)
  = Some (Letter c).
Proof.
  intros Hdir. revert g i k.
  induction rest as [|c0 rest IH]; intros g i k Hk Hin;
    [rewrite at_index_nil in Hk; discriminate Hk |].
  cbn [write_loop]. rewrite at_index_cons in Hk.
  destruct (decide (k = 0)) as [-> | Hne].
  - injection Hk as <-. rewrite Z.add_0_r in *. rewrite write_loop_other.
    + rewrite cell_at_grid_write, decide_True by auto.
      destruct Hin as [a ->]. reflexivity.
    + intros k Hk [Hx Hy]. nia.
  - replace (i + k) with (i + 1 + (k - 1)) in * by lia.
    apply IH; [exact Hk |]. apply grid_write_is_Some, Hin.
Qed.

(** A cell after the loop is unchanged or holds the letter of an index
    that lies on it. *)
Lemma write_loop_cell (g : list (list wscell)) (i : Z) (rest : jsstring) (x y : Z) :
  (forall k c, at_index rest k = Some c ->
     is_Some (cell_at g (startX + (i + k) * dx dir) (startY + (i + k) * dy dir))) ->
  (exists k c, at_index rest k = Some c /\
     x = startX + (i + k) * dx dir /\ y = startY + (i + k) * dy dir /\
     cell_at (write_loop g startX startY dir i rest) x y = Some (Letter c)) \/
  cell_at (write_loop g startX startY dir i rest) x y = cell_at g x y.
Proof.
  revert g i. induction rest as [|c0 rest IH]; intros g i Hin; [right; reflexivity |].
  cbn [write_loop].
  set (g1 := grid_write g (startX + i * dx dir) (startY + i * dy dir) (Letter c0)).
  destruct (IH g1 (i + 1)) as [(k & c & Hk & Hx & Hy & Hc) | Hsame].
  - intros k c Hk. specialize (Hin (k + 1) c).
    rewrite at_index_cons, decide_False in Hin by (apply at_index_range in Hk; lia).
    replace (k + 1 - 1) with k in Hin by lia.
    replace (i + 1 + k) with (i + (k + 1)) by lia.
    apply grid_write_is_Some, Hin, Hk.
  - left. exists (k + 1), c. rewrite at_index_cons, decide_False
      by (apply at_index_range in Hk; lia).
    replace (k + 1 - 1) with k by lia.
    replace (i + (k + 1)) with (i + 1 + k) by lia. auto.
  - rewrite Hsame. unfold g1. rewrite cell_at_grid_write.
    destruct (decide _) as [[<- <-] |]; [| right; reflexivity].
    left. exists 0, c0. rewrite at_index_cons, decide_True by reflexivity.
    rewrite Z.add_0_r. repeat split.
    specialize (Hin 0 c0). rewrite at_index_cons, decide_True in Hin by reflexivity.
    rewrite Z.add_0_r in Hin. destruct (Hin eq_refl) as [a ->]. reflexivity.
Qed.

End WordSearchLoops.

Lemma directions_spec (dir : DirectionVector) (i : Z) :
  at_index directions i = Some dir ->
  (dx dir <> 0 \/ dy dir <> 0) /\ -1 <= dx dir <= 1 /\ -1 <= dy dir <= 1.
Proof.
  intros [_ H]%at_index_Some.
  destruct (Z.to_nat i) as [|[|[|[|[|[|[|[|n]]]]]]]]; cbn in H;
    try discriminate H; injection H as <-; cbn; lia.
Qed.

Lemma at_index_elem_of {A} (l : list A) (i : Z) (a : A) :
  at_index l i = Some a -> a ∈ l.
Proof. intros [_ H]%at_index_Some. eapply list_elem_of_lookup_2, H. Qed.

Lemma attempt_loop_S_inv (fuel : nat) (size : Z) (term : jsstring) (rng : Random)
  (g : list (list wscell)) (placed : list WS.entry) (st' : ws_state) :
  attempt_loop (S fuel) size term (rng, g, placed) = Ok st' ->
  exists dir i sx sy rng',
    at_index directions i = Some dir /\
    ((fits_loop g sx sy dir 0 term = Ok true /\
      st' = (rng', write_loop g sx sy dir 0 term,
             placed ++ [ {| WS.word := term; WS.x := sx; WS.y := sy;
                            WS.dx := dx dir; WS.dy := dy dir |} ])) \/
     attempt_loop fuel size term (rng', g, placed) = Ok st').
Proof.
  cbn [attempt_loop].
  destruct (next rng) as [v1 r1]. destruct (next r1) as [v2 r2].
  destruct (next r2) as [v3 r3].
  destruct (at_index directions _) as [dir|] eqn:Hdir; [| discriminate].
  intros H. exists dir, (floor_mul v1 (len directions)), (floor_mul v2 size),
    (floor_mul v3 size), r3. split; [exact Hdir |].
  destruct (_ && _); [| right; exact H].
  destruct (fits_loop g _ _ dir 0 term) as [[|] | |] eqn:Hfits; cbn in H;
    try discriminate H.
  - left. split; [reflexivity |]. injection H as <-. reflexivity.
  - right. exact H.
Qed.

Lemma place_keeps_inv (size : Z) (g : list (list wscell)) (placed : list WS.entry)
  (term : jsstring) (sx sy i : Z) (dir : DirectionVector) (rng rng' : Random) :
  ws_inv size (rng, g, placed) ->
  Forall (fun c => in_class c = true) term ->
  at_index directions i = Some dir ->
  fits_loop g sx sy dir 0 term = Ok true ->
  ws_inv size (rng', write_loop g sx sy dir 0 term,
               placed ++ [ {| WS.word := term; WS.x := sx; WS.y := sy;
                              WS.dx := dx dir; WS.dy := dy dir |} ]).
Proof.
  intros (Hsq & Hplaced & Hletters) Hterm Hdir Hfits. cbn in Hsq, Hplaced, Hletters.
  pose proof (fits_loop_true g sx sy dir 0 term Hfits) as Hpath. cbn zeta in Hpath.
  assert (Hin : forall k c, at_index term k = Some c ->
            is_Some (cell_at g (sx + (0 + k) * dx dir) (sy + (0 + k) * dy dir))).
  { intros k c Hk. destruct (Hpath k c Hk) as [-> | ->]; eexists; reflexivity. }
  apply directions_spec in Hdir as (Hnz & _).
  split; [| split]; cbn.
  - apply write_loop_square, Hsq.
  - apply Forall_app. split.
    + eapply Forall_impl; [exact Hplaced |]. intros e He k c Hk.
      specialize (He k c Hk).
      destruct (write_loop_cell sx sy dir g 0 term
                  (WS.x e + k * WS.dx e) (WS.y e + k * WS.dy e) Hin)
        as [(k' & c' & Hk' & Hx & Hy & Hc') | Hsame].
      * destruct (Hpath k' c' Hk') as [Hb | Hl];
          rewrite <- Hx, <- Hy in *; congruence.
      * rewrite Hsame. exact He.
    + constructor; [| constructor]. intros k c Hk. cbn in Hk |- *.
      pose proof (write_loop_on sx sy dir g 0 term k c Hnz Hk (Hin k c Hk)) as H.
      rewrite Z.add_0_l in H. exact H.
  - intros x y v Hv.
    destruct (write_loop_cell sx sy dir g 0 term x y Hin)
      as [(k' & c' & Hk' & Hx & Hy & Hc') | Hsame].
    + right. exists c'. split; [congruence |].
      rewrite Forall_forall in Hterm. apply Hterm.
      eapply at_index_elem_of, Hk'.
    + rewrite Hsame in Hv. eapply Hletters, Hv.
Qed.

Lemma attempt_loop_inv (fuel : nat) (size : Z) (term : jsstring) (st st' : ws_state) :
  Forall (fun c => in_class c = true) term ->
  ws_inv size st -> attempt_loop fuel size term st = Ok st' -> ws_inv size st'.
Proof.
  intros Hterm. revert st. induction fuel as [|fuel IH]; intros st Hinv H.
  { injection H as <-. exact Hinv. }
  destruct st as [[rng g] placed].
  apply attempt_loop_S_inv in H
    as (dir & i & sx & sy & rng' & Hdir & [[Hfits ->] | Hrec]).
  - eapply place_keeps_inv; eassumption.
  - eapply IH; [| exact Hrec]. exact Hinv.
Qed.

(** An entry recorded by the attempt loop carries the term it was given. *)
Lemma attempt_loop_words (fuel : nat) (size : Z) (term : jsstring) (st st' : ws_state) :
  attempt_loop fuel size term st = Ok st' ->
  forall e, e ∈ st'.2 -> e ∈ st.2 \/ WS.word e = term.
Proof.
  revert st. induction fuel as [|fuel IH]; intros st H e He.
  { injection H as <-. left. exact He. }
  destruct st as [[rng g] placed].
  apply attempt_loop_S_inv in H
    as (dir & i & sx & sy & rng' & Hdir & [[Hfits ->] | Hrec]).
  - cbn in He |- *. apply elem_of_app in He as [He | He]; [left; exact He |].
    apply list_elem_of_singleton in He as ->. right. reflexivity.
  - apply (IH _ Hrec e He).
Qed.

Lemma floor_mul_next_range (rng : Random) (n : Z) :
  0 <= rng -> 0 < n -> 0 <= floor_mul (fst (next rng)) n < n.
Proof.
  intros Hrng Hn. rewrite next_value. apply floor_mul_range; [| exact Hn].
  apply next_nonneg, Hrng.
Qed.



Lemma alphabet_in_class : Forall (fun c => in_class c = true) alphabet.
Proof. repeat constructor. Qed.

Lemma filled_from_refl (g : list (list wscell)) : filled_from g g.
Proof. intros x y v Hv. exists v. auto. Qed.

Lemma filled_from_trans (g1 g2 g3 : list (list wscell)) :
  filled_from g1 g2 -> filled_from g2 g3 -> filled_from g1 g3.
Proof.
  intros H12 H23 x y v Hv.
  destruct (H12 x y v Hv) as (v2 & Hv2 & Hkeep2).
  destruct (H23 x y v2 Hv2) as (v3 & Hv3 & Hkeep3).
  exists v3. split; [exact Hv3 |]. intros Hne.
  rewrite <- (Hkeep2 Hne). apply Hkeep3. rewrite (Hkeep2 Hne). exact Hne.
Qed.

Lemma fill_cell_spec (rng rng' : Random) (g g' : list (list wscell)) (x y : Z) :
  fill_cell (rng, g) (x, y) = Ok (rng', g') ->
  filled_from g g' /\
  (forall n, square n g -> square n g') /\
  (is_Some (cell_at g x y) -> exists v, cell_at g' x y = Some v /\ v <> Blank) /\
  (0 <= rng -> 0 <= rng' /\ (ws_letters g -> ws_letters g')).
Proof.
  unfold fill_cell.
  destruct (grid_read g x y) as [c | |] eqn:Hread; try discriminate. cbn.
  destruct (bool_decide (c = Blank)) eqn:Hc.
  - apply bool_decide_eq_true in Hc. subst c.
    apply grid_read_defined in Hread; [| discriminate].
    pose proof (next_nonneg rng) as Hnn.
    pose proof (floor_mul_next_range rng (len alphabet)) as Hidx.
    destruct (next rng) as [v r]. cbn [fst snd] in Hnn, Hidx.
    set (letter := match at_index alphabet (floor_mul v (len alphabet)) with
                   | Some a => Letter a
                   | None => Undefined
                   end).
    assert (Hletter : letter <> Blank).
    { unfold letter. destruct (at_index alphabet _); discriminate. }
    intros [= <- <-]. split; [| split; [| split]].
    + intros x' y' v0 Hv0. rewrite cell_at_grid_write.
      destruct (decide _) as [[<- <-] |].
      * rewrite Hread. exists letter. split; [reflexivity |]. congruence.
      * exists v0. auto.
    + intros n. apply square_grid_write.
    + intros _. exists letter. rewrite cell_at_grid_write, decide_True, Hread by auto.
      auto.
    + intros Hrng. split; [apply Hnn, Hrng |].
      intros Hl x' y' v0. rewrite cell_at_grid_write.
      destruct (decide _) as [[<- <-] |]; [| apply Hl].
      rewrite Hread. intros [= <-]. right.
      destruct (at_index_is_Some alphabet _ (Hidx Hrng ltac:(reflexivity))) as [a Ha].
      unfold letter. rewrite Ha. exists a. split; [reflexivity |].
      pose proof alphabet_in_class as Hall. rewrite Forall_forall in Hall.
      eapply Hall, at_index_elem_of, Ha.
  - apply bool_decide_eq_false in Hc. intros [= <- <-].
    split; [apply filled_from_refl |]. split; [auto |]. split; [| auto].
    intros [v Hv]. exists v. split; [exact Hv |].
    apply grid_read_cell in Hv. congruence.
Qed.

Lemma fill_loop_spec (ps : list (Z * Z)) (rng rng' : Random)
  (g g' : list (list wscell)) :
  fill_loop ps (rng, g) = Ok (rng', g') ->
  filled_from g g' /\
  (forall n, square n g -> square n g') /\
  (forall p, p ∈ ps -> is_Some (cell_at g p.1 p.2) ->
     exists v, cell_at g' p.1 p.2 = Some v /\ v <> Blank) /\
  (0 <= rng -> ws_letters g -> ws_letters g').
Proof.
  revert rng g. induction ps as [|[x y] ps IH]; intros rng g H.
  { injection H as <- <-. split; [apply filled_from_refl |].
    split; [auto |]. split; [| auto]. intros p Hp. inversion Hp. }
  cbn [fill_loop] in H.
  destruct (fill_cell (rng, g) (x, y)) as [[r1 g1] | |] eqn:Hcell;
    try discriminate H. cbn in H.
  apply fill_cell_spec in Hcell as (Hfrom1 & Hsq1 & Hhere & Hrng1).
  apply IH in H as (Hfrom & Hsq & Hps & Hrng).
  split; [eapply filled_from_trans; eassumption |].
  split; [auto |]. split.
  - intros [x' y'] Hp Hin. cbn [fst snd] in *.
    apply elem_of_cons in Hp as [[= -> ->] | Hp].
    + destruct (Hhere Hin) as (v & Hv & Hne).
      destruct (Hfrom x y v Hv) as (v' & Hv' & Hkeep).
      exists v'. split; [exact Hv' |]. rewrite (Hkeep Hne). exact Hne.
    + apply (Hps (x', y') Hp). cbn.
      destruct Hin as [v Hv]. destruct (Hfrom1 x' y' v Hv) as (v1 & Hv1 & _).
      eexists; exact Hv1.
  - intros Hr Hl. destruct (Hrng1 Hr) as [Hr1 Hl1]. auto.
Qed.


Section WordSearch.
Variable toUpperCase : jsstring -> jsstring.

Lemma cleanWord_in_class (w : jsstring) :
  Forall (fun c => in_class c = true) (cleanWord toUpperCase w).
Proof.
  apply Forall_forall. intros c Hc. apply list_elem_of_In in Hc.
  apply filter_In in Hc as [_ Hc]. exact Hc.
Qed.

Lemma place_words_cons (size : Z) (item : WordPair) (items : list WordPair)
  (st : ws_state) :
  place_words toUpperCase size (item :: items) st
  = attempt_loop 100 size (cleanWord toUpperCase (word item)) st
      ≫= place_words toUpperCase size items.
Proof. reflexivity. Qed.

Lemma place_words_inv (size : Z) (items : list WordPair) (st st' : ws_state) :
  ws_inv size st -> place_words toUpperCase size items st = Ok st' ->
  ws_inv size st' /\
  (forall e, e ∈ st'.2 ->
     e ∈ st.2 \/ exists w, w ∈ items /\ WS.word e = cleanWord toUpperCase (word w)).
Proof.
  revert st. induction items as [|item items IH]; intros st Hinv H.
  { injection H as <-. auto. }
  rewrite place_words_cons in H.
  destruct (attempt_loop 100 size _ st) as [st1 | |] eqn:Hone; try discriminate H.
  change (place_words toUpperCase size items st1 = Ok st') in H.
  pose proof (attempt_loop_inv _ _ _ _ _ (cleanWord_in_class _) Hinv Hone) as Hinv1.
  destruct (IH st1 Hinv1 H) as [Hinv' Hwords]. split; [exact Hinv' |].
  intros e He. destruct (Hwords e He) as [He1 | (w & Hw & Hword)].
  - destruct (attempt_loop_words _ _ _ _ _ Hone e He1) as [He0 | Hword];
      [left; exact He0 |].
    right. exists item. split; [left | exact Hword].
  - right. exists w. split; [right; exact Hw | exact Hword].
Qed.


Lemma ws_inv_initial (size : Z) (rng : Random) :
  ws_inv size (rng, replicate (Z.to_nat size) (replicate (Z.to_nat size) Blank), []).
Proof.
  split; [apply square_replicate |]. split; [constructor |].
  intros x y v Hv. left. eapply cell_at_replicate, Hv.
Qed.

(** The shape of a successful run. *)
Lemma generateWordSearch_Ok (words : list WordPair) (size seed : Z) (r : WS.result) :
  generateWordSearch toUpperCase words size seed = Ok r ->
  exists rng g rng',
    place_words toUpperCase size (sortedWords words)
      (new_Random seed, replicate (Z.to_nat size) (replicate (Z.to_nat size) Blank), [])
    = Ok (rng, g, WS.placedWords r) /\
    fill_loop (row_major size size) (rng, g) = Ok (rng', WS.grid r).
Proof.
  unfold generateWordSearch. destruct (_ || _); [discriminate |].
  destruct (place_words _ _ _ _) as [[[rng g] placed] | |] eqn:Hplace;
    try discriminate. cbn [mbind outcome_bind].
  destruct (fill_loop _ _) as [[rng' g'] | |] eqn:Hfill;
    try discriminate. cbn [mbind outcome_bind].
  intros [= <-]. exists rng, g, rng'. split; [reflexivity | exact Hfill].
Qed.

(** C6: every entry that [generateWordSearch] returns is the normalised
    form of an input word, its path stays inside the grid, and the
    returned grid holds its letters along that path. *)
Theorem generateWordSearch_legal (words : list WordPair) (size seed : Z)
  (r : WS.result) :
  generateWordSearch toUpperCase words size seed = Ok r ->
  forall e, e ∈ WS.placedWords r ->
    (exists w, w ∈ words /\ WS.word e = cleanWord toUpperCase (word w)) /\
    forall k c, at_index (WS.word e) k = Some c ->
      0 <= WS.x e + k * WS.dx e < size /\
      0 <= WS.y e + k * WS.dy e < size /\
      grid_read (WS.grid r) (WS.x e + k * WS.dx e) (WS.y e + k * WS.dy e)
      = Ok (Letter c).
Proof.
  intros (rng & g & rng' & Hplace & Hfill)%generateWordSearch_Ok e He.
  destruct (place_words_inv _ _ _ _ (ws_inv_initial size _) Hplace)
    as [(Hsq & Hentries & _) Hwords]. cbn in Hsq, Hentries, Hwords.
  apply fill_loop_spec in Hfill as (Hfrom & Hsq' & _).
  split.
  - destruct (Hwords e He) as [Hnil | (w & Hw & Hword)]; [inversion Hnil |].
    exists w. split; [| exact Hword].
    pose proof (js_sort_perm by_length_desc words) as Hperm.
    fold (sortedWords words) in Hperm. rewrite <- Hperm. exact Hw.
  - intros k c Hk. rewrite Forall_forall in Hentries.
    specialize (Hentries e He k c Hk).
    destruct (Hfrom _ _ _ Hentries) as (v' & Hv' & Hkeep).
    rewrite (Hkeep ltac:(discriminate)) in Hv'.
    pose proof (proj1 (cell_at_square size _ _ _ (Hsq' _ Hsq)) (mk_is_Some _ _ Hv')).
    split; [lia |]. split; [lia |]. apply grid_read_cell, Hv'.
Qed.


End WordSearch.

(** ** Crossword: the canvas *)

Lemma char_at_Some (grid : Canvas) (x y : Z) (c : code_unit) :
  char_at grid x y = Some c <->
  exists cell, cell_at grid x y = Some cell /\ GridCell.char cell = Some c.
Proof.
  unfold char_at. destruct (cell_at grid x y) as [cell|]; cbn.
  - split; [eauto | intros (? & [= <-] & H); exact H].
  - split; [discriminate | intros (? & [=] & _)].
Qed.

Lemma char_at_in_grid (grid : Canvas) (x y : Z) :
  square gridSize grid -> is_Some (char_at grid x y) ->
  0 <= x < gridSize /\ 0 <= y < gridSize.
Proof.
  intros Hsq [c (cell & Hcell & _)%char_at_Some].
  apply (cell_at_square gridSize grid x y Hsq). eexists; exact Hcell.
Qed.

Lemma set_char_spec (grid grid' : Canvas) (x y : Z) (c : code_unit) :
  set_char grid x y c = Ok grid' ->
  (forall x' y', char_at grid' x' y'
                 = if decide (x = x' /\ y = y') then Some c else char_at grid x' y') /\
  (forall n, square n grid -> square n grid').
Proof.
  unfold set_char. destruct (cell_at grid x y) as [cell|] eqn:Hcell; [| discriminate].
  intros [= <-].
  pose proof Hcell as (row & [Hy _]%at_index_Some & [Hx _]%at_index_Some)%cell_at_Some.
  split.
  - intros x' y'. unfold char_at. rewrite cell_at_alter_insert by assumption.
    destruct (decide _); [| reflexivity]. rewrite Hcell. reflexivity.
  - intros n. apply square_alter_insert.
Qed.

Lemma set_char_returns (grid : Canvas) (x y : Z) (c : code_unit) :
  0 <= x < gridSize -> 0 <= y < gridSize -> square gridSize grid ->
  exists grid', set_char grid x y c = Ok grid'.
Proof.
  intros Hx Hy Hsq. unfold set_char.
  destruct (proj2 (cell_at_square gridSize grid x y Hsq) (conj Hx Hy)) as [cell ->].
  eexists; reflexivity.
Qed.

Lemma blank_canvas_square : square gridSize blank_canvas.
Proof.
  split; [reflexivity |].
  apply Forall_forall. intros row (y & -> & _)%list_elem_of_fmap.
  rewrite length_fmap. reflexivity.
Qed.

Lemma blank_canvas_char (x y : Z) : char_at blank_canvas x y = None.
Proof.
  destruct (char_at blank_canvas x y) as [c|] eqn:H; [| reflexivity].
  apply char_at_Some in H as (cell & Hcell & Hc).
  apply cell_at_Some in Hcell as (row & [_ Hrow]%at_index_Some & [_ Hx]%at_index_Some).
  apply list_elem_of_lookup_2 in Hrow, Hx.
  apply list_elem_of_fmap in Hrow as (y0 & -> & _).
  apply list_elem_of_fmap in Hx as (x0 & -> & _).
  discriminate Hc.
Qed.

Lemma cx_cy_step (d : Direction) (x y k j : Z) :
  (cx_of d x k = cx_of d x j /\ cy_of d y k = cy_of d y j) -> k = j.
Proof.
  unfold cx_of, cy_of. intros [Hx Hy].
  destruct d; repeat case_decide; (congruence || lia).
Qed.

Section WriteTerm.
Context (direction : Direction) (startX startY : Z).

Lemma write_term_spec (grid grid' : Canvas) (k : Z) (rest : jsstring) :
  write_term grid direction startX startY k rest = Ok grid' ->
  (forall n, square n grid -> square n grid') /\
  (forall j c, at_index rest j = Some c ->
     char_at grid' (cx_of direction startX (k + j)) (cy_of direction startY (k + j))
     = Some c) /\
  (forall x y,
     char_at grid' x y = char_at grid x y \/
     exists j c, at_index rest j = Some c /\
       x = cx_of direction startX (k + j) /\ y = cy_of direction startY (k + j) /\
       char_at grid' x y = Some c).
Proof.
  revert grid k. induction rest as [|c0 rest IH]; intros grid k H.
  { injection H as <-. split; [auto |]. split; [| auto].
    intros j c Hj. rewrite at_index_nil in Hj. discriminate Hj. }
  cbn [write_term] in H.
  destruct (set_char grid _ _ c0) as [g1 | |] eqn:Hset; try discriminate H.
  cbn [mbind outcome_bind] in H.
  apply set_char_spec in Hset as [Hchar Hsq1].
  apply IH in H as (Hsq & Hon & Hcell).
  split; [auto |]. split.
  - intros j c Hj. rewrite at_index_cons in Hj.
    destruct (decide (j = 0)) as [-> | Hne].
    + injection Hj as <-. rewrite Z.add_0_r.
      destruct (Hcell (cx_of direction startX k) (cy_of direction startY k))
        as [-> | (j & c & Hj & Hx & Hy & _)].
      * rewrite Hchar, decide_True by auto. reflexivity.
      * apply at_index_range in Hj.
        pose proof (cx_cy_step direction startX startY _ _ (conj Hx Hy)). lia.
    + replace (k + j) with (k + 1 + (j - 1)) by lia. apply Hon, Hj.
  - intros x y. destruct (Hcell x y) as [-> | (j & c & Hj & Hx & Hy & Hc)].
    + rewrite Hchar. destruct (decide _) as [[<- <-] |]; [| left; reflexivity].
      right. exists 0, c0. rewrite at_index_cons, decide_True by reflexivity.
      rewrite Z.add_0_r. auto.
    + right. exists (j + 1), c.
      rewrite at_index_cons, decide_False by (apply at_index_range in Hj; lia).
      replace (j + 1 - 1) with j by lia.
      replace (k + (j + 1)) with (k + 1 + j) by lia. auto.
Qed.

Lemma write_term_returns (grid : Canvas) (k : Z) (rest : jsstring) :
  square gridSize grid ->
  (forall j, 0 <= j < len rest ->
     0 <= cx_of direction startX (k + j) < gridSize /\
     0 <= cy_of direction startY (k + j) < gridSize) ->
  exists grid', write_term grid direction startX startY k rest = Ok grid'.
Proof.
  revert grid k. induction rest as [|c0 rest IH]; intros grid k Hsq Hin.
  { eexists; reflexivity. }
  cbn [write_term].
  destruct (set_char_returns grid (cx_of direction startX k) (cy_of direction startY k) c0)
    as [g1 Hset]; try exact Hsq.
  1, 2: specialize (Hin 0); rewrite Z.add_0_r in Hin; apply Hin;
        unfold len; cbn [length]; lia.
  rewrite Hset. cbn [mbind outcome_bind]. apply IH.
  - apply set_char_spec in Hset as [_ Hsq1]. auto.
  - intros j Hj. replace (k + 1 + j) with (k + (j + 1)) by lia.
    apply Hin. unfold len in *. cbn [length]. lia.
Qed.

End WriteTerm.

Lemma cw_fits_true (grid : Canvas) (direction : Direction) (startX startY n k : Z)
  (rest : jsstring) :
  cw_fits grid direction startX startY n k rest = true ->
  forall j c, at_index rest j = Some c ->
    let cx := cx_of direction startX (k + j) in
    let cy := cy_of direction startY (k + j) in
    (0 <= cx < gridSize /\ 0 <= cy < gridSize) /\
    (char_at grid cx cy = None \/ char_at grid cx cy = Some c).
Proof.
  revert k. induction rest as [|c0 rest IH]; intros k H j c Hj.
  { rewrite at_index_nil in Hj. discriminate Hj. }
  cbn [cw_fits] in H. cbv zeta in H.
  destruct (_ || _) eqn:Hbounds in H; [discriminate H |].
  destruct (bool_decide (char_at grid _ _ <> None) && _) eqn:Hclash in H;
    [discriminate H |].
  destruct (bool_decide (char_at grid _ _ = None) && _) in H; [discriminate H |].
  destruct ((k =? 0) && _) in H; [discriminate H |].
  destruct ((k =? n - 1) && _) in H; [discriminate H |].
  rewrite at_index_cons in Hj. destruct (decide (j = 0)) as [-> | Hne].
  - injection Hj as <-. cbv zeta. rewrite Z.add_0_r. split.
    + apply orb_false_elim in Hbounds as [Hbounds Hb4].
      apply orb_false_elim in Hbounds as [Hbounds Hb3].
      apply orb_false_elim in Hbounds as [Hb1 Hb2].
      apply Z.ltb_ge in Hb1, Hb3. apply Z.leb_gt in Hb2, Hb4. lia.
    + apply andb_false_iff in Hclash as [Hc | Hc]; apply bool_decide_eq_false in Hc;
        apply dec_stable in Hc; auto.
  - specialize (IH (k + 1) H (j - 1) c Hj). cbv zeta in IH |- *.
    replace (k + 1 + (j - 1)) with (k + j) in IH by lia. exact IH.
Qed.

(** ** Crossword: the search for a placement *)

Lemma indices_of_spec (term : jsstring) (cellChar : code_unit) (k : Z) :
  k ∈ indices_of term cellChar -> at_index term k = Some cellChar.
Proof.
  intros H. apply list_elem_of_In, filter_In in H as [_ H].
  apply bool_decide_eq_true in H. exact H.
Qed.

Lemma try_indices_found (grid : Canvas) (term : jsstring) (x y : Z)
  (possibleIndices : list Z) (rng rng' : Random) (d : Direction) (sx sy : Z) :
  try_indices grid term x y possibleIndices rng = (rng', Some (d, sx, sy)) ->
  cw_fits grid d sx sy (len term) 0 term = true /\
  exists charIdx, charIdx ∈ possibleIndices /\
                  cx_of d sx charIdx = x /\ cy_of d sy charIdx = y.
Proof.
  revert rng. induction possibleIndices as [|charIdx rest IH]; intros rng H.
  { discriminate H. }
  cbn [try_indices] in H.
  destruct (choose_direction grid x y rng) as [[d0|] r].
  - cbv zeta in H.
    destruct (cw_fits grid d0 _ _ (len term) 0 term) eqn:Hfits.
    + injection H as <- <- <- <-. split; [exact Hfits |].
      exists charIdx. split; [left |].
      unfold cx_of, cy_of. destruct d0; repeat case_decide; (congruence || lia).
    + destruct (IH _ H) as (Hf & k & Hk & Hxy). split; [exact Hf |].
      exists k. split; [right; exact Hk | exact Hxy].
  - destruct (IH _ H) as (Hf & k & Hk & Hxy). split; [exact Hf |].
    exists k. split; [right; exact Hk | exact Hxy].
Qed.

Lemma try_cells_found (grid : Canvas) (term : jsstring) (scanOrder : list (Z * Z))
  (rng rng' : Random) (d : Direction) (sx sy : Z) :
  try_cells grid term scanOrder rng = (rng', Some (d, sx, sy)) ->
  cw_fits grid d sx sy (len term) 0 term = true /\
  exists x y charIdx, is_Some (char_at grid x y) /\ 0 <= charIdx < len term /\
                      cx_of d sx charIdx = x /\ cy_of d sy charIdx = y.
Proof.
  revert rng. induction scanOrder as [|[x y] rest IH]; intros rng H.
  { discriminate H. }
  cbn [try_cells] in H.
  destruct (char_at grid x y) as [cellChar|] eqn:Hchar; [| apply (IH _ H)].
  destruct (bool_decide (cellChar ∈ term)); [| apply (IH _ H)].
  destruct (try_indices grid term x y (indices_of term cellChar) rng)
    as [r [f|]] eqn:Htry; [| apply (IH _ H)].
  injection H as <- ->.
  apply try_indices_found in Htry as (Hfits & charIdx & Hidx & Hx & Hy).
  split; [exact Hfits |]. exists x, y, charIdx.
  split; [rewrite Hchar; eexists; reflexivity |].
  split; [eapply at_index_range, indices_of_spec, Hidx | auto].
Qed.

Lemma chained_snoc (placed : list CW.entry) (e : CW.entry) :
  chained placed -> (exists e', e' ∈ placed /\ overlap e e') ->
  chained (placed ++ [e]).
Proof.
  intros Hch (e' & He' & Hov) i e0 Hi Hpos.
  apply lookup_snoc_Some in Hi as [[Hlt Hi] | [-> <-]].
  - destruct (Hch i e0 Hi Hpos) as (j & e1 & Hj & He1 & Hov1).
    exists j, e1. split; [exact Hj |]. split; [| exact Hov1].
    apply lookup_app_l_Some, He1.
  - apply list_elem_of_lookup in He' as [j Hj].
    exists j, e'. split; [eapply lookup_lt_Some, Hj |].
    split; [apply lookup_app_l_Some, Hj | exact Hov].
Qed.

Section Crossword.
Variable toUpperCase : jsstring -> jsstring.

Lemma place_next_inv (currentPair : WordPair) (rng rng' : Random)
  (grid grid' : Canvas) (placed placed' : list CW.entry) :
  place_next toUpperCase currentPair (rng, grid, placed) = Ok (rng', grid', placed') ->
  cw_inv grid placed -> cw_inv grid' placed'.
Proof.
  unfold place_next. set (term := cleanWord toUpperCase (word currentPair)).
  destruct (try_cells grid term _ rng) as [r [[[d sx] sy]|]] eqn:Htry;
    [| intros [= <- <- <-]; auto].
  destruct (write_term grid d sx sy 0 term) as [g1 | |] eqn:Hwrite; try discriminate.
  cbn [mbind outcome_bind]. intros [= <- <- <-] (Hsq & Hon & Hcov & Hch).
  apply try_cells_found in Htry as (Hfits & x & y & k & Hanchor & Hk & Hx & Hy).
  pose proof (cw_fits_true _ _ _ _ _ _ _ Hfits) as Hpath. cbv zeta in Hpath.
  apply write_term_spec in Hwrite as (Hsq1 & Hnew & Hcell).
  set (e := new_entry term (definition currentPair) sx sy d).
  split; [auto |]. split; [| split].
  - apply Forall_app. split.
    + eapply Forall_impl; [exact Hon |]. intros e0 He0 j c Hj.
      specialize (He0 j c Hj).
      destruct (Hcell (cw_cell e0 j).1 (cw_cell e0 j).2)
        as [-> | (j' & c' & Hj' & Hx' & Hy' & Hc')]; [exact He0 |].
      destruct (Hpath j' c' Hj') as [_ [Hnone | Hsame]];
        rewrite <- Hx', <- Hy' in *; congruence.
    + constructor; [| constructor]. intros j c Hj. apply (Hnew j c Hj).
  - intros x0 y0 Hsome.
    destruct (Hcell x0 y0) as [Heq | (j' & c' & Hj' & Hx' & Hy' & Hc')].
    + rewrite Heq in Hsome. destruct (Hcov x0 y0 Hsome) as (e0 & j & He0 & Hj & Hc0).
      exists e0, j. split; [apply elem_of_app; left; exact He0 | auto].
    + exists e, j'. split; [apply elem_of_app; right; left |].
      split; [eapply at_index_range, Hj' |].
      unfold cw_cell. cbn. rewrite Z.add_0_l in Hx', Hy'. congruence.
  - apply chained_snoc; [exact Hch |].
    destruct (Hcov x y Hanchor) as (e' & k' & He' & Hk' & Hcell').
    exists e'. split; [exact He' |]. exists k, k'.
    split; [exact Hk |]. split; [exact Hk' |].
    rewrite Hcell'. unfold cw_cell. cbn. congruence.
Qed.

Lemma place_rest_inv (pairs : list WordPair) (rng rng' : Random)
  (grid grid' : Canvas) (placed placed' : list CW.entry) :
  place_rest toUpperCase pairs (rng, grid, placed) = Ok (rng', grid', placed') ->
  cw_inv grid placed -> cw_inv grid' placed'.
Proof.
  revert rng grid placed.
  induction pairs as [|pair pairs IH]; intros rng grid placed H Hinv.
  { injection H as <- <- <-. exact Hinv. }
  cbn [place_rest] in H.
  destruct (place_next toUpperCase pair (rng, grid, placed))
    as [[[r1 g1] p1] | |] eqn:Hnext; try discriminate H.
  cbn [mbind outcome_bind] in H.
  eapply IH; [exact H |]. eapply place_next_inv; eassumption.
Qed.

Lemma place_first_inv (first : WordPair) (grid : Canvas) (placed : list CW.entry) :
  place_first toUpperCase first blank_canvas = Ok (grid, placed) ->
  cw_inv grid placed.
Proof.
  unfold place_first. set (term := cleanWord toUpperCase (word first)).
  destruct (write_term blank_canvas across _ center 0 term) as [g1 | |] eqn:Hwrite;
    try discriminate.
  cbn [mbind outcome_bind]. intros [= <- <-].
  apply write_term_spec in Hwrite as (Hsq1 & Hnew & Hcell).
  split; [apply Hsq1, blank_canvas_square |]. split; [| split].
  - constructor; [| constructor]. intros j c Hj. apply (Hnew j c Hj).
  - intros x y Hsome.
    destruct (Hcell x y) as [Heq | (j' & c' & Hj' & Hx' & Hy' & Hc')].
    + rewrite Heq, blank_canvas_char in Hsome. destruct Hsome as [? [=]].
    + eexists _, j'. split; [left |].
      split; [eapply at_index_range, Hj' |].
      unfold cw_cell. cbn. rewrite Z.add_0_l in Hx', Hy'. congruence.
  - intros i e Hi Hpos. destruct i; [lia | discriminate Hi].
Qed.

(** An entry carries the normalised form and the definition of an input
    pair. *)
Lemma place_next_words (currentPair : WordPair) (st st' : cw_state) :
  place_next toUpperCase currentPair st = Ok st' ->
  forall e, e ∈ st'.2 ->
    e ∈ st.2 \/ (CW.word e = cleanWord toUpperCase (word currentPair) /\
                 CW.clue e = definition currentPair).
Proof.
  destruct st as [[rng grid] placed]. unfold place_next.
  destruct (try_cells grid _ _ rng) as [r [[[d sx] sy]|]];
    [| intros [= <-]; auto].
  destruct (write_term grid d sx sy 0 _) as [g1 | |]; try discriminate.
  cbn [mbind outcome_bind]. intros [= <-] e [He | He]%elem_of_app; [left; exact He |].
  apply list_elem_of_singleton in He as ->. right. split; reflexivity.
Qed.

Lemma place_rest_words (pairs : list WordPair) (st st' : cw_state) :
  place_rest toUpperCase pairs st = Ok st' ->
  forall e, e ∈ st'.2 ->
    e ∈ st.2 \/ exists w, w ∈ pairs /\
                  CW.word e = cleanWord toUpperCase (word w) /\
                  CW.clue e = definition w.
Proof.
  revert st. induction pairs as [|pair pairs IH]; intros st H e He.
  { injection H as <-. left. exact He. }
  cbn [place_rest] in H.
  destruct (place_next toUpperCase pair st) as [st1 | |] eqn:Hnext; try discriminate H.
  cbn [mbind outcome_bind] in H.
  destruct (IH st1 H e He) as [He1 | (w & Hw & Hword)].
  - destruct (place_next_words _ _ _ Hnext e He1) as [He0 | Hword];
      [left; exact He0 | right; exists pair; split; [left | exact Hword]].
  - right. exists w. split; [right; exact Hw | exact Hword].
Qed.

Lemma place_first_words (first : WordPair) (grid : Canvas) (placed : list CW.entry) :
  place_first toUpperCase first blank_canvas = Ok (grid, placed) ->
  exists e, placed = [e] /\ CW.word e = cleanWord toUpperCase (word first) /\
            CW.clue e = definition first.
Proof.
  unfold place_first.
  destruct (write_term blank_canvas across _ center 0 _) as [g1 | |]; try discriminate.
  cbn [mbind outcome_bind]. intros [= <- <-]. eexists. repeat split.
Qed.

(** The placement loop only appends. *)
Lemma place_rest_prefix (pairs : list WordPair) (st st' : cw_state) :
  place_rest toUpperCase pairs st = Ok st' -> exists more, st'.2 = st.2 ++ more.
Proof.
  revert st. induction pairs as [|pair pairs IH]; intros st H.
  { injection H as <-. exists []. rewrite app_nil_r. reflexivity. }
  cbn [place_rest] in H.
  destruct (place_next toUpperCase pair st) as [st1 | |] eqn:Hnext; try discriminate H.
  cbn [mbind outcome_bind] in H. destruct (IH st1 H) as [more ->].
  destruct st as [[rng grid] placed]. unfold place_next in Hnext.
  destruct (try_cells grid _ _ rng) as [r [[[d sx] sy]|]].
  - destruct (write_term grid d sx sy 0 _) as [g1 | |]; try discriminate Hnext.
    cbn [mbind outcome_bind] in Hnext. injection Hnext as <-. cbn.
    eexists. rewrite <- app_assoc. reflexivity.
  - injection Hnext as <-. eauto.
Qed.

(** After the first word the placement loop never throws. *)
Lemma place_next_returns (currentPair : WordPair) (st : cw_state) :
  square gridSize st.1.2 ->
  exists st', place_next toUpperCase currentPair st = Ok st' /\
              square gridSize st'.1.2.
Proof.
  destruct st as [[rng grid] placed]. cbn. intros Hsq. unfold place_next.
  destruct (try_cells grid _ _ rng) as [r [[[d sx] sy]|]] eqn:Htry;
    [| eexists; split; [reflexivity | exact Hsq]].
  apply try_cells_found in Htry as (Hfits & _).
  pose proof (cw_fits_true _ _ _ _ _ _ _ Hfits) as Hpath. cbv zeta in Hpath.
  destruct (write_term_returns d sx sy grid 0
              (cleanWord toUpperCase (word currentPair)) Hsq) as [g1 Hwrite].
  { intros j Hj.
    destruct (at_index_is_Some (cleanWord toUpperCase (word currentPair)) j Hj)
      as [c Hc].
    apply (Hpath j c Hc). }
  rewrite Hwrite. cbn [mbind outcome_bind]. eexists. split; [reflexivity |].
  cbn. apply write_term_spec in Hwrite as (Hsq1 & _). auto.
Qed.

Lemma place_rest_returns (pairs : list WordPair) (st : cw_state) :
  square gridSize st.1.2 -> exists st', place_rest toUpperCase pairs st = Ok st'.
Proof.
  revert st. induction pairs as [|pair pairs IH]; intros st Hsq.
  { eexists; reflexivity. }
  cbn [place_rest].
  destruct (place_next_returns pair st Hsq) as (st1 & -> & Hsq1).
  cbn [mbind outcome_bind]. apply IH, Hsq1.
Qed.

Lemma place_first_returns (first : WordPair) :
  len (cleanWord toUpperCase (word first)) <= gridSize ->
  exists grid placed, place_first toUpperCase first blank_canvas = Ok (grid, placed).
Proof.
  intros Hlen. unfold place_first.
  set (term := cleanWord toUpperCase (word first)) in *.
  destruct (write_term_returns across (center - len term / 2) center blank_canvas 0 term
              blank_canvas_square) as [g1 ->].
  - intros j Hj. unfold cx_of, cy_of, center, gridSize in *.
    rewrite decide_True by reflexivity. rewrite decide_False by discriminate.
    change (40 / 2) with 20. clearbody term.
    generalize dependent (len term). intros n Hn Hj.
    Z.div_mod_to_equations. lia.
  - cbn [mbind outcome_bind]. eauto.
Qed.

End Crossword.

(** ** Crossword: cropping *)

Lemma extend_box_fold (placed : list CW.entry) (box : Z * Z * Z * Z) :
  let box' := foldl extend_box box placed in
  (box'.1.1.1 <= box.1.1.1 /\ box.1.1.2 <= box'.1.1.2 /\
   box'.1.2 <= box.1.2 /\ box.2 <= box'.2) /\
  forall e, e ∈ placed ->
    box'.1.1.1 <= CW.x e /\
    (if decide (CW.direction e = across)
     then CW.x e + len (CW.word e) else CW.x e + 1) <= box'.1.1.2 /\
    box'.1.2 <= CW.y e /\
    (if decide (CW.direction e = down)
     then CW.y e + len (CW.word e) else CW.y e + 1) <= box'.2.
Proof.
  revert box. induction placed as [|w placed IH]; intros box; cbn [foldl].
  { cbv zeta. split; [lia |]. intros e He. inversion He. }
  specialize (IH (extend_box box w)). cbv zeta in IH |- *.
  destruct IH as [Hmono Hall].
  assert (Hstep : (extend_box box w).1.1.1 <= box.1.1.1 /\
                  box.1.1.2 <= (extend_box box w).1.1.2 /\
                  (extend_box box w).1.2 <= box.1.2 /\
                  box.2 <= (extend_box box w).2 /\
                  (extend_box box w).1.1.1 <= CW.x w /\
                  (if decide (CW.direction w = across)
                   then CW.x w + len (CW.word w) else CW.x w + 1)
                  <= (extend_box box w).1.1.2 /\
                  (extend_box box w).1.2 <= CW.y w /\
                  (if decide (CW.direction w = down)
                   then CW.y w + len (CW.word w) else CW.y w + 1)
                  <= (extend_box box w).2).
  { destruct box as [[[a b] c] d]. unfold extend_box. cbn [fst snd]. lia. }
  split; [lia |]. intros e [-> | He]%elem_of_cons; [lia | apply Hall, He].
Qed.

Lemma cell_at_crop (grid cropped : Canvas) (minX minY width height X Y : Z) :
  crop grid minX minY width height = Ok cropped ->
  0 <= X < width -> 0 <= Y < height ->
  cell_at cropped X Y = Some (cropped_cell grid minX minY X Y).
Proof.
  unfold crop. destruct (height <? 0); [discriminate |].
  destruct (_ && _); [discriminate |]. intros [= <-] HX HY.
  apply cell_at_Some. eexists. split.
  - apply at_index_Some. split; [lia |]. rewrite list_lookup_fmap.
    rewrite (proj2 (lookup_seqZ 0 height (Z.to_nat Y) Y)) by lia. reflexivity.
  - apply at_index_Some. split; [lia |]. rewrite list_lookup_fmap.
    rewrite (proj2 (lookup_seqZ 0 width (Z.to_nat X) X)) by lia. reflexivity.
Qed.

(** ** Crossword: numbering *)

Lemma starts_spec (ws : list CW.entry) (s0 : list (Z * Z)) :
  NoDup s0 ->
  let starts := foldl (fun s w => set_add s (start_key w)) s0 ws in
  NoDup starts /\
  forall p, p ∈ starts <-> p ∈ s0 \/ exists w, w ∈ ws /\ start_key w = p.
Proof.
  revert s0. induction ws as [|w ws IH]; intros s0 Hnd; cbn [foldl].
  { cbv zeta. split; [exact Hnd |]. intros p. split; [auto |].
    intros [H | (w & Hw & _)]; [exact H | inversion Hw]. }
  assert (Hnd1 : NoDup (set_add s0 (start_key w))).
  { unfold set_add. case_bool_decide; [exact Hnd |].
    apply NoDup_app. split; [exact Hnd |]. split; [| apply NoDup_singleton].
    intros p Hp ->%list_elem_of_singleton. contradiction. }
  destruct (IH _ Hnd1) as [Hnd' Hmem]. cbv zeta. split; [exact Hnd' |].
  intros p. rewrite Hmem. unfold set_add. split.
  - intros [Hp | (w' & Hw' & Hk)].
    + case_bool_decide; [left; exact Hp |].
      apply elem_of_app in Hp as [Hp | ->%list_elem_of_singleton];
        [left; exact Hp | right; exists w; split; [left | reflexivity]].
    + right. exists w'. split; [right; exact Hw' | exact Hk].
  - intros [Hp | (w' & [-> | Hw']%elem_of_cons & Hk)].
    + left. case_bool_decide; [exact Hp | apply elem_of_app; left; exact Hp].
    + left. subst p. case_bool_decide; [assumption |].
      apply elem_of_app. right. left.
    + right. exists w'. auto.
Qed.

Lemma by_row_then_column_le (a b : Z * Z) :
  by_row_then_column a b <= 0 <-> row_major_lt a b \/ a = b.
Proof.
  unfold by_row_then_column, row_major_lt. destruct a as [ax ay], b as [bx by'].
  cbn [fst snd]. case_bool_decide as Hrow; split; intros Hle.
  - left. lia.
  - destruct Hle as [Hle | [= -> ->]]; lia.
  - destruct (decide (ax = bx)) as [-> |]; [right; f_equal; lia | left; lia].
  - destruct Hle as [Hle | [= -> ->]]; lia.
Qed.

Lemma sorted_starts_spec (ws : list CW.entry) :
  StronglySorted row_major_lt (sorted_starts ws) /\
  NoDup (sorted_starts ws) /\
  forall p, p ∈ sorted_starts ws <-> exists w, w ∈ ws /\ start_key w = p.
Proof.
  unfold sorted_starts.
  destruct (starts_spec ws [] (NoDup_nil_2)) as [Hnd Hmem]. cbv zeta in Hnd, Hmem.
  set (starts := foldl _ [] ws) in *.
  pose proof (js_sort_perm by_row_then_column starts) as Hperm.
  assert (Hnd' : NoDup (js_sort by_row_then_column starts)) by (rewrite Hperm; exact Hnd).
  split; [| split; [exact Hnd' |]].
  - assert (Hsorted : StronglySorted (fun a b => by_row_then_column a b <= 0)
                        (js_sort by_row_then_column starts)).
    { apply js_sort_sorted.
      - intros a b. unfold by_row_then_column. repeat case_bool_decide; lia.
      - intros a b c. unfold by_row_then_column. repeat case_bool_decide; lia. }
    revert Hnd' Hsorted. generalize (js_sort by_row_then_column starts).
    induction 2 as [|a l Hl IH Ha]; [constructor |].
    apply NoDup_cons in Hnd' as [Hnotin Hnd'].
    constructor; [apply IH, Hnd' |].
    rewrite Forall_forall in Ha |- *. intros b Hb.
    destruct (proj1 (by_row_then_column_le a b) (Ha b Hb)) as [Hlt | ->];
      [exact Hlt | contradiction].
  - intros p. rewrite Hperm, Hmem. split.
    + intros [Hp | H]; [inversion Hp | exact H].
    + auto.
Qed.

Lemma number_from_other (l : list (Z * Z)) (idx : Z) (m : gmap (Z * Z) Z) (p : Z * Z) :
  p ∉ l -> number_from idx l m !! p = m !! p.
Proof.
  revert idx m. induction l as [|q l IH]; intros idx m Hp; [reflexivity |].
  cbn [number_from]. apply not_elem_of_cons in Hp as [Hne Hp].
  rewrite IH by exact Hp. apply lookup_insert_ne. congruence.
Qed.

Lemma number_from_lookup (l : list (Z * Z)) (idx : Z) (m : gmap (Z * Z) Z)
  (i : nat) (p : Z * Z) :
  NoDup l -> l !! i = Some p ->
  number_from idx l m !! p = Some (idx + Z.of_nat i + 1).
Proof.
  revert idx m i. induction l as [|q l IH]; intros idx m i Hnd Hi; [discriminate Hi |].
  apply NoDup_cons in Hnd as [Hq Hnd]. cbn [number_from].
  destruct i as [|i].
  - injection Hi as ->. rewrite number_from_other by exact Hq.
    rewrite lookup_insert_eq. f_equal. lia.
  - cbn in Hi. rewrite (IH _ _ i Hnd Hi). f_equal. lia.
Qed.

Lemma StronglySorted_lookup {A} (R : A -> A -> Prop) (l : list A) (i j : nat) (a b : A) :
  StronglySorted R l -> l !! i = Some a -> l !! j = Some b -> (i < j)%nat -> R a b.
Proof.
  intros H. revert i j. induction H as [|c l Hl IH Hc]; intros i j Hi Hj Hlt.
  { discriminate Hi. }
  destruct j as [|j]; [lia |]. cbn in Hj. destruct i as [|i].
  - injection Hi as <-. rewrite Forall_forall in Hc.
    eapply Hc, list_elem_of_lookup_2, Hj.
  - cbn in Hi. apply (IH i j Hi Hj). lia.
Qed.

Lemma row_major_lt_irrefl (a : Z * Z) : ~ row_major_lt a a.
Proof. unfold row_major_lt. lia. Qed.

Lemma row_major_lt_asym (a b : Z * Z) : row_major_lt a b -> ~ row_major_lt b a.
Proof. unfold row_major_lt. lia. Qed.

(** ** Crossword: the layout *)

Lemma cw_cell_shift (m : gmap (Z * Z) Z) (minX minY : Z) (e : CW.entry) (k : Z) :
  cw_cell (with_number m (shift_entry minX minY e)) k
  = ((cw_cell e k).1 - minX, (cw_cell e k).2 - minY).
Proof.
  unfold cw_cell, cx_of, cy_of. cbn.
  destruct (CW.direction e); repeat case_decide; try congruence; f_equal; lia.
Qed.

Lemma overlap_shift (m : gmap (Z * Z) Z) (minX minY : Z) (e e' : CW.entry) :
  overlap e e' ->
  overlap (with_number m (shift_entry minX minY e))
          (with_number m (shift_entry minX minY e')).
Proof.
  intros (k & k' & Hk & Hk' & Hcell). exists k, k'.
  split; [exact Hk |]. split; [exact Hk' |].
  rewrite !cw_cell_shift, Hcell. reflexivity.
Qed.

Lemma chained_fmap (f : CW.entry -> CW.entry) (placed : list CW.entry) :
  (forall e e', overlap e e' -> overlap (f e) (f e')) ->
  chained placed -> chained (f <$> placed).
Proof.
  intros Hf Hch i e Hi Hpos. rewrite list_lookup_fmap in Hi.
  destruct (placed !! i) as [e0|] eqn:Hi0; [| discriminate Hi].
  injection Hi as <-.
  destruct (Hch i e0 Hi0 Hpos) as (j & e1 & Hj & He1 & Hov).
  exists j, (f e1). split; [exact Hj |].
  split; [rewrite list_lookup_fmap, He1; reflexivity | apply Hf, Hov].
Qed.

Lemma cx_cy_bounds (d : Direction) (x y k : Z) :
  0 <= k ->
  x <= cx_of d x k /\ y <= cy_of d y k /\
  cx_of d x k <= (if decide (d = across) then x + k else x) /\
  cy_of d y k <= (if decide (d = down) then y + k else y).
Proof.
  intros Hk. unfold cx_of, cy_of. destruct d; repeat case_decide; try congruence; lia.
Qed.

Section CrosswordLayout.
Variable toUpperCase : jsstring -> jsstring.

Lemma generateCrossword_nil (seed : Z) :
  generateCrossword toUpperCase [] seed = RangeError.
Proof. reflexivity. Qed.

Lemma sortedWords_cons (w : WordPair) (ws : list WordPair) :
  exists first rest, sortedWords (w :: ws) = first :: rest.
Proof.
  destruct (sortedWords (w :: ws)) as [|first rest] eqn:H; [| eauto].
  pose proof (js_sort_perm by_length_desc (w :: ws)) as Hperm.
  unfold sortedWords in H. rewrite H in Hperm.
  apply Permutation_nil_l in Hperm. discriminate Hperm.
Qed.

(** The shape of a successful run. *)
Lemma generateCrossword_Ok (words : list WordPair) (seed : Z) (l : CW.layout) :
  generateCrossword toUpperCase words seed = Ok l ->
  exists first rest g0 p0 rng grid placed minX maxX minY maxY,
    sortedWords words = first :: rest /\
    place_first toUpperCase first blank_canvas = Ok (g0, p0) /\
    place_rest toUpperCase rest (new_Random seed, g0, p0) = Ok (rng, grid, placed) /\
    bounding_box placed = (minX, maxX, minY, maxY) /\
    crop grid (Z.max 0 (minX - 1)) (Z.max 0 (minY - 1))
         (maxX - Z.max 0 (minX - 1) + 2) (maxY - Z.max 0 (minY - 1) + 2)
    = Ok (CW.grid l) /\
    CW.placedWords l
    = assign_numbers (shift_entry (Z.max 0 (minX - 1)) (Z.max 0 (minY - 1)) <$> placed) /\
    CW.width l = maxX - Z.max 0 (minX - 1) + 2 /\
    CW.height l = maxY - Z.max 0 (minY - 1) + 2.
Proof.
  destruct words as [|w ws].
  { rewrite generateCrossword_nil. discriminate. }
  destruct (sortedWords_cons w ws) as (first & rest & Hsorted).
  unfold generateCrossword. rewrite Hsorted. cbn [tail].
  destruct (place_first toUpperCase first blank_canvas) as [[g0 p0] | |] eqn:Hfirst;
    try discriminate. cbn [mbind outcome_bind].
  destruct (place_rest toUpperCase rest _) as [[[rng grid] placed] | |] eqn:Hrest;
    try discriminate. cbn [mbind outcome_bind].
  destruct (bounding_box placed) as [[[minX maxX] minY] maxY] eqn:Hbox.
  destruct (crop grid _ _ _ _) as [cropped | |] eqn:Hcrop; try discriminate.
  cbn [mbind outcome_bind]. intros [= <-].
  exists first, rest, g0, p0, rng, grid, placed, minX, maxX, minY, maxY.
  cbn. repeat split; (reflexivity || assumption).
Qed.

Lemma generateCrossword_inv (words : list WordPair) (seed : Z) (l : CW.layout) :
  generateCrossword toUpperCase words seed = Ok l ->
  exists grid placed minX maxX minY maxY,
    cw_inv grid placed /\
    bounding_box placed = (minX, maxX, minY, maxY) /\
    crop grid (Z.max 0 (minX - 1)) (Z.max 0 (minY - 1))
         (maxX - Z.max 0 (minX - 1) + 2) (maxY - Z.max 0 (minY - 1) + 2)
    = Ok (CW.grid l) /\
    CW.placedWords l
    = assign_numbers (shift_entry (Z.max 0 (minX - 1)) (Z.max 0 (minY - 1)) <$> placed).
Proof.
  intros (first & rest & g0 & p0 & rng & grid & placed & minX & maxX & minY & maxY &
          _ & Hfirst & Hrest & Hbox & Hcrop & Hwords & _)%generateCrossword_Ok.
  exists grid, placed, minX, maxX, minY, maxY.
  split; [| auto].
  eapply place_rest_inv; [exact Hrest |]. eapply place_first_inv, Hfirst.
Qed.

(** [generateCrossword] returns a layout for every non-empty word list
    whose first word in sorted order has at most 40 normalised letters. *)
Lemma generateCrossword_returns (words : list WordPair) (seed : Z) :
  words <> [] ->
  (forall first rest, sortedWords words = first :: rest ->
     len (cleanWord toUpperCase (word first)) <= gridSize) ->
  exists l, generateCrossword toUpperCase words seed = Ok l.
Proof.
  intros Hne Hlen. destruct words as [|w ws]; [congruence |].
  destruct (sortedWords_cons w ws) as (first & rest & Hsorted).
  unfold generateCrossword. rewrite Hsorted. cbn [tail].
  destruct (place_first_returns toUpperCase first (Hlen _ _ Hsorted))
    as (g0 & p0 & Hfirst).
  rewrite Hfirst. cbn [mbind outcome_bind].
  pose proof (place_first_inv _ _ _ _ Hfirst) as (Hsq0 & _).
  destruct (place_rest_returns toUpperCase rest (new_Random seed, g0, p0) Hsq0)
    as [[[rng grid] placed] Hrest].
  rewrite Hrest. cbn [mbind outcome_bind].
  destruct (place_first_words _ _ _ _ Hfirst) as (e0 & -> & _).
  destruct (place_rest_prefix _ _ _ _ Hrest) as [more Hmore]. cbn in Hmore.
  pose proof (extend_box_fold placed (gridSize, 0, gridSize, 0)) as [Hmono Hall].
  cbv zeta in Hmono, Hall. fold (bounding_box placed) in Hmono, Hall.
  specialize (Hall e0 ltac:(rewrite Hmore; left)).
  destruct (bounding_box placed) as [[[minX maxX] minY] maxY].
  cbn [fst snd] in Hmono, Hall.
  assert (0 <= len (CW.word e0)) by (unfold len; lia).
  unfold crop.
  destruct (Z.ltb_spec (maxY - Z.max 0 (minY - 1) + 2) 0) as [Hneg |];
    [repeat case_decide; lia |].
  destruct (Z.ltb_spec (maxX - Z.max 0 (minX - 1) + 2) 0) as [Hneg |];
    [repeat case_decide; lia |].
  rewrite andb_false_r. cbn [mbind outcome_bind]. eexists; reflexivity.
Qed.

Lemma generateCrossword_words (words : list WordPair) (seed : Z) (l : CW.layout)
  (e : CW.entry) :
  generateCrossword toUpperCase words seed = Ok l -> e ∈ CW.placedWords l ->
  exists w, w ∈ words /\ CW.word e = cleanWord toUpperCase (word w) /\
            CW.clue e = definition w.
Proof.
  intros (first & rest & g0 & p0 & rng & grid & placed & minX & maxX & minY & maxY &
          Hsorted & Hfirst & Hrest & _ & _ & Hwords & _)%generateCrossword_Ok He.
  rewrite Hwords in He. unfold assign_numbers in He.
  apply list_elem_of_fmap in He as (e1 & -> & (e0 & -> & He0)%list_elem_of_fmap).
  cbn [with_number shift_entry CW.word CW.clue].
  assert (Hin : exists w, w ∈ first :: rest /\
                  CW.word e0 = cleanWord toUpperCase (word w) /\
                  CW.clue e0 = definition w).
  { destruct (place_rest_words _ _ _ _ Hrest e0 He0) as [Hp0 | (w & Hw & Hword)].
    - destruct (place_first_words _ _ _ _ Hfirst) as (e & -> & Hword).
      cbn in Hp0. apply list_elem_of_singleton in Hp0 as ->.
      exists first. split; [left | exact Hword].
    - exists w. split; [right; exact Hw | exact Hword]. }
  destruct Hin as (w & Hw & Hword). exists w. split; [| exact Hword].
  rewrite <- Hsorted in Hw. unfold sortedWords in Hw.
  rewrite js_sort_perm in Hw. exact Hw.
Qed.

Lemma final_entry (placed : list CW.entry) (minX minY : Z) (e : CW.entry) :
  e ∈ assign_numbers (shift_entry minX minY <$> placed) ->
  exists e0, e0 ∈ placed /\
    e = with_number (number_from 0 (sorted_starts (shift_entry minX minY <$> placed)) ∅)
                    (shift_entry minX minY e0).
Proof.
  unfold assign_numbers. intros (e1 & -> & (e0 & -> & He0)%list_elem_of_fmap)%list_elem_of_fmap.
  exists e0. auto.
Qed.

(** C8: in a layout returned by [generateCrossword], the cropped grid
    holds the letters of every entry along its path; two entries agree on
    every cell they share; and the clue numbers are the positions, counted
    from 1, of the start cells in the list of distinct start cells sorted
    by row and then column. *)
Theorem generateCrossword_legal (words : list WordPair) (seed : Z) (l : CW.layout) :
  generateCrossword toUpperCase words seed = Ok l ->
  (forall e, e ∈ CW.placedWords l ->
     (exists w, w ∈ words /\ CW.word e = cleanWord toUpperCase (word w) /\
                CW.clue e = definition w) /\
     forall k c, at_index (CW.word e) k = Some c ->
       char_at (CW.grid l) (cw_cell e k).1 (cw_cell e k).2 = Some c) /\
  (forall e1 e2 k1 k2 c1 c2,
     e1 ∈ CW.placedWords l -> e2 ∈ CW.placedWords l ->
     at_index (CW.word e1) k1 = Some c1 -> at_index (CW.word e2) k2 = Some c2 ->
     cw_cell e1 k1 = cw_cell e2 k2 -> c1 = c2) /\
  (exists sortedStarts,
     StronglySorted row_major_lt sortedStarts /\
     (forall p, p ∈ sortedStarts <->
                exists e, e ∈ CW.placedWords l /\ start_key e = p) /\
     forall e, e ∈ CW.placedWords l ->
       exists i, sortedStarts !! i = Some (start_key e) /\
                 CW.number e = Some (Z.of_nat i + 1)) /\
  (forall e1 e2 n1 n2,
     e1 ∈ CW.placedWords l -> e2 ∈ CW.placedWords l ->
     CW.number e1 = Some n1 -> CW.number e2 = Some n2 ->
     (start_key e1 = start_key e2 <-> n1 = n2) /\
     (row_major_lt (start_key e1) (start_key e2) <-> n1 < n2)).
Proof.
  intros Hrun. pose proof (generateCrossword_words words seed l) as Hinput.
  specialize (fun e => Hinput e Hrun). revert Hinput.
  apply generateCrossword_inv in Hrun
    as (grid & placed & minX & maxX & minY & maxY &
        (Hsq & Hon & _ & _) & Hbox & Hcrop & Hwords).
  set (mX := Z.max 0 (minX - 1)) in *. set (mY := Z.max 0 (minY - 1)) in *.
  rewrite Hwords. set (shifted := shift_entry mX mY <$> placed). intros Hinput.
  assert (Hletters : forall e, e ∈ assign_numbers shifted ->
            forall k c, at_index (CW.word e) k = Some c ->
              char_at (CW.grid l) (cw_cell e k).1 (cw_cell e k).2 = Some c).
  { intros e (e0 & He0 & ->)%final_entry k c Hk.
    change (CW.word (with_number _ (shift_entry mX mY e0))) with (CW.word e0) in Hk.
    rewrite cw_cell_shift. cbn [fst snd].
    rewrite Forall_forall in Hon. pose proof (Hon e0 He0 k c Hk) as Hchar.
    pose proof (char_at_in_grid _ _ _ Hsq (mk_is_Some _ _ Hchar)) as [Hx Hy].
    pose proof (extend_box_fold placed (gridSize, 0, gridSize, 0)) as [_ Hall].
    cbv zeta in Hall. fold (bounding_box placed) in Hall. rewrite Hbox in Hall.
    specialize (Hall e0 He0). cbn [fst snd] in Hall.
    pose proof (at_index_range _ _ _ Hk) as Hkr.
    pose proof (cx_cy_bounds (CW.direction e0) (CW.x e0) (CW.y e0) k ltac:(lia)) as Hb.
    unfold cw_cell in *. cbn [fst snd] in *.
    set (cx := cx_of (CW.direction e0) (CW.x e0) k) in *.
    set (cy := cy_of (CW.direction e0) (CW.y e0) k) in *.
    unfold gridSize in Hx, Hy.
    apply char_at_Some. eexists. split.
    - eapply cell_at_crop; [exact Hcrop | |];
        destruct (CW.direction e0); repeat case_decide; try congruence; lia.
    - unfold cropped_cell. cbv zeta.
      replace (cy - mY + mY) with cy by lia. replace (cx - mX + mX) with cx by lia.
      unfold gridSize.
      destruct (Z.ltb_spec cy 40); [| lia]. destruct (Z.ltb_spec cx 40); [| lia].
      exact Hchar. }
  destruct (sorted_starts_spec shifted) as (Hsorted & Hnd & Hmem).
  assert (Hkeys : forall e, e ∈ assign_numbers shifted ->
            exists i, sorted_starts shifted !! i = Some (start_key e) /\
                      CW.number e = Some (Z.of_nat i + 1)).
  { intros e (e0 & He0 & ->)%final_entry. fold shifted.
    set (w := shift_entry mX mY e0).
    assert (Hw : start_key w ∈ sorted_starts shifted).
    { apply Hmem. exists w. split; [| reflexivity].
      apply list_elem_of_fmap. exists e0. auto. }
    apply list_elem_of_lookup in Hw as [i Hi]. exists i. split; [exact Hi |].
    cbn. rewrite (number_from_lookup _ 0 ∅ i _ Hnd Hi). f_equal. }
  split; [intros e He; split; [apply Hinput, He | apply Hletters, He] |].
  split; [| split].
  - intros e1 e2 k1 k2 c1 c2 He1 He2 Hk1 Hk2 Hcell.
    pose proof (Hletters e1 He1 k1 c1 Hk1) as H1.
    pose proof (Hletters e2 He2 k2 c2 Hk2) as H2.
    rewrite Hcell in H1. congruence.
  - exists (sorted_starts shifted). split; [exact Hsorted |]. split; [| exact Hkeys].
    intros p. rewrite Hmem. split.
    + intros (w & (e0 & -> & He0)%list_elem_of_fmap & <-).
      eexists. split.
      * unfold assign_numbers. apply list_elem_of_fmap. eexists. split; [reflexivity |].
        apply list_elem_of_fmap. exists e0. split; [reflexivity | exact He0].
      * reflexivity.
    + intros (e & (e0 & He0 & ->)%final_entry & <-).
      exists (shift_entry mX mY e0). split; [| reflexivity].
      apply list_elem_of_fmap. exists e0. auto.
  - intros e1 e2 n1 n2 He1 He2 Hn1 Hn2.
    destruct (Hkeys e1 He1) as (i1 & Hi1 & Hnum1).
    destruct (Hkeys e2 He2) as (i2 & Hi2 & Hnum2).
    assert (n1 = Z.of_nat i1 + 1) as -> by congruence.
    assert (n2 = Z.of_nat i2 + 1) as -> by congruence.
    split; split.
    + intros Heq. rewrite Heq in Hi1.
      rewrite (NoDup_lookup _ _ _ _ Hnd Hi1 Hi2). reflexivity.
    + intros Heq. assert (i1 = i2) as -> by lia. congruence.
    + intros Hlt. destruct (Nat.lt_trichotomy i1 i2) as [Hi | [-> | Hi]]; [lia | |].
      * exfalso. apply (row_major_lt_irrefl (start_key e1)). congruence.
      * exfalso.
        pose proof (StronglySorted_lookup _ _ _ _ _ _ Hsorted Hi2 Hi1 Hi) as Hgt.
        apply (row_major_lt_asym _ _ Hlt Hgt).
    + intros Hlt. apply (StronglySorted_lookup _ _ _ _ _ _ Hsorted Hi1 Hi2). lia.
Qed.

(** C10: in a layout returned by [generateCrossword], every entry after
    the first shares a cell with an entry placed before it, and so every
    entry is linked to the first one by a chain of entries that share
    cells. *)
Theorem generateCrossword_connected (words : list WordPair) (seed : Z) (l : CW.layout) :
  generateCrossword toUpperCase words seed = Ok l ->
  chained (CW.placedWords l) /\
  forall e, e ∈ CW.placedWords l ->
    exists first, CW.placedWords l !! 0%nat = Some first /\
      rtc (fun a b => a ∈ CW.placedWords l /\ b ∈ CW.placedWords l /\ overlap a b)
          e first.
Proof.
  intros (grid & placed & minX & maxX & minY & maxY &
          (_ & _ & _ & Hch) & _ & _ & Hwords)%generateCrossword_inv.
  assert (Hchained : chained (CW.placedWords l)).
  { rewrite Hwords. unfold assign_numbers. rewrite <- list_fmap_compose.
    apply chained_fmap; [| exact Hch]. intros e e'. cbn. apply overlap_shift. }
  split; [exact Hchained |].
  intros e [i Hi]%list_elem_of_lookup. revert e Hi.
  induction (lt_wf i) as [i _ IH]. intros e Hi.
  destruct i as [|i]; [exists e; split; [exact Hi | apply rtc_refl] |].
  destruct (Hchained (S i) e Hi ltac:(lia)) as (j & e' & Hj & He' & Hov).
  destruct (IH j Hj e' He') as (first & Hfirst & Hrtc).
  exists first. split; [exact Hfirst |].
  eapply rtc_l; [| exact Hrtc].
  split; [eapply list_elem_of_lookup_2, Hi |].
  split; [eapply list_elem_of_lookup_2, He' | exact Hov].
Qed.

End CrosswordLayout.

(** ** Evaluations *)

(** C1: with the empty word list nothing is placed, the bounding box keeps
    its initial value (40, 0, 40, 0), the padded origin is (39, 39), the
    size is -37 by -37, and allocating the cropped grid throws. *)
Theorem generateCrossword_empty_throws (toUpperCase : jsstring -> jsstring) (seed : Z) :
  place_rest toUpperCase [] (new_Random seed, blank_canvas, [])
  = Ok (new_Random seed, blank_canvas, []) /\
  bounding_box [] = (40, 0, 40, 0) /\
  crop blank_canvas 39 39 (0 - 39 + 2) (0 - 39 + 2) = RangeError /\
  generateCrossword toUpperCase [] seed = RangeError.
Proof. repeat split. Qed.

(** C2: for the single word "ROBOT" the word is written across the centre
    row of the canvas from column 18, and the returned layout is 8 wide
    and 4 high: one empty column and row before the word, two after. *)
Theorem generateCrossword_ROBOT (seed : Z) :
  exists grid l,
    place_first upper_latin (wp "ROBOT") blank_canvas
    = Ok (grid, [new_entry (units "ROBOT") [] 18 20 across]) /\
    generateCrossword upper_latin [wp "ROBOT"] seed = Ok l /\
    CW.placedWords l
    = [ {| CW.word := units "ROBOT"; CW.clue := []; CW.x := 1; CW.y := 1;
           CW.direction := across; CW.number := Some 1 |} ] /\
    List.map (List.map GridCell.char) (CW.grid l)
    = [ [None; None; None; None; None; None; None; None];
        [None; Some 82; Some 79; Some 66; Some 79; Some 84; None; None]%N;
        [None; None; None; None; None; None; None; None];
        [None; None; None; None; None; None; None; None] ] /\
    CW.width l = 8 /\ CW.height l = 4.
Proof.
  eexists _, _. split; [vm_compute; reflexivity |].
  split; [vm_compute; reflexivity |].
  repeat split.
Qed.

(** The example of the design document: [cleanWord("Café-123")] is
    ["CAFÉ"]. *)
Example cleanWord_cafe :
  cleanWord upper_latin [67; 97; 102; 233; 45; 49; 50; 51]%N = [67; 65; 70; 201]%N.
Proof. reflexivity. Qed.

(** The first word is written without a bounds test: a first word of 41
    normalised letters reaches column 40 and the write throws. *)
Example generateCrossword_long_first_word (seed : Z) :
  let w := {| id := []; word := replicate 41 65%N; definition := [] |} in
  generateCrossword upper_latin [w] seed = TypeError.
Proof. vm_compute. reflexivity. Qed.

Lemma sample_search_run :
  generateWordSearch upper_latin sample_words 6 1 = Ok sample_search.
Proof. vm_compute. reflexivity. Qed.

Lemma sample_crossword_run :
  generateCrossword upper_latin sample_words 5 = Ok sample_crossword.
Proof. vm_compute. reflexivity. Qed.

Lemma generateWordSearch_legal_witness :
  let e := {| WS.word := units "ROBOT"; WS.x := 4; WS.y := 0;
              WS.dx := -1; WS.dy := 1 |} in
  generateWordSearch upper_latin sample_words 6 1 = Ok sample_search /\
  e ∈ WS.placedWords sample_search /\
  at_index (WS.word e) 4 = Some 84%N /\
  0 <= WS.x e + 4 * WS.dx e < 6 /\
  0 <= WS.y e + 4 * WS.dy e < 6 /\
  grid_read (WS.grid sample_search) (WS.x e + 4 * WS.dx e) (WS.y e + 4 * WS.dy e)
  = Ok (Letter 84%N).
Proof.
  intros e.
  assert (He : e ∈ WS.placedWords sample_search) by (vm_compute; left).
  split; [exact sample_search_run |]. split; [exact He |].
  split; [reflexivity |].
  exact (proj2 (generateWordSearch_legal upper_latin sample_words 6 1 sample_search
                  sample_search_run e He) 4 84%N eq_refl).
Defined.


Lemma generateCrossword_legal_witness :
  generateCrossword upper_latin sample_words 5 = Ok sample_crossword /\
  (forall e, e ∈ CW.placedWords sample_crossword ->
     (exists w, w ∈ sample_words /\ CW.word e = cleanWord upper_latin (word w) /\
                CW.clue e = definition w) /\
     forall k c, at_index (CW.word e) k = Some c ->
       char_at (CW.grid sample_crossword) (cw_cell e k).1 (cw_cell e k).2 = Some c) /\
  (forall e1 e2 n1 n2,
     e1 ∈ CW.placedWords sample_crossword -> e2 ∈ CW.placedWords sample_crossword ->
     CW.number e1 = Some n1 -> CW.number e2 = Some n2 ->
     (start_key e1 = start_key e2 <-> n1 = n2) /\
     (row_major_lt (start_key e1) (start_key e2) <-> n1 < n2)).
Proof.
  split; [exact sample_crossword_run |].
  pose proof (generateCrossword_legal upper_latin sample_words 5 sample_crossword
                sample_crossword_run) as (Hletters & _ & _ & Hnumbers).
  split; [exact Hletters | exact Hnumbers].
Defined.

Lemma generateCrossword_connected_witness :
  generateCrossword upper_latin sample_words 5 = Ok sample_crossword /\
  chained (CW.placedWords sample_crossword) /\
  forall e, e ∈ CW.placedWords sample_crossword ->
    exists first, CW.placedWords sample_crossword !! 0%nat = Some first /\
      rtc (fun a b => a ∈ CW.placedWords sample_crossword /\
                      b ∈ CW.placedWords sample_crossword /\ overlap a b)
          e first.
Proof.
  split; [exact sample_crossword_run |].
  exact (generateCrossword_connected upper_latin sample_words 5 sample_crossword
           sample_crossword_run).
Defined.

(** * Further properties *)

(** ** The generator and the shuffle *)

Lemma floor_mul_below (rng : Random) (n : Z) :
  0 < n -> floor_mul (fst (next rng)) n < n.
Proof.
  intros Hn. rewrite next_value.
  destruct (Z.neg_nonneg_cases (snd (next rng))) as [Hneg | Hpos].
  - pose proof (floor_mul_negative _ n Hneg Hn). lia.
  - pose proof (next_bounds rng). apply floor_mul_range; lia.
Qed.

Lemma arr_set_length {T} (a : jsarray T) (i : Z) (v : option T) :
  i < len (elems a) -> length (elems (arr_set a i v)) = length (elems a).
Proof.
  intros Hi. unfold arr_set.
  destruct (Z.ltb_spec i 0); [reflexivity |].
  destruct (Z.ltb_spec i (len (elems a))); [| lia].
  cbn. apply length_insert.
Qed.

Lemma shuffle_loop_length {T} (i : nat) (rng : Random) (a : jsarray T) :
  (i < length (elems a))%nat ->
  length (elems (shuffle_loop i rng a)) = length (elems a).
Proof.
  revert rng a. induction i as [|i IH]; intros rng a Hi; [reflexivity |].
  cbn [shuffle_loop].
  pose proof (floor_mul_below rng (Z.of_nat (S i) + 1) ltac:(lia)) as Hj.
  destruct (next rng) as [v rng']. cbn [fst] in Hj. cbv zeta. cbn [fst snd].
  set (a1 := arr_set a (Z.of_nat (S i)) _).
  assert (H1 : length (elems a1) = length (elems a)).
  { apply arr_set_length. unfold len. lia. }
  set (a2 := arr_set a1 _ _).
  assert (H2 : length (elems a2) = length (elems a)).
  { unfold a2. rewrite arr_set_length; [exact H1 |]. unfold len. lia. }
  rewrite IH; [exact H2 | lia].
Qed.

(** X1: [shuffleArray] never changes the number of elements, whatever the
    seed: a drawn index is below [i + 1], and a negative one only creates
    a property beside the elements. *)
Theorem shuffleArray_length {T} (L : list T) (seed : Z) :
  length (shuffleArray L seed) = length L.
Proof.
  unfold shuffleArray. destruct L as [|a L]; [reflexivity |].
  rewrite shuffle_loop_length; cbn [elems]; rewrite length_fmap; cbn; lia.
Qed.

Lemma omap_Some_fmap {A} (l : list A) : omap (fun u => u) (Some <$> l) = l.
Proof. induction l as [|a l IH]; [reflexivity |]. cbn. f_equal. exact IH. Qed.

Lemma shuffleArray_fisher_yates {T} (L : list T) (seed : Z) :
  0 <= seed -> shuffleArray L seed = Some <$> fisher_yates L seed.
Proof.
  intros Hseed. unfold shuffleArray, fisher_yates, new_Random.
  destruct L as [|a L]; [reflexivity |].
  rewrite shuffle_loop_fisher_yates; [reflexivity | assumption | simpl; lia].
Qed.

(** X2: the scrambled form shown by [renderAnagrams] is, for a
    non-negative [seed + i], a rearrangement of the normalised word: the
    same letters with the same multiplicities, all of the class. *)
Theorem anagram_of_permutation (toUpperCase : jsstring -> jsstring) (w : WordPair)
  (seed i : Z) :
  0 <= seed + i ->
  anagram_of toUpperCase w seed i ≡ₚ cleanWord toUpperCase (word w) /\
  len (anagram_of toUpperCase w seed i) = len (cleanWord toUpperCase (word w)) /\
  Forall (fun c => in_class c = true) (anagram_of toUpperCase w seed i).
Proof.
  intros Hseed. unfold anagram_of, scrambleWord.
  rewrite shuffleArray_fisher_yates, omap_Some_fmap by exact Hseed.
  assert (Hperm : fisher_yates (cleanWord toUpperCase (word w)) (seed + i)
                  ≡ₚ cleanWord toUpperCase (word w)) by apply fisher_yates_from_perm.
  split; [exact Hperm |]. split.
  - unfold len. rewrite (Permutation_length Hperm). reflexivity.
  - rewrite Hperm. apply cleanWord_in_class.
Qed.

Lemma anagram_of_permutation_witness :
  0 <= 7 + 2 /\
  anagram_of upper_latin (wp "robot") 7 2 ≡ₚ cleanWord upper_latin (word (wp "robot")) /\
  len (anagram_of upper_latin (wp "robot") 7 2)
  = len (cleanWord upper_latin (word (wp "robot"))) /\
  Forall (fun c => in_class c = true) (anagram_of upper_latin (wp "robot") 7 2).
Proof.
  split; [lia | apply (anagram_of_permutation upper_latin (wp "robot") 7 2); lia].
Defined.

(** ** The answer key of the matching quiz *)

Lemma findIndex_id_spec (l : list WordPair) (w : WordPair) (i0 : Z) (n : nat) :
  NoDup (id <$> l) -> l !! n = Some w ->
  findIndex_id (Some <$> l) w i0 = Ok (i0 + Z.of_nat n).
Proof.
  revert i0 n. induction l as [|d l IH]; intros i0 n Hnd Hn; [discriminate Hn |].
  cbn in Hnd. apply NoDup_cons in Hnd as [Hd Hnd]. cbn [fmap list_fmap findIndex_id].
  destruct n as [|n].
  - injection Hn as ->. rewrite bool_decide_eq_true_2 by reflexivity.
    f_equal. lia.
  - cbn in Hn. rewrite bool_decide_eq_false_2.
    + rewrite (IH (i0 + 1) n Hnd Hn). f_equal. lia.
    + intros Heq. apply Hd. rewrite Heq. apply list_elem_of_fmap.
      exists w. split; [reflexivity | eapply list_elem_of_lookup_2, Hn].
Qed.

(** X3: in the matching quiz, for a non-negative [seed + 1] and word pairs
    with distinct ids, the answer of every word is the position of that
    very pair in the shuffled list of definitions, so the answers of the
    words are pairwise distinct and every definition is the answer of a
    word. *)
Theorem matching_defIndex_bijective (vocabList : list WordPair) (seed : Z) :
  0 <= seed + 1 -> NoDup (id <$> vocabList) ->
  (forall w, w ∈ vocabList ->
     exists n : nat,
       matching_defIndex vocabList seed w = Ok (Z.of_nat n) /\
       shuffleArray vocabList (seed + 1) !! n = Some (Some w)) /\
  (forall w w' a, w ∈ vocabList -> w' ∈ vocabList ->
     matching_defIndex vocabList seed w = Ok a ->
     matching_defIndex vocabList seed w' = Ok a -> w = w') /\
  (forall n d, shuffleArray vocabList (seed + 1) !! n = Some d ->
     exists w, w ∈ vocabList /\ d = Some w /\
               matching_defIndex vocabList seed w = Ok (Z.of_nat n)).
Proof.
  intros Hseed Hnd. unfold matching_defIndex.
  rewrite shuffleArray_fisher_yates by exact Hseed.
  set (l := fisher_yates vocabList (seed + 1)).
  assert (Hperm : l ≡ₚ vocabList) by apply fisher_yates_from_perm.
  assert (Hnd' : NoDup (id <$> l)) by (rewrite Hperm; exact Hnd).
  assert (Hfind : forall n w, l !! n = Some w ->
            findIndex_id (Some <$> l) w 0 = Ok (Z.of_nat n)).
  { intros n w Hn. rewrite (findIndex_id_spec l w 0 n Hnd' Hn). f_equal. }
  split; [| split].
  - intros w Hw. rewrite <- Hperm in Hw. apply list_elem_of_lookup in Hw as [n Hn].
    exists n. split; [apply Hfind, Hn |]. rewrite list_lookup_fmap, Hn. reflexivity.
  - intros w w' a Hw Hw' Ha Ha'. rewrite <- Hperm in Hw, Hw'.
    apply list_elem_of_lookup in Hw as [n Hn]. apply list_elem_of_lookup in Hw' as [n' Hn'].
    rewrite (Hfind n w Hn) in Ha. rewrite (Hfind n' w' Hn') in Ha'.
    assert (n = n') as -> by (apply Nat2Z.inj; congruence). congruence.
  - intros n d Hn. rewrite list_lookup_fmap in Hn.
    destruct (l !! n) as [w|] eqn:Hw; [| discriminate Hn]. injection Hn as <-.
    exists w. split; [rewrite <- Hperm; eapply list_elem_of_lookup_2, Hw |].
    split; [reflexivity | apply Hfind, Hw].
Qed.

Lemma matching_defIndex_bijective_witness :
  0 <= 7 + 1 /\ NoDup (id <$> sample_vocab) /\
  forall w, w ∈ sample_vocab ->
    exists n : nat,
      matching_defIndex sample_vocab 7 w = Ok (Z.of_nat n) /\
      shuffleArray sample_vocab (7 + 1) !! n = Some (Some w).
Proof.
  assert (Hnd : NoDup (id <$> sample_vocab)) by compute_done.
  split; [lia |]. split; [exact Hnd |].
  exact (proj1 (matching_defIndex_bijective sample_vocab 7 ltac:(lia) Hnd)).
Defined.

(** ** Word search: the result *)

Lemma attempt_loop_entries (fuel : nat) (size : Z) (term : jsstring) (st st' : ws_state) :
  attempt_loop fuel size term st = Ok st' ->
  st'.2 = st.2 \/
  exists e, st'.2 = st.2 ++ [e] /\ WS.word e = term /\ compass (WS.dx e) (WS.dy e).
Proof.
  revert st. induction fuel as [|fuel IH]; intros st H.
  { injection H as <-. left. reflexivity. }
  destruct st as [[rng g] placed].
  apply attempt_loop_S_inv in H
    as (dir & i & sx & sy & rng' & Hdir & [[Hfits ->] | Hrec]).
  - right. eexists. split; [reflexivity |]. split; [reflexivity |].
    exists i, dir. auto.
  - apply (IH _ Hrec).
Qed.

Section WordSearchResult.
Variable toUpperCase : jsstring -> jsstring.

Lemma place_words_entries (size : Z) (items : list WordPair) (st st' : ws_state) :
  place_words toUpperCase size items st = Ok st' ->
  exists more, st'.2 = st.2 ++ more /\
    (WS.word <$> more) `sublist_of` ((fun w => cleanWord toUpperCase (word w)) <$> items) /\
    Forall (fun e => compass (WS.dx e) (WS.dy e)) more.
Proof.
  revert st. induction items as [|item items IH]; intros st H.
  { injection H as <-. exists []. rewrite app_nil_r. repeat split; constructor. }
  rewrite place_words_cons in H.
  destruct (attempt_loop 100 size _ st) as [st1 | |] eqn:Hone; try discriminate H.
  change (place_words toUpperCase size items st1 = Ok st') in H.
  destruct (IH st1 H) as (more & -> & Hsub & Hdirs).
  destruct (attempt_loop_entries _ _ _ _ _ Hone) as [-> | (e & -> & Hword & Hdir)].
  - exists more. split; [reflexivity |]. split; [| exact Hdirs].
    cbn [fmap list_fmap]. apply sublist_cons, Hsub.
  - exists (e :: more). split; [rewrite <- app_assoc; reflexivity |].
    split; [| constructor; assumption].
    cbn [fmap list_fmap]. rewrite Hword. apply sublist_skip, Hsub.
Qed.

(** What a successful run establishes, for the properties below. *)
Lemma generateWordSearch_result (words : list WordPair) (size seed : Z) (r : WS.result) :
  generateWordSearch toUpperCase words size seed = Ok r ->
  0 <= size /\
  square size (WS.grid r) /\
  Forall (ws_entry_on_grid (WS.grid r)) (WS.placedWords r) /\
  (WS.word <$> WS.placedWords r)
    `sublist_of` ((fun w => cleanWord toUpperCase (word w)) <$> sortedWords words) /\
  Forall (fun e => compass (WS.dx e) (WS.dy e)) (WS.placedWords r).
Proof.
  intros Hrun.
  assert (Hsize : 0 <= size).
  { unfold generateWordSearch in Hrun. destruct (Z.ltb_spec size 0); [discriminate | lia]. }
  apply generateWordSearch_Ok in Hrun as (rng & g & rng' & Hplace & Hfill).
  destruct (place_words_inv _ _ _ _ _ (ws_inv_initial size _) Hplace)
    as [(Hsq & Hentries & _) _]. cbn in Hsq, Hentries.
  destruct (place_words_entries _ _ _ _ Hplace) as (more & Hmore & Hsub & Hdirs).
  cbn in Hmore. subst more.
  apply fill_loop_spec in Hfill as (Hfrom & Hsq' & _).
  split; [exact Hsize |]. split; [auto |]. split; [| auto].
  eapply Forall_impl; [exact Hentries |]. intros e He k c Hk.
  destruct (Hfrom _ _ _ (He k c Hk)) as (v' & Hv' & Hkeep).
  rewrite (Hkeep ltac:(discriminate)) in Hv'. exact Hv'.
Qed.

(** X4: whatever the seed, a result of [generateWordSearch] has a grid of
    [size] rows of [size] cells, and its entries are the normalised forms
    of input words in sorted order, each input word placed at most once. *)
Theorem generateWordSearch_shape (words : list WordPair) (size seed : Z)
  (r : WS.result) :
  generateWordSearch toUpperCase words size seed = Ok r ->
  len (WS.grid r) = size /\
  Forall (fun row => len row = size) (WS.grid r) /\
  (WS.word <$> WS.placedWords r)
    `sublist_of` ((fun w => cleanWord toUpperCase (word w)) <$> sortedWords words) /\
  len (WS.placedWords r) <= len words.
Proof.
  intros (Hsize & [Hrows Hcols] & _ & Hsub & _)%generateWordSearch_result.
  unfold len. split; [lia |]. split; [| split; [exact Hsub |]].
  - eapply Forall_impl; [exact Hcols |]. intros row Hrow. cbn in Hrow. lia.
  - apply sublist_length in Hsub. rewrite !length_fmap in Hsub.
    pose proof (Permutation_length (js_sort_perm by_length_desc words)) as Hperm.
    unfold sortedWords in Hsub. lia.
Qed.

(** X5: every entry of a result runs along one of the eight directions,
    and its word has at most [size] letters: a word longer than the side
    of the grid is never placed. *)
Theorem generateWordSearch_entry_fits (words : list WordPair) (size seed : Z)
  (r : WS.result) (e : WS.entry) :
  generateWordSearch toUpperCase words size seed = Ok r ->
  e ∈ WS.placedWords r ->
  compass (WS.dx e) (WS.dy e) /\ len (WS.word e) <= size.
Proof.
  intros (Hsize & Hsq & Hon & _ & Hdirs)%generateWordSearch_result He.
  rewrite Forall_forall in Hon, Hdirs. specialize (Hon e He). specialize (Hdirs e He).
  split; [exact Hdirs |].
  destruct (decide (len (WS.word e) = 0)) as [-> | Hne]; [exact Hsize |].
  assert (Hlen : 0 < len (WS.word e)) by (unfold len in *; lia).
  destruct (at_index_is_Some (WS.word e) 0 ltac:(lia)) as [c0 Hc0].
  destruct (at_index_is_Some (WS.word e) (len (WS.word e) - 1) ltac:(lia)) as [c1 Hc1].
  pose proof (proj1 (cell_at_square size _ _ _ Hsq) (mk_is_Some _ _ (Hon _ _ Hc0))) as H0.
  pose proof (proj1 (cell_at_square size _ _ _ Hsq) (mk_is_Some _ _ (Hon _ _ Hc1))) as H1.
  destruct Hdirs as (i & dir & Hdir & Hdx & Hdy).
  apply directions_spec in Hdir. rewrite Hdx, Hdy in Hdir. nia.
Qed.

Lemma attempt_loop_negative (fuel : nat) (size : Z) (term : jsstring) (st : ws_state) :
  snd (next st.1.1) < 0 -> attempt_loop (S fuel) size term st = TypeError.
Proof.
  destruct st as [[rng g] placed]. cbn [fst snd]. intros Hneg.
  cbn [attempt_loop].
  pose proof (next_value rng) as Hv. pose proof (next_bounds rng) as Hb.
  destruct (next rng) as [v1 r1]. cbn [fst snd] in *. subst v1.
  destruct (next r1) as [v2 r2]. destruct (next r2) as [v3 r3].
  assert (Hidx : floor_mul (r1 # 233280) (len directions) < 0).
  { apply floor_mul_negative; [exact Hneg | reflexivity]. }
  unfold at_index at 1. destruct (Z.ltb_spec (floor_mul (r1 # 233280) (len directions)) 0);
    [reflexivity | lia].
Qed.

(** X6: when the first state of the generator is negative (the seed -6,
    for one) and there is a word to place, [generateWordSearch] throws:
    the first drawn direction index is negative and selects no
    direction. *)
Theorem generateWordSearch_negative_state (words : list WordPair) (size seed : Z) :
  state_after (new_Random seed) 1 < 0 -> words <> [] -> 0 <= size < 2 ^ 32 ->
  generateWordSearch toUpperCase words size seed = TypeError.
Proof.
  intros Hneg Hne Hsize. unfold generateWordSearch.
  destruct (Z.ltb_spec size 0); [lia |].
  destruct (Z.ltb_spec (2 ^ 32 - 1) size); [lia |]. cbn [orb].
  destruct words as [|w ws]; [congruence |].
  destruct (sortedWords_cons w ws) as (first & rest & ->).
  rewrite place_words_cons.
  rewrite (attempt_loop_negative 99); [reflexivity | exact Hneg].
Qed.

(** X7: with the answer key on, [renderWordSearch] highlights exactly the
    cells on the paths of the placed entries of a result, and each
    highlighted cell shows the letter of an entry at that cell. *)
Theorem isAnswer_letters (words : list WordPair) (size seed : Z) (r : WS.result)
  (x y : Z) :
  generateWordSearch toUpperCase words size seed = Ok r ->
  (isAnswer true (WS.placedWords r) x y = true <->
   exists e k, e ∈ WS.placedWords r /\ 0 <= k < len (WS.word e) /\
               x = WS.x e + k * WS.dx e /\ y = WS.y e + k * WS.dy e) /\
  (isAnswer true (WS.placedWords r) x y = true ->
   exists e k c, e ∈ WS.placedWords r /\ at_index (WS.word e) k = Some c /\
                 grid_read (WS.grid r) x y = Ok (Letter c)).
Proof.
  intros (_ & _ & Hon & _)%generateWordSearch_result.
  assert (Hiff : isAnswer true (WS.placedWords r) x y = true <->
            exists e k, e ∈ WS.placedWords r /\ 0 <= k < len (WS.word e) /\
                        x = WS.x e + k * WS.dx e /\ y = WS.y e + k * WS.dy e).
  { unfold isAnswer, on_path. cbn [andb]. rewrite existsb_exists. split.
    - intros (e & He & Hk). apply existsb_exists in Hk as (k & Hk & Hxy).
      apply list_elem_of_In in He, Hk. apply elem_of_seqZ in Hk.
      apply andb_prop in Hxy as [Hx Hy]. apply Z.eqb_eq in Hx, Hy.
      exists e, k. repeat split; (lia || assumption).
    - intros (e & k & He & Hk & -> & ->). exists e.
      split; [apply list_elem_of_In, He |]. apply existsb_exists. exists k.
      split; [apply list_elem_of_In, elem_of_seqZ; lia |].
      rewrite !Z.eqb_refl. reflexivity. }
  split; [exact Hiff |]. intros (e & k & He & Hk & -> & ->)%Hiff.
  destruct (at_index_is_Some (WS.word e) k Hk) as [c Hc].
  exists e, k, c. split; [exact He |]. split; [exact Hc |].
  rewrite Forall_forall in Hon. apply grid_read_cell, (Hon e He k c Hc).
Qed.

End WordSearchResult.

Lemma generateWordSearch_shape_witness :
  generateWordSearch upper_latin sample_words 6 1 = Ok sample_search /\
  len (WS.grid sample_search) = 6 /\
  Forall (fun row => len row = 6) (WS.grid sample_search) /\
  (WS.word <$> WS.placedWords sample_search)
    `sublist_of` ((fun w => cleanWord upper_latin (word w)) <$> sortedWords sample_words) /\
  len (WS.placedWords sample_search) <= len sample_words.
Proof.
  split; [exact sample_search_run |].
  exact (generateWordSearch_shape upper_latin sample_words 6 1 sample_search
           sample_search_run).
Defined.

Lemma generateWordSearch_entry_fits_witness :
  let e := {| WS.word := units "ROBOT"; WS.x := 4; WS.y := 0;
              WS.dx := -1; WS.dy := 1 |} in
  generateWordSearch upper_latin sample_words 6 1 = Ok sample_search /\
  e ∈ WS.placedWords sample_search /\
  compass (WS.dx e) (WS.dy e) /\ len (WS.word e) <= 6.
Proof.
  intros e.
  assert (He : e ∈ WS.placedWords sample_search) by (vm_compute; left).
  split; [exact sample_search_run |]. split; [exact He |].
  exact (generateWordSearch_entry_fits upper_latin sample_words 6 1 sample_search e
           sample_search_run He).
Defined.

Lemma generateWordSearch_negative_state_witness :
  state_after (new_Random (-6)) 1 < 0 /\ [wp "cat"] <> [] /\ 0 <= 5 < 2 ^ 32 /\
  generateWordSearch upper_latin [wp "cat"] 5 (-6) = TypeError.
Proof.
  assert (H1 : state_after (new_Random (-6)) 1 < 0) by reflexivity.
  assert (H2 : [wp "cat"] <> []) by discriminate.
  assert (H3 : 0 <= 5 < 2 ^ 32) by lia.
  split; [exact H1 |]. split; [exact H2 |]. split; [exact H3 |].
  exact (generateWordSearch_negative_state upper_latin [wp "cat"] 5 (-6) H1 H2 H3).
Defined.

Lemma isAnswer_letters_witness :
  generateWordSearch upper_latin sample_words 6 1 = Ok sample_search /\
  (isAnswer true (WS.placedWords sample_search) 3 1 = true ->
   exists e k c, e ∈ WS.placedWords sample_search /\ at_index (WS.word e) k = Some c /\
                 grid_read (WS.grid sample_search) 3 1 = Ok (Letter c)).
Proof.
  split; [exact sample_search_run |].
  exact (proj2 (isAnswer_letters upper_latin sample_words 6 1 sample_search 3 1
                  sample_search_run)).
Defined.

(** ** Crossword: the layout *)

Lemma write_term_throws (grid : Canvas) (d : Direction) (sx sy k : Z) (rest : jsstring) :
  square gridSize grid ->
  (exists j, 0 <= j < len rest /\
     ~ (0 <= cx_of d sx (k + j) < gridSize /\ 0 <= cy_of d sy (k + j) < gridSize)) ->
  write_term grid d sx sy k rest = TypeError.
Proof.
  revert grid k. induction rest as [|c rest IH]; intros grid k Hsq (j & Hj & Hout).
  { unfold len in Hj. cbn [length] in Hj. lia. }
  cbn [write_term].
  destruct (set_char grid (cx_of d sx k) (cy_of d sy k) c) as [grid' | |] eqn:Hset;
    cbn [mbind outcome_bind]; [| reflexivity |].
  - assert (Hin : 0 <= cx_of d sx k < gridSize /\ 0 <= cy_of d sy k < gridSize).
    { apply (cell_at_square gridSize grid _ _ Hsq). unfold set_char in Hset.
      destruct (cell_at grid _ _) as [cell |]; [eauto | discriminate Hset]. }
    assert (j <> 0) by (intros ->; rewrite Z.add_0_r in Hout; tauto).
    apply IH; [apply (set_char_spec _ _ _ _ _ Hset), Hsq |].
    exists (j - 1). unfold len in *. cbn [length] in Hj.
    replace (k + 1 + (j - 1)) with (k + j) by lia. split; [lia | exact Hout].
  - unfold set_char in Hset. destruct (cell_at grid _ _); discriminate Hset.
Qed.

Lemma crop_shape (grid cropped : Canvas) (minX minY width height : Z) :
  crop grid minX minY width height = Ok cropped ->
  length cropped = Z.to_nat height /\
  Forall (fun row => length row = Z.to_nat width) cropped /\
  forall X Y cell, cell_at cropped X Y = Some cell ->
    0 <= X < width /\ 0 <= Y < height /\ cell = cropped_cell grid minX minY X Y.
Proof.
  unfold crop. destruct (height <? 0); [discriminate |].
  destruct (_ && _); [discriminate |]. intros [= <-].
  split; [rewrite length_fmap, length_seqZ; reflexivity |]. split.
  - apply Forall_fmap, Forall_forall. intros y _. cbn.
    rewrite length_fmap, length_seqZ. reflexivity.
  - intros X Y cell (row & [HY Hrow]%at_index_Some & [HX Hcell]%at_index_Some)%cell_at_Some.
    rewrite list_lookup_fmap in Hrow.
    destruct (seqZ 0 height !! Z.to_nat Y) as [y |] eqn:Hy; [| discriminate Hrow].
    injection Hrow as <-. apply lookup_seqZ in Hy as [-> Hylt].
    rewrite list_lookup_fmap in Hcell.
    destruct (seqZ 0 width !! Z.to_nat X) as [x |] eqn:Hx; [| discriminate Hcell].
    injection Hcell as <-. apply lookup_seqZ in Hx as [-> Hxlt].
    rewrite !Z.add_0_l, !Z2Nat.id by lia. repeat split; lia.
Qed.

Lemma cropped_cell_xy (grid : Canvas) (minX minY X Y : Z) :
  GridCell.x (cropped_cell grid minX minY X Y) = X /\
  GridCell.y (cropped_cell grid minX minY X Y) = Y.
Proof. unfold cropped_cell. destruct (_ && _); split; reflexivity. Qed.

Lemma extend_box_fold_within (placed : list CW.entry) (box : Z * Z * Z * Z) (M : Z) :
  (forall e, e ∈ placed -> 0 <= CW.x e /\ 0 <= CW.y e /\ end_x e <= M /\ end_y e <= M) ->
  0 <= box.1.1.1 /\ box.1.1.2 <= M /\ 0 <= box.1.2 /\ box.2 <= M ->
  let box' := foldl extend_box box placed in
  0 <= box'.1.1.1 /\ box'.1.1.2 <= M /\ 0 <= box'.1.2 /\ box'.2 <= M.
Proof.
  revert box. induction placed as [|w placed IH]; intros box Hall Hbox; cbn [foldl].
  { exact Hbox. }
  apply IH; [intros e He; apply Hall; right; exact He |].
  specialize (Hall w ltac:(left)). unfold end_x, end_y in Hall.
  destruct box as [[[a b] c] d]. cbn [extend_box fst snd] in *. lia.
Qed.

Lemma sorted_starts_length (ws : list CW.entry) :
  (length (sorted_starts ws) <= length ws)%nat.
Proof.
  destruct (sorted_starts_spec ws) as (_ & Hnd & Hmem).
  rewrite <- (length_fmap start_key ws). apply submseteq_length.
  apply NoDup_submseteq; [exact Hnd |].
  intros p (w & Hw & <-)%Hmem. apply list_elem_of_fmap. eauto.
Qed.

Section CrosswordResult.
Variable toUpperCase : jsstring -> jsstring.

Lemma place_first_entry (first : WordPair) (grid : Canvas) (placed : list CW.entry) :
  place_first toUpperCase first blank_canvas = Ok (grid, placed) ->
  placed = [new_entry (cleanWord toUpperCase (word first)) (definition first)
              (center - len (cleanWord toUpperCase (word first)) / 2) center across].
Proof.
  unfold place_first. destruct (write_term _ _ _ _ _ _); cbn [mbind outcome_bind];
    [| discriminate | discriminate].
  intros [= _ <-]. reflexivity.
Qed.

Lemma place_first_throws (first : WordPair) :
  gridSize < len (cleanWord toUpperCase (word first)) ->
  place_first toUpperCase first blank_canvas = TypeError.
Proof.
  intros Hlong. unfold place_first.
  rewrite write_term_throws; [reflexivity | apply blank_canvas_square |].
  exists (len (cleanWord toUpperCase (word first)) - 1). split; [unfold gridSize in *; lia |].
  unfold cx_of. rewrite decide_True by reflexivity.
  change center with 20. change gridSize with 40 in *.
  generalize dependent (len (cleanWord toUpperCase (word first))). intros L HL.
  Z.div_mod_to_equations. lia.
Qed.

Lemma place_next_entries (currentPair : WordPair) (st st' : cw_state) :
  place_next toUpperCase currentPair st = Ok st' ->
  st'.2 = st.2 \/
  exists e, st'.2 = st.2 ++ [e] /\
    CW.word e = cleanWord toUpperCase (word currentPair) /\
    CW.clue e = definition currentPair.
Proof.
  destruct st as [[rng grid] placed]. unfold place_next.
  destruct (try_cells _ _ _ _) as [rng' [[[d sx] sy] |]].
  - destruct (write_term _ _ _ _ _ _); cbn [mbind outcome_bind]; try discriminate.
    intros [= <-]. right. eexists. split; [reflexivity |]. split; reflexivity.
  - intros [= <-]. left. reflexivity.
Qed.

Lemma place_rest_entries (pairs : list WordPair) (st st' : cw_state) :
  place_rest toUpperCase pairs st = Ok st' ->
  exists more, st'.2 = st.2 ++ more /\
    ((fun e => (CW.word e, CW.clue e)) <$> more) `sublist_of`
      ((fun w => (cleanWord toUpperCase (word w), definition w)) <$> pairs).
Proof.
  revert st. induction pairs as [|w pairs IH]; intros st H.
  { injection H as <-. exists []. rewrite app_nil_r. split; constructor. }
  cbn [place_rest] in H.
  destruct (place_next toUpperCase w st) as [st1 | |] eqn:Hone; try discriminate H.
  cbn [mbind outcome_bind] in H.
  destruct (IH st1 H) as (more & -> & Hsub).
  destruct (place_next_entries _ _ _ Hone) as [-> | (e & -> & Hword & Hclue)].
  - exists more. split; [reflexivity |]. cbn [fmap list_fmap]. apply sublist_cons, Hsub.
  - exists (e :: more). split; [rewrite <- app_assoc; reflexivity |].
    cbn [fmap list_fmap]. rewrite Hword, Hclue. apply sublist_skip, Hsub.
Qed.

(** The run behind a returned layout: the canvas and the entries before
    the crop, the origin of the crop, and where the entries lie. *)
Lemma generateCrossword_layout (words : list WordPair) (seed : Z) (l : CW.layout) :
  generateCrossword toUpperCase words seed = Ok l ->
  exists first rest grid e0 more minX minY,
    sortedWords words = first :: rest /\
    e0 = new_entry (cleanWord toUpperCase (word first)) (definition first)
           (center - len (cleanWord toUpperCase (word first)) / 2) center across /\
    ((fun e => (CW.word e, CW.clue e)) <$> more) `sublist_of`
      ((fun w => (cleanWord toUpperCase (word w), definition w)) <$> rest) /\
    Forall (fun e => 0 < len (CW.word e)) more /\
    cw_inv grid (e0 :: more) /\
    0 <= minX /\ 0 <= minY /\
    3 <= CW.width l <= gridSize + 2 /\ 4 <= CW.height l <= gridSize + 2 /\
    (forall e, e ∈ e0 :: more ->
       minX <= CW.x e /\ end_x e <= minX + CW.width l - 2 /\
       minY <= CW.y e /\ end_y e <= minY + CW.height l - 2) /\
    crop grid minX minY (CW.width l) (CW.height l) = Ok (CW.grid l) /\
    CW.placedWords l = assign_numbers (shift_entry minX minY <$> e0 :: more).
Proof.
  intros (first & rest & g0 & p0 & rng & grid & placed & minX & maxX & minY & maxY &
          Hsorted & Hfirst & Hrest & Hbox & Hcrop & Hwords & Hw & Hh)%generateCrossword_Ok.
  pose proof (place_first_inv _ _ _ _ Hfirst) as Hinv0.
  pose proof (place_rest_inv _ _ _ _ _ _ _ _ Hrest Hinv0) as Hinv.
  pose proof (place_first_entry _ _ _ Hfirst) as Hp0.
  destruct (place_rest_entries _ _ _ Hrest) as (more & Hmore & Hsub).
  cbn [fst snd] in Hmore. rewrite Hp0 in Hmore. cbn [app] in Hmore.
  set (term := cleanWord toUpperCase (word first)) in *.
  set (e0 := new_entry term (definition first) (center - len term / 2) center across) in *.
  subst placed.
  assert (Hterm : len term <= gridSize).
  { destruct (Z.le_gt_cases (len term) gridSize) as [Hle | Hgt]; [exact Hle |].
    rewrite (place_first_throws first Hgt) in Hfirst. discriminate Hfirst. }
  assert (Hpos : Forall (fun e => 0 < len (CW.word e)) more).
  { apply Forall_forall. intros e He. apply list_elem_of_lookup in He as [i Hi].
    destruct Hinv as (_ & _ & _ & Hch).
    destruct (Hch (S i) e Hi ltac:(lia)) as (j & e' & _ & _ & k & k' & Hk & _). lia. }
  assert (Hin : forall e, e ∈ e0 :: more ->
            0 <= CW.x e /\ 0 <= CW.y e /\ end_x e <= gridSize /\ end_y e <= gridSize).
  { intros e He.
    assert (Hcase : e = e0 /\ len term = 0 \/ 0 < len (CW.word e)).
    { apply elem_of_cons in He as [-> | He].
      - destruct (decide (len term = 0)); [left; auto | right].
        cbn [e0 new_entry CW.word]. unfold len in *. lia.
      - right. rewrite Forall_forall in Hpos. apply Hpos, He. }
    destruct Hcase as [[-> Hz] | Hlen].
    - unfold end_x, end_y. cbn [e0 new_entry CW.x CW.y CW.direction CW.word].
      rewrite decide_True by reflexivity. rewrite decide_False by discriminate.
      rewrite Hz. change center with 20. change gridSize with 40.
      change (0 / 2) with 0. lia.
    - destruct Hinv as (Hsq & Hon & _). rewrite Forall_forall in Hon.
      specialize (Hon e ltac:(first [exact He | right; exact He])).
      destruct (at_index_is_Some (CW.word e) 0 ltac:(lia)) as [c0 Hc0].
      destruct (at_index_is_Some (CW.word e) (len (CW.word e) - 1) ltac:(lia)) as [c1 Hc1].
      pose proof (char_at_in_grid _ _ _ Hsq (mk_is_Some _ _ (Hon _ _ Hc0))) as H0.
      pose proof (char_at_in_grid _ _ _ Hsq (mk_is_Some _ _ (Hon _ _ Hc1))) as H1.
      unfold cw_cell, cx_of, cy_of, end_x, end_y in *. cbn [fst snd] in H0, H1.
      destruct (CW.direction e); repeat case_decide; try congruence; lia. }
  pose proof (extend_box_fold (e0 :: more) (gridSize, 0, gridSize, 0)) as [_ Hall].
  pose proof (extend_box_fold_within (e0 :: more) (gridSize, 0, gridSize, 0) gridSize Hin
                ltac:(cbn; unfold gridSize; lia)) as Hwithin.
  cbv zeta in Hall, Hwithin. fold (bounding_box (e0 :: more)) in Hall, Hwithin.
  rewrite Hbox in Hall, Hwithin. cbn [fst snd] in Hall, Hwithin.
  pose proof (Hall e0 ltac:(left)) as Hfirst0.
  cbn [e0 new_entry CW.x CW.y CW.direction CW.word] in Hfirst0.
  rewrite decide_True in Hfirst0 by reflexivity.
  rewrite decide_False in Hfirst0 by discriminate.
  change center with 20 in Hfirst0. change gridSize with 40 in *.
  assert (Hhalf : 0 <= len term / 2 <= len term).
  { assert (0 <= len term) by (unfold len; lia). Z.div_mod_to_equations. lia. }
  exists first, rest, grid, e0, more, (Z.max 0 (minX - 1)), (Z.max 0 (minY - 1)).
  rewrite Hw, Hh.
  split; [exact Hsorted |]. split; [reflexivity |]. split; [exact Hsub |].
  split; [exact Hpos |]. split; [exact Hinv |].
  split; [lia |]. split; [lia |]. split; [lia |]. split; [lia |].
  split; [| split; [exact Hcrop | exact Hwords]].
  intros e He. specialize (Hall e He). unfold end_x, end_y. lia.
Qed.

(** X8: a layout returned by [generateCrossword] has a grid of [height]
    rows of [width] cells, each cell carries its own column and row as
    [x] and [y], and the layout is between 3 and 42 cells wide and between
    4 and 42 cells high. *)
Theorem generateCrossword_grid_shape (words : list WordPair) (seed : Z) (l : CW.layout) :
  generateCrossword toUpperCase words seed = Ok l ->
  len (CW.grid l) = CW.height l /\
  Forall (fun row => len row = CW.width l) (CW.grid l) /\
  (forall X Y cell, cell_at (CW.grid l) X Y = Some cell ->
     GridCell.x cell = X /\ GridCell.y cell = Y) /\
  3 <= CW.width l <= gridSize + 2 /\ 4 <= CW.height l <= gridSize + 2.
Proof.
  intros (first & rest & grid & e0 & more & minX & minY & _ & _ & _ & _ & _ &
          _ & _ & Hw & Hh & _ & Hcrop & _)%generateCrossword_layout.
  apply crop_shape in Hcrop as (Hrows & Hcols & Hcells).
  unfold len. split; [lia |]. split; [| split; [| auto]].
  - eapply Forall_impl; [exact Hcols |]. intros row Hrow. cbn in Hrow. lia.
  - intros X Y cell (_ & _ & ->)%Hcells. apply cropped_cell_xy.
Qed.

(** X9: every letter of the grid of a returned layout belongs to an entry:
    a cell that holds a letter is the [k]-th cell of some entry whose
    [k]-th letter it is. *)
Theorem generateCrossword_no_stray_letter (words : list WordPair) (seed : Z)
  (l : CW.layout) (X Y : Z) (c : code_unit) :
  generateCrossword toUpperCase words seed = Ok l ->
  char_at (CW.grid l) X Y = Some c ->
  exists e k, e ∈ CW.placedWords l /\ at_index (CW.word e) k = Some c /\
              cw_cell e k = (X, Y).
Proof.
  intros (first & rest & grid & e0 & more & minX & minY & _ & _ & _ & _ & Hinv &
          _ & _ & _ & _ & _ & Hcrop & Hwords)%generateCrossword_layout Hc.
  apply char_at_Some in Hc as (cell & Hcell & Hchar).
  apply crop_shape in Hcrop as (_ & _ & Hcells).
  apply Hcells in Hcell as (HX & HY & ->).
  unfold cropped_cell in Hchar. destruct (_ && _); [| discriminate Hchar].
  cbn [GridCell.char] in Hchar.
  destruct Hinv as (_ & Hon & Hcov & _).
  destruct (Hcov _ _ (mk_is_Some _ _ Hchar)) as (e & k & He & Hk & Hcellk).
  rewrite Forall_forall in Hon.
  destruct (at_index_is_Some (CW.word e) k Hk) as [c' Hc'].
  pose proof (Hon e He k c' Hc') as Hat. rewrite Hcellk in Hat. cbn [fst snd] in Hat.
  assert (c' = c) as -> by congruence.
  eexists (with_number _ (shift_entry minX minY e)), k.
  split; [| split].
  - rewrite Hwords. unfold assign_numbers.
    apply list_elem_of_fmap_2, list_elem_of_fmap_2, He.
  - exact Hc'.
  - rewrite cw_cell_shift, Hcellk. cbn [fst snd]. f_equal; lia.
Qed.

(** X10: the entries of a returned layout start with the first word in
    sorted order, placed across; the entries after it are non-empty and
    are, with their clues, words after the first one in sorted order, in
    that order, each input pair used at most once. *)
Theorem generateCrossword_entries (words : list WordPair) (seed : Z) (l : CW.layout)
  (first : WordPair) (rest : list WordPair) :
  generateCrossword toUpperCase words seed = Ok l ->
  sortedWords words = first :: rest ->
  exists e more, CW.placedWords l = e :: more /\
    CW.word e = cleanWord toUpperCase (word first) /\
    CW.clue e = definition first /\
    CW.direction e = across /\
    ((fun e => (CW.word e, CW.clue e)) <$> more) `sublist_of`
      ((fun w => (cleanWord toUpperCase (word w), definition w)) <$> rest) /\
    Forall (fun e => 0 < len (CW.word e)) more.
Proof.
  intros (first' & rest' & grid & e0 & more & minX & minY & Hsorted & He0 & Hsub &
          Hpos & _ & _ & _ & _ & _ & _ & _ & Hwords)%generateCrossword_layout Hs.
  rewrite Hsorted in Hs. injection Hs as -> ->.
  unfold assign_numbers in Hwords. cbn [fmap list_fmap] in Hwords.
  eexists _, _. split; [exact Hwords |]. rewrite He0.
  split; [reflexivity |]. split; [reflexivity |]. split; [reflexivity |]. split.
  - rewrite <- !list_fmap_compose.
    erewrite (list_fmap_ext _ (fun e => (CW.word e, CW.clue e)) more);
      [exact Hsub | reflexivity].
  - rewrite <- list_fmap_compose. apply Forall_fmap.
    eapply Forall_impl; [exact Hpos |]. intros e He. exact He.
Qed.

(** X11: for a word list whose first word in sorted order has a normalised
    form of at most 40 letters, [generateCrossword] returns a layout,
    whatever the seed; when that form is longer than the canvas is wide,
    it throws while writing the first word. *)
Theorem generateCrossword_first_word_limit (words : list WordPair) (seed : Z)
  (first : WordPair) (rest : list WordPair) :
  sortedWords words = first :: rest ->
  (len (cleanWord toUpperCase (word first)) <= gridSize ->
   exists l, generateCrossword toUpperCase words seed = Ok l) /\
  (gridSize < len (cleanWord toUpperCase (word first)) ->
   generateCrossword toUpperCase words seed = TypeError).
Proof.
  intros Hsorted. split.
  - intros Hlen. apply generateCrossword_returns.
    + intros ->. discriminate Hsorted.
    + intros first' rest' Hs. rewrite Hsorted in Hs. injection Hs as <- _. exact Hlen.
  - intros Hlong. unfold generateCrossword. rewrite Hsorted.
    rewrite (place_first_throws first Hlong). reflexivity.
Qed.

(** X12: in [renderCrossword], the cell where an entry of the layout
    starts exists in the grid, and the number printed in it, the number of
    the first entry that starts there, is the number of that entry, an
    integer from 1 to the number of entries. *)
Theorem startWord_number (words : list WordPair) (seed : Z) (l : CW.layout)
  (e : CW.entry) :
  generateCrossword toUpperCase words seed = Ok l ->
  e ∈ CW.placedWords l ->
  exists cell w n,
    cell_at (CW.grid l) (CW.x e) (CW.y e) = Some cell /\
    startWord (CW.placedWords l) cell = Some w /\
    CW.number w = Some n /\ CW.number e = Some n /\
    1 <= n <= len (CW.placedWords l).
Proof.
  intros (first & rest & grid & e0 & more & minX & minY & _ & _ & _ & _ & _ &
          HminX & HminY & Hw & Hh & Hbox & Hcrop & Hwords)%generateCrossword_layout He.
  set (placed := e0 :: more) in *.
  set (ws := shift_entry minX minY <$> placed) in *.
  set (m := number_from 0 (sorted_starts ws) ∅).
  assert (Hfinal : forall e', e' ∈ CW.placedWords l ->
            exists e1, e1 ∈ placed /\ e' = with_number m (shift_entry minX minY e1)).
  { intros e' He'. rewrite Hwords in He'. apply final_entry in He'. exact He'. }
  assert (Hnum : forall e', e' ∈ CW.placedWords l -> CW.number e' = m !! (CW.x e', CW.y e')).
  { intros e' (e1 & _ & ->)%Hfinal. reflexivity. }
  destruct (Hfinal e He) as (e1 & He1 & Heq).
  assert (Hx : CW.x e = CW.x e1 - minX) by (rewrite Heq; reflexivity).
  assert (Hy : CW.y e = CW.y e1 - minY) by (rewrite Heq; reflexivity).
  pose proof (Hbox e1 He1) as Hb. unfold end_x, end_y in Hb.
  assert (0 <= len (CW.word e1)) by (unfold len; lia).
  assert (HX : 0 <= CW.x e < CW.width l) by (repeat case_decide; lia).
  assert (HY : 0 <= CW.y e < CW.height l) by (repeat case_decide; lia).
  pose proof (cell_at_crop _ _ _ _ _ _ _ _ Hcrop HX HY) as Hcell.
  destruct (sorted_starts_spec ws) as (_ & Hnd & Hmem).
  assert (Hstart : (CW.x e, CW.y e) ∈ sorted_starts ws).
  { apply Hmem. exists (shift_entry minX minY e1).
    split; [apply list_elem_of_fmap_2, He1 |]. rewrite Heq. reflexivity. }
  apply list_elem_of_lookup in Hstart as [i Hi].
  pose proof (number_from_lookup _ 0 ∅ i _ Hnd Hi) as Hn. fold m in Hn.
  pose proof (lookup_lt_Some _ _ _ Hi) as Hlt.
  pose proof (sorted_starts_length ws) as Hlen.
  assert (Hsame : length (CW.placedWords l) = length ws).
  { rewrite Hwords. unfold assign_numbers. rewrite length_fmap. reflexivity. }
  destruct (startWord (CW.placedWords l) (cropped_cell grid minX minY (CW.x e) (CW.y e)))
    as [w |] eqn:Hfind.
  - pose proof Hfind as Hstartw.
    apply find_some in Hfind as [Hin [Hwx Hwy]%andb_prop].
    apply Z.eqb_eq in Hwx, Hwy.
    destruct (cropped_cell_xy grid minX minY (CW.x e) (CW.y e)) as [Hcx Hcy].
    rewrite Hcx in Hwx. rewrite Hcy in Hwy.
    exists (cropped_cell grid minX minY (CW.x e) (CW.y e)), w, (0 + Z.of_nat i + 1).
    split; [exact Hcell |]. split; [exact Hstartw |].
    split; [rewrite (Hnum w (proj2 (list_elem_of_In _ _) Hin)), Hwx, Hwy; exact Hn |].
    split; [rewrite (Hnum e He); exact Hn |].
    unfold len. lia.
  - exfalso. unfold startWord in Hfind.
    pose proof (find_none _ _ Hfind e (proj1 (list_elem_of_In _ _) He)) as Hnone.
    cbn beta in Hnone.
    destruct (cropped_cell_xy grid minX minY (CW.x e) (CW.y e)) as [Hcx Hcy].
    rewrite Hcx, Hcy, !Z.eqb_refl in Hnone. discriminate Hnone.
Qed.

End CrosswordResult.

Lemma generateCrossword_grid_shape_witness :
  generateCrossword upper_latin sample_words 5 = Ok sample_crossword /\
  len (CW.grid sample_crossword) = CW.height sample_crossword /\
  Forall (fun row => len row = CW.width sample_crossword) (CW.grid sample_crossword).
Proof.
  split; [exact sample_crossword_run |].
  pose proof (generateCrossword_grid_shape upper_latin sample_words 5 sample_crossword
                sample_crossword_run) as (Hrows & Hcols & _).
  split; [exact Hrows | exact Hcols].
Defined.

Lemma generateCrossword_no_stray_letter_witness :
  generateCrossword upper_latin sample_words 5 = Ok sample_crossword /\
  char_at (CW.grid sample_crossword) 2 1 = Some 66%N /\
  exists e k, e ∈ CW.placedWords sample_crossword /\
              at_index (CW.word e) k = Some 66%N /\ cw_cell e k = (2, 1).
Proof.
  assert (Hc : char_at (CW.grid sample_crossword) 2 1 = Some 66%N) by reflexivity.
  split; [exact sample_crossword_run |]. split; [exact Hc |].
  exact (generateCrossword_no_stray_letter upper_latin sample_words 5 sample_crossword
           2 1 66%N sample_crossword_run Hc).
Defined.

Lemma generateCrossword_entries_witness :
  generateCrossword upper_latin sample_words 5 = Ok sample_crossword /\
  sortedWords sample_words = wp "robot" :: [wp "boat"; wp "tab"; wp "orb"] /\
  exists e more, CW.placedWords sample_crossword = e :: more /\
    CW.word e = cleanWord upper_latin (word (wp "robot")) /\
    CW.clue e = definition (wp "robot") /\
    CW.direction e = across /\
    ((fun e => (CW.word e, CW.clue e)) <$> more) `sublist_of`
      ((fun w => (cleanWord upper_latin (word w), definition w))
         <$> [wp "boat"; wp "tab"; wp "orb"]) /\
    Forall (fun e => 0 < len (CW.word e)) more.
Proof.
  assert (Hs : sortedWords sample_words = wp "robot" :: [wp "boat"; wp "tab"; wp "orb"])
    by reflexivity.
  split; [exact sample_crossword_run |]. split; [exact Hs |].
  exact (generateCrossword_entries upper_latin sample_words 5 sample_crossword _ _
           sample_crossword_run Hs).
Defined.

Lemma generateCrossword_first_word_limit_witness :
  sortedWords sample_words = wp "robot" :: [wp "boat"; wp "tab"; wp "orb"] /\
  len (cleanWord upper_latin (word (wp "robot"))) <= gridSize /\
  exists l, generateCrossword upper_latin sample_words 5 = Ok l.
Proof.
  assert (Hs : sortedWords sample_words = wp "robot" :: [wp "boat"; wp "tab"; wp "orb"])
    by reflexivity.
  assert (Hlen : len (cleanWord upper_latin (word (wp "robot"))) <= gridSize)
    by (vm_compute; discriminate).
  split; [exact Hs |]. split; [exact Hlen |].
  exact (proj1 (generateCrossword_first_word_limit upper_latin sample_words 5 _ _ Hs) Hlen).
Defined.

Lemma startWord_number_witness :
  let e := {| CW.word := units "BOAT"; CW.clue := []; CW.x := 2; CW.y := 1;
              CW.direction := down; CW.number := Some 1 |} in
  generateCrossword upper_latin sample_words 5 = Ok sample_crossword /\
  e ∈ CW.placedWords sample_crossword /\
  exists cell w n,
    cell_at (CW.grid sample_crossword) (CW.x e) (CW.y e) = Some cell /\
    startWord (CW.placedWords sample_crossword) cell = Some w /\
    CW.number w = Some n /\ CW.number e = Some n /\
    1 <= n <= len (CW.placedWords sample_crossword).
Proof.
  intros e.
  assert (He : e ∈ CW.placedWords sample_crossword) by (vm_compute; right; left).
  split; [exact sample_crossword_run |]. split; [exact He |].
  exact (startWord_number upper_latin sample_words 5 sample_crossword e
           sample_crossword_run He).
Defined.

(** ** The seed *)

Lemma same_next_refl (rng : Random) : same_next rng rng.
Proof. reflexivity. Qed.

Lemma outcome_rel_refl {A} (R : A -> A -> Prop) (o : outcome A) :
  (forall a, R a a) -> outcome_rel R o o.
Proof. intros HR. destruct o; cbn; auto. Qed.

Lemma same_next_first_state (seed seed' : Z) :
  state_after (new_Random seed) 1 = state_after (new_Random seed') 1 ->
  same_next (new_Random seed) (new_Random seed').
Proof.
  cbn [state_after]. unfold same_next. intros H.
  rewrite (surjective_pairing (next (new_Random seed))).
  rewrite (surjective_pairing (next (new_Random seed'))).
  rewrite !next_value, H. reflexivity.
Qed.

Lemma next_congruent (seed seed' : Z) :
  0 <= seed -> 0 <= seed' ->
  seed * 9301 + 49297 < 2 ^ 53 -> seed' * 9301 + 49297 < 2 ^ 53 ->
  seed mod 233280 = seed' mod 233280 ->
  same_next (new_Random seed) (new_Random seed').
Proof.
  intros H0 H0' H1 H1' Hmod. apply same_next_first_state. cbn [state_after].
  unfold new_Random. rewrite !next_exact by assumption.
  rewrite (Z.add_mod (seed * 9301)), (Z.add_mod (seed' * 9301)) by lia.
  rewrite (Z.mul_mod seed), (Z.mul_mod seed') by lia.
  rewrite Hmod. reflexivity.
Qed.

(** X13: for two non-negative seeds that are congruent modulo 233280 and
    small enough for the first state to be computed without rounding, the
    two generators return the same values, call after call. *)
Theorem outputs_seed_modulo (seed seed' : Z) (n : nat) :
  0 <= seed -> 0 <= seed' ->
  seed * 9301 + 49297 < 2 ^ 53 -> seed' * 9301 + 49297 < 2 ^ 53 ->
  seed mod 233280 = seed' mod 233280 ->
  outputs (new_Random seed) n = outputs (new_Random seed') n.
Proof.
  intros H0 H0' H1 H1' Hmod.
  pose proof (next_congruent seed seed' H0 H0' H1 H1' Hmod) as Hnext.
  destruct n as [|n]; [reflexivity |]. cbn [outputs].
  unfold same_next in Hnext. rewrite Hnext. reflexivity.
Qed.

Lemma outputs_seed_modulo_witness :
  0 <= 1 /\ 0 <= 233281 /\ 1 mod 233280 = 233281 mod 233280 /\
  outputs (new_Random 1) 5 = outputs (new_Random 233281) 5.
Proof.
  split; [lia |]. split; [lia |]. split; [reflexivity |].
  apply (outputs_seed_modulo 1 233281 5); (lia || reflexivity).
Defined.

Lemma shuffle_loop_same_next {T} (i : nat) (rng rng' : Random) (a : jsarray T) :
  same_next rng rng' -> shuffle_loop i rng a = shuffle_loop i rng' a.
Proof.
  intros H. destruct i as [|i]; [reflexivity |]. cbn [shuffle_loop].
  unfold same_next in H. rewrite H. reflexivity.
Qed.

Lemma choose_direction_rel (grid : list (list GridCell.t)) (x y : Z) (rng rng' : Random) :
  same_next rng rng' ->
  (choose_direction grid x y rng).1 = (choose_direction grid x y rng').1 /\
  same_next (choose_direction grid x y rng).2 (choose_direction grid x y rng').2.
Proof.
  intros H. unfold choose_direction.
  destruct (_ && _); [split; [reflexivity | exact H] |].
  destruct (_ && _); [split; [reflexivity | exact H] |].
  destruct (_ && _); [| split; [reflexivity | exact H]].
  unfold same_next in H. rewrite H. destruct (next rng') as [v r].
  split; reflexivity.
Qed.

Section SeedOnlyThroughNext.
Variable toUpperCase : jsstring -> jsstring.

Lemma attempt_loop_rel (fuel : nat) (size : Z) (term : jsstring) (st st' : ws_state) :
  ws_rel st st' ->
  outcome_rel ws_rel (attempt_loop fuel size term st) (attempt_loop fuel size term st').
Proof.
  intros Hrel. destruct fuel as [|fuel]; [exact Hrel |].
  destruct st as [[rng g] p], st' as [[rng' g'] p'].
  destruct Hrel as (Hnext & Hg & Hp). cbn [fst snd] in Hnext, Hg, Hp. subst g' p'.
  cbn [attempt_loop]. unfold same_next in Hnext. rewrite Hnext.
  apply outcome_rel_refl. intros a. repeat split.
Qed.

Lemma place_words_rel (size : Z) (items : list WordPair) (st st' : ws_state) :
  ws_rel st st' ->
  outcome_rel ws_rel (place_words toUpperCase size items st)
                     (place_words toUpperCase size items st').
Proof.
  revert st st'. induction items as [|item items IH]; intros st st' Hrel; [exact Hrel |].
  rewrite !place_words_cons.
  pose proof (attempt_loop_rel 100 size (cleanWord toUpperCase (word item)) st st' Hrel)
    as Hone.
  destruct (attempt_loop 100 size _ st) as [st1 | |],
           (attempt_loop 100 size _ st') as [st1' | |];
    cbn [outcome_rel] in Hone; try contradiction; cbn [mbind outcome_bind]; [| exact I ..].
  apply IH, Hone.
Qed.

Lemma fill_cell_rel (st st' : Random * list (list wscell)) (p : Z * Z) :
  fill_rel st st' -> outcome_rel fill_rel (fill_cell st p) (fill_cell st' p).
Proof.
  destruct st as [rng g], st' as [rng' g'], p as [x y].
  intros [Hnext Hg]. cbn [fst snd] in Hnext, Hg. subst g'. unfold fill_cell.
  destruct (grid_read g x y) as [c | |]; cbn [mbind outcome_bind]; try exact I.
  case_bool_decide as Hblank.
  - unfold same_next in Hnext. rewrite Hnext. destruct (next rng') as [v r].
    split; reflexivity.
  - split; [exact Hnext | reflexivity].
Qed.

Lemma fill_loop_rel (ps : list (Z * Z)) (st st' : Random * list (list wscell)) :
  fill_rel st st' -> outcome_rel fill_rel (fill_loop ps st) (fill_loop ps st').
Proof.
  revert st st'. induction ps as [|p ps IH]; intros st st' Hrel; [exact Hrel |].
  cbn [fill_loop]. pose proof (fill_cell_rel st st' p Hrel) as Hone.
  destruct (fill_cell st p) as [st1 | |], (fill_cell st' p) as [st1' | |];
    cbn [outcome_rel] in Hone; try contradiction; cbn [mbind outcome_bind]; [| exact I ..].
  apply IH, Hone.
Qed.

Lemma generateWordSearch_same_next (words : list WordPair) (size seed seed' : Z) :
  same_next (new_Random seed) (new_Random seed') ->
  generateWordSearch toUpperCase words size seed
  = generateWordSearch toUpperCase words size seed'.
Proof.
  intros Hnext. unfold generateWordSearch.
  destruct (_ || _); [reflexivity |].
  set (g := replicate _ _).
  pose proof (place_words_rel size (sortedWords words)
                (new_Random seed, g, []) (new_Random seed', g, [])
                ltac:(repeat split; assumption)) as Hplace.
  destruct (place_words toUpperCase size _ (new_Random seed, g, []))
    as [[[r1 g1] p1] | |],
    (place_words toUpperCase size _ (new_Random seed', g, []))
    as [[[r1' g1'] p1'] | |];
    cbn [outcome_rel] in Hplace; try contradiction; cbn [mbind outcome_bind];
    [| reflexivity ..].
  destruct Hplace as (Hn1 & Hg1 & Hp1). cbn [fst snd] in Hn1, Hg1, Hp1. subst g1' p1'.
  pose proof (fill_loop_rel (row_major size size) (r1, g1) (r1', g1)
                ltac:(split; [exact Hn1 | reflexivity])) as Hfill.
  destruct (fill_loop _ (r1, g1)) as [[r2 g2] | |],
           (fill_loop _ (r1', g1)) as [[r2' g2'] | |];
    cbn [outcome_rel] in Hfill; try contradiction; cbn [mbind outcome_bind];
    [| reflexivity ..].
  destruct Hfill as [_ Hg2]. cbn [snd] in Hg2. subst g2'. reflexivity.
Qed.

Lemma try_indices_rel (grid : Canvas) (term : jsstring) (x y : Z)
  (possibleIndices : list Z) (rng rng' : Random) :
  same_next rng rng' ->
  same_next (try_indices grid term x y possibleIndices rng).1
            (try_indices grid term x y possibleIndices rng').1 /\
  (try_indices grid term x y possibleIndices rng).2
  = (try_indices grid term x y possibleIndices rng').2.
Proof.
  revert rng rng'. induction possibleIndices as [|charIdx rest IH]; intros rng rng' H.
  { split; [exact H | reflexivity]. }
  cbn [try_indices].
  destruct (choose_direction_rel grid x y rng rng' H) as [Hd Hr].
  destruct (choose_direction grid x y rng) as [d r],
           (choose_direction grid x y rng') as [d' r'].
  cbn [fst snd] in Hd, Hr. subst d'.
  destruct d as [d |]; [| apply IH, Hr].
  destruct (cw_fits _ _ _ _ _ _ _); [split; [exact Hr | reflexivity] | apply IH, Hr].
Qed.

Lemma try_cells_rel (grid : Canvas) (term : jsstring) (scanOrder : list (Z * Z))
  (rng rng' : Random) :
  same_next rng rng' ->
  same_next (try_cells grid term scanOrder rng).1 (try_cells grid term scanOrder rng').1 /\
  (try_cells grid term scanOrder rng).2 = (try_cells grid term scanOrder rng').2.
Proof.
  revert rng rng'. induction scanOrder as [|[x y] rest IH]; intros rng rng' H.
  { split; [exact H | reflexivity]. }
  cbn [try_cells].
  destruct (char_at grid x y) as [cellChar |]; [| apply IH, H].
  case_bool_decide as Hin; [| apply IH, H].
  destruct (try_indices_rel grid term x y (indices_of term cellChar) rng rng' H)
    as [Hr Hf].
  destruct (try_indices grid term x y _ rng) as [r f],
           (try_indices grid term x y _ rng') as [r' f'].
  cbn [fst snd] in Hr, Hf. subst f'.
  destruct f as [f |]; [split; [exact Hr | reflexivity] | apply IH, Hr].
Qed.

Lemma place_next_rel (currentPair : WordPair) (st st' : cw_state) :
  cw_rel st st' ->
  outcome_rel cw_rel (place_next toUpperCase currentPair st)
                     (place_next toUpperCase currentPair st').
Proof.
  destruct st as [[rng g] p], st' as [[rng' g'] p'].
  intros (Hnext & Hg & Hp). cbn [fst snd] in Hnext, Hg, Hp. subst g' p'.
  unfold place_next.
  set (term := cleanWord toUpperCase (word currentPair)).
  set (scanOrder := List.filter _ _).
  destruct (try_cells_rel g term scanOrder rng rng' Hnext) as [Hr Hf].
  destruct (try_cells g term scanOrder rng) as [r f],
           (try_cells g term scanOrder rng') as [r' f'].
  cbn [fst snd] in Hr, Hf. subst f'.
  destruct f as [[[d sx] sy] |]; [| repeat split; assumption].
  destruct (write_term g d sx sy 0 term); cbn [mbind outcome_bind outcome_rel];
    [repeat split; assumption | exact I ..].
Qed.

Lemma place_rest_rel (pairs : list WordPair) (st st' : cw_state) :
  cw_rel st st' ->
  outcome_rel cw_rel (place_rest toUpperCase pairs st) (place_rest toUpperCase pairs st').
Proof.
  revert st st'. induction pairs as [|w pairs IH]; intros st st' Hrel; [exact Hrel |].
  cbn [place_rest]. pose proof (place_next_rel w st st' Hrel) as Hone.
  destruct (place_next toUpperCase w st) as [st1 | |],
           (place_next toUpperCase w st') as [st1' | |];
    cbn [outcome_rel] in Hone; try contradiction; cbn [mbind outcome_bind]; [| exact I ..].
  apply IH, Hone.
Qed.

Lemma place_rest_same_next (pairs : list WordPair) (seed seed' : Z) (g0 : Canvas)
  (p0 : list CW.entry) {B} (k : Canvas -> list CW.entry -> outcome B) :
  same_next (new_Random seed) (new_Random seed') ->
  (place_rest toUpperCase pairs (new_Random seed, g0, p0)
     ≫= fun '(_, grid, placedWords) => k grid placedWords)
  = (place_rest toUpperCase pairs (new_Random seed', g0, p0)
       ≫= fun '(_, grid, placedWords) => k grid placedWords).
Proof.
  intros Hnext.
  pose proof (place_rest_rel pairs (new_Random seed, g0, p0) (new_Random seed', g0, p0)
                ltac:(repeat split; assumption)) as Hrest.
  destruct (place_rest toUpperCase _ (new_Random seed, g0, p0)) as [[[r g] p] | |],
           (place_rest toUpperCase _ (new_Random seed', g0, p0)) as [[[r' g'] p'] | |];
    cbn [outcome_rel] in Hrest; try contradiction; cbn [mbind outcome_bind];
    [| reflexivity ..].
  destruct Hrest as (_ & Hg & Hp). cbn [fst snd] in Hg, Hp. subst g' p'. reflexivity.
Qed.

Lemma generateCrossword_same_next (words : list WordPair) (seed seed' : Z) :
  same_next (new_Random seed) (new_Random seed') ->
  generateCrossword toUpperCase words seed = generateCrossword toUpperCase words seed'.
Proof.
  intros Hnext. unfold generateCrossword.
  destruct (sortedWords words) as [|first rest]; cbn [tail].
  - cbn [mbind outcome_bind]. apply (place_rest_same_next [] seed seed' _ _ _ Hnext).
  - destruct (place_first toUpperCase first blank_canvas) as [[g0 p0] | |];
      cbn [mbind outcome_bind]; [| reflexivity ..].
    apply (place_rest_same_next rest seed seed' _ _ _ Hnext).
Qed.

(** X14: the three seeded functions use the seed only to compute the first
    state of the generator: two seeds with the same first state give the
    same shuffle, the same scramble, the same word search and the same
    crossword. At most 466559 different results exist for an input. *)
Theorem seed_only_through_first_state (seed seed' : Z) :
  state_after (new_Random seed) 1 = state_after (new_Random seed') 1 ->
  -233280 < state_after (new_Random seed) 1 < 233280 /\
  (forall w, scrambleWord w seed = scrambleWord w seed') /\
  (forall words : list WordPair, shuffleArray words seed = shuffleArray words seed') /\
  (forall words size,
     generateWordSearch toUpperCase words size seed
     = generateWordSearch toUpperCase words size seed') /\
  (forall words,
     generateCrossword toUpperCase words seed = generateCrossword toUpperCase words seed').
Proof.
  intros Hnext%same_next_first_state.
  split; [cbn [state_after]; apply next_bounds |].
  split; [| split; [| split]].
  - intros w. unfold scrambleWord, shuffleArray.
    rewrite (shuffle_loop_same_next _ _ _ _ Hnext). reflexivity.
  - intros words. unfold shuffleArray.
    rewrite (shuffle_loop_same_next _ _ _ _ Hnext). reflexivity.
  - intros words size. apply generateWordSearch_same_next, Hnext.
  - intros words. apply generateCrossword_same_next, Hnext.
Qed.

End SeedOnlyThroughNext.

Lemma seed_only_through_first_state_witness :
  state_after (new_Random 1) 1 = state_after (new_Random 233281) 1 /\
  generateCrossword upper_latin sample_words 1
  = generateCrossword upper_latin sample_words 233281.
Proof.
  assert (H : state_after (new_Random 1) 1 = state_after (new_Random 233281) 1)
    by reflexivity.
  split; [exact H |].
  exact (proj2 (proj2 (proj2 (proj2
           (seed_only_through_first_state upper_latin 1 233281 H)))) sample_words).
Defined.

(** ** The vocabulary box *)

Lemma trim_start_fix (s : jsstring) : starts_clean s -> trim_start s = s.
Proof. destruct s as [|c s]; [reflexivity |]. cbn. intros ->. reflexivity. Qed.

Lemma trim_start_clean (s : jsstring) : starts_clean (trim_start s).
Proof.
  induction s as [|c s IH]; [exact I |]. cbn [trim_start].
  destruct (is_white_space c) eqn:Hc; [exact IH | exact Hc].
Qed.

Lemma trim_start_suffix (s : jsstring) :
  exists p, s = p ++ trim_start s /\ Forall (fun c => is_white_space c = true) p.
Proof.
  induction s as [|c s (p & Hp & Hws)]; [exists []; split; [reflexivity | constructor] |].
  cbn [trim_start]. destruct (is_white_space c) eqn:Hc.
  - exists (c :: p). split; [cbn; f_equal; exact Hp | constructor; assumption].
  - exists []. split; [reflexivity | constructor].
Qed.

Lemma trim_start_nil (s : jsstring) :
  trim_start s = [] <-> Forall (fun c => is_white_space c = true) s.
Proof.
  split.
  - intros H. destruct (trim_start_suffix s) as (p & Hp & Hws).
    rewrite H, app_nil_r in Hp. subst p. exact Hws.
  - induction 1 as [|c s Hc _ IH]; [reflexivity |]. cbn. rewrite Hc. exact IH.
Qed.

Lemma trim_clean (s : jsstring) : starts_clean (trim s) /\ ends_clean (trim s).
Proof.
  unfold trim, ends_clean. rewrite reverse_involutive.
  split; [| apply trim_start_clean].
  pose proof (trim_start_clean s) as Ha.
  destruct (trim_start_suffix (reverse (trim_start s))) as (p & Hp & _).
  apply (f_equal reverse) in Hp. rewrite reverse_involutive, reverse_app in Hp.
  destruct (reverse (trim_start (reverse (trim_start s)))) as [|c t]; [exact I |].
  rewrite Hp in Ha. exact Ha.
Qed.

Lemma trim_fix (s : jsstring) : starts_clean s -> ends_clean s -> trim s = s.
Proof.
  intros Hs He. unfold trim. rewrite (trim_start_fix s Hs).
  rewrite (trim_start_fix _ He). apply reverse_involutive.
Qed.

Lemma trim_fix_iff (s : jsstring) : trim s = s <-> starts_clean s /\ ends_clean s.
Proof.
  split; [intros <-; apply trim_clean | intros [Hs He]; apply trim_fix; assumption].
Qed.

Lemma trim_nil (s : jsstring) :
  trim s = [] <-> Forall (fun c => is_white_space c = true) s.
Proof.
  unfold trim. rewrite <- trim_start_nil. split.
  - intros H. apply (f_equal reverse) in H. rewrite reverse_involutive in H.
    cbn in H. apply trim_start_nil in H. apply (proj1 (Forall_reverse _ _)) in H.
    pose proof (trim_start_clean s) as Hc.
    destruct (trim_start s) as [|c t]; [reflexivity |].
    apply Forall_cons in H as [Hws _]. cbn in Hc. congruence.
  - intros ->. reflexivity.
Qed.

Lemma trim_Forall (P : code_unit -> Prop) (s : jsstring) :
  Forall P s -> Forall P (trim s).
Proof.
  intros H. unfold trim. apply (proj2 (Forall_reverse _ _)).
  destruct (trim_start_suffix s) as (p & Hp & _).
  destruct (trim_start_suffix (reverse (trim_start s))) as (q & Hq & _).
  rewrite Hp in H. apply Forall_app in H as [_ H].
  apply (proj2 (Forall_reverse _ _)) in H. rewrite Hq in H.
  apply Forall_app in H as [_ H]. exact H.
Qed.

Lemma ends_clean_app (s t : jsstring) : t <> [] -> ends_clean t -> ends_clean (s ++ t).
Proof.
  unfold ends_clean. rewrite reverse_app. intros Hne Ht.
  destruct (reverse t) as [|c r] eqn:Hr; [| exact Ht].
  apply (f_equal reverse) in Hr. rewrite reverse_involutive in Hr. contradiction.
Qed.

Lemma ends_clean_suffix (s t : jsstring) : t <> [] -> ends_clean (s ++ t) -> ends_clean t.
Proof.
  unfold ends_clean. rewrite reverse_app. intros Hne Hst.
  destruct (reverse t) as [|c r] eqn:Hr; [exact I | exact Hst].
Qed.

Lemma split_lines_cons (text : jsstring) :
  exists line lines, split_lines text = line :: lines.
Proof.
  destruct text as [|c text]; cbn; [eauto |].
  destruct (c =? 10)%N; [eauto |]. destruct (split_lines text); eauto.
Qed.

Lemma split_lines_no_newline (text : jsstring) :
  Forall (Forall (fun c => c <> 10%N)) (split_lines text).
Proof.
  induction text as [|c text IH]; [repeat constructor |]. cbn [split_lines].
  destruct (N.eqb_spec c 10); [constructor; [constructor | exact IH] |].
  destruct (split_lines text) as [|line lines]; [repeat constructor; assumption |].
  apply Forall_cons in IH as [Hline Hlines].
  constructor; [constructor; assumption | exact Hlines].
Qed.

Lemma split_lines_within (text : jsstring) (P : code_unit -> Prop) :
  Forall P text -> Forall (Forall P) (split_lines text).
Proof.
  induction 1 as [|c text Hc _ IH]; [repeat constructor |]. cbn [split_lines].
  destruct (c =? 10)%N; [constructor; [constructor | exact IH] |].
  destruct (split_lines text) as [|line lines]; [repeat constructor; assumption |].
  apply Forall_cons in IH as [Hline Hlines].
  constructor; [constructor; assumption | exact Hlines].
Qed.

Lemma split_lines_join (line : jsstring) (lines : list jsstring) :
  Forall (fun c => c <> 10%N) line -> Forall (Forall (fun c => c <> 10%N)) lines ->
  split_lines (line ++ flat_map (fun l => 10%N :: l) lines) = line :: lines.
Proof.
  intros Hline Hlines. revert line Hline.
  induction Hlines as [|l lines Hl _ IH]; intros line Hline.
  - cbn [flat_map]. rewrite app_nil_r.
    induction Hline as [|c line Hc _ IHl]; [reflexivity |]. cbn [split_lines].
    destruct (N.eqb_spec c 10); [contradiction |]. rewrite IHl. reflexivity.
  - cbn [flat_map]. specialize (IH l Hl).
    induction Hline as [|c line Hc _ IHl].
    + cbn [app split_lines]. rewrite N.eqb_refl. f_equal. exact IH.
    + cbn [app split_lines]. destruct (N.eqb_spec c 10); [contradiction |].
      cbn [app] in IHl. rewrite IHl. reflexivity.
Qed.

Lemma span_word_spec (s m1 rest : jsstring) :
  span_word s = (m1, rest) ->
  s = m1 ++ rest /\ Forall (fun c => is_separator c = false) m1 /\
  match rest with c :: _ => is_separator c = true | [] => True end.
Proof.
  revert m1 rest. induction s as [|c s IH]; intros m1 rest H.
  { injection H as <- <-. repeat split; constructor. }
  cbn [span_word] in H. destruct (is_separator c) eqn:Hc.
  - injection H as <- <-. repeat split; [constructor | exact Hc].
  - destruct (span_word s) as [w r]. injection H as <- <-.
    destruct (IH w r eq_refl) as (-> & Hw & Hr).
    repeat split; [constructor; assumption | exact Hr].
Qed.

Lemma span_word_app (w rest : jsstring) (c : code_unit) :
  Forall (fun c => is_separator c = false) w -> is_separator c = true ->
  span_word (w ++ c :: rest) = (w, c :: rest).
Proof.
  intros Hw Hc. induction Hw as [|a w Ha _ IH]; cbn [app span_word].
  - rewrite Hc. reflexivity.
  - rewrite Ha, IH. reflexivity.
Qed.

Lemma match_pair_Some (trimmed m1 m2 : jsstring) :
  match_pair trimmed = Some (m1, m2) ->
  exists sep, trimmed = m1 ++ sep :: m2 /\ is_separator sep = true /\
    m1 <> [] /\ m2 <> [] /\
    Forall (fun c => is_separator c = false) m1 /\
    Forall (fun c => is_line_terminator c = false) m2.
Proof.
  unfold match_pair. destruct (span_word trimmed) as [w rest] eqn:Hspan.
  destruct w as [|a w]; [discriminate |].
  destruct rest as [|sep [|b d]]; try discriminate.
  destruct (forallb (fun c => negb (is_line_terminator c)) (b :: d)) eqn:Hall;
    [| discriminate]. intros [= <- <-].
  destruct (span_word_spec _ _ _ Hspan) as (Heq & Hw & Hsep).
  exists sep. repeat split; try assumption; try discriminate.
  apply Forall_forall. intros c Hc.
  rewrite forallb_forall in Hall. specialize (Hall c (proj1 (list_elem_of_In _ _) Hc)).
  destruct (is_line_terminator c); [discriminate Hall | reflexivity].
Qed.

Lemma line_terminator_white_space (c : code_unit) :
  is_white_space c = false -> is_line_terminator c = false.
Proof. unfold is_white_space. intros [_ H]%orb_false_elim. exact H. Qed.

Section VocabularyBox.
Variable toLowerCase : jsstring -> jsstring.
Variable randomUUID : nat -> jsstring.
Variable errorNoPairs : jsstring.

Lemma parse_line_inv (st : list WordPair * list jsstring) (line : jsstring) :
  Forall (fun c => c <> 10%N) line -> parse_inv toLowerCase randomUUID st ->
  parse_inv toLowerCase randomUUID (parse_line toLowerCase randomUUID st line).
Proof.
  intros Hnl Hinv. destruct st as [newWords seen]. unfold parse_line.
  destruct (trim line) as [|t0 ts] eqn:Htrim; [exact Hinv |].
  destruct (match_pair (t0 :: ts)) as [[m1 m2] |] eqn:Hmatch; [| exact Hinv].
  case_bool_decide as Hseen; [exact Hinv |].
  destruct Hinv as (Hs & Hnd & Hall). cbn [fst snd] in Hs, Hnd, Hall.
  destruct (match_pair_Some _ _ _ Hmatch) as (sep & Heq & Hsep & Hm1 & Hm2 & Hw & Hd).
  destruct (trim_clean line) as [Hstart Hend]. rewrite Htrim, Heq in Hstart, Hend.
  assert (Hline : Forall (fun c => c <> 10%N) (m1 ++ sep :: m2)).
  { rewrite <- Heq, <- Htrim. apply trim_Forall, Hnl. }
  apply Forall_app in Hline as [Hm1nl _].
  assert (Hword : trim m1 <> []).
  { intros Hnil%trim_nil. destruct m1 as [|a m1]; [contradiction |].
    apply Forall_cons in Hnil as [Ha _]. cbn in Hstart. congruence. }
  assert (Hdef : trim m2 <> []).
  { intros Hnil%trim_nil.
    assert (Hend' : ends_clean ((m1 ++ [sep]) ++ m2))
      by (rewrite <- app_assoc; exact Hend).
    apply (ends_clean_suffix (m1 ++ [sep]) m2 Hm2) in Hend'. clear Hend.
    rename Hend' into Hend.
    unfold ends_clean in Hend. apply (proj2 (Forall_reverse _ _)) in Hnil.
    destruct (reverse m2) as [|a r] eqn:Hr.
    - apply (f_equal reverse) in Hr. rewrite reverse_involutive in Hr. contradiction.
    - apply Forall_cons in Hnil as [Ha _]. cbn in Hend. congruence. }
  split; [| split]; cbn [fst snd].
  - rewrite fmap_app, Hs. reflexivity.
  - apply NoDup_app. split; [exact Hnd |]. split; [| apply NoDup_singleton].
    intros x Hx ->%list_elem_of_singleton. contradiction.
  - intros i w Hi. apply lookup_app_Some in Hi as [Hi | [Hge Hi]]; [apply Hall, Hi |].
    apply list_lookup_singleton_Some in Hi as [Hi <-].
    split; [cbn [id]; f_equal; lia |].
    unfold storable. cbn [word definition].
    split; [exact Hword |]. split; [apply trim_fix_iff, trim_clean |].
    split; [apply trim_Forall, Forall_forall; intros c Hc; split;
            [exact (proj1 (Forall_forall _ _) Hw c Hc)
            | exact (proj1 (Forall_forall _ _) Hm1nl c Hc)] |].
    split; [exact Hdef |]. split; [apply trim_fix_iff, trim_clean |].
    apply trim_Forall, Hd.
Qed.

Lemma parse_lines_inv (lines : list jsstring) (st : list WordPair * list jsstring) :
  Forall (Forall (fun c => c <> 10%N)) lines -> parse_inv toLowerCase randomUUID st ->
  parse_inv toLowerCase randomUUID (foldl (parse_line toLowerCase randomUUID) st lines).
Proof.
  intros Hlines. revert st. induction Hlines as [|line lines Hline _ IH]; intros st Hinv;
    [exact Hinv |].
  cbn [foldl]. apply IH, parse_line_inv; assumption.
Qed.

Lemma parse_lines_blank (lines : list jsstring) (st : list WordPair * list jsstring) :
  Forall (Forall (fun c => is_white_space c = true)) lines ->
  foldl (parse_line toLowerCase randomUUID) st lines = st.
Proof.
  induction 1 as [|line lines Hline _ IH]; [reflexivity |]. cbn [foldl].
  replace (parse_line toLowerCase randomUUID st line) with st; [exact IH |].
  destruct st as [newWords seen]. unfold parse_line.
  rewrite (proj2 (trim_nil line) Hline). reflexivity.
Qed.

(** X15: every pair [parseText] hands to [onUpdate] has a word and a
    definition that are trimmed and not empty, a word on one line without
    any of the separators [: - = ,], a definition without a line
    terminator and the identifier drawn for its position; no two of the
    pairs have the same word in lower case; and no error is shown with
    them. *)
Theorem parseText_pairs (text : jsstring) (err : option jsstring)
  (newWords : list WordPair) :
  parseText toLowerCase randomUUID errorNoPairs text = (err, Some newWords) ->
  err = None /\ newWords <> [] /\
  NoDup ((fun w => toLowerCase (word w)) <$> newWords) /\
  forall i w, newWords !! i = Some w -> id w = randomUUID i /\ storable w.
Proof.
  unfold parseText.
  pose proof (parse_lines_inv (split_lines text) ([], [])
                (split_lines_no_newline text)
                ltac:(split; [reflexivity | split; [constructor | intros i w Hi; discriminate Hi]]))
    as Hinv.
  destruct (foldl _ _ _) as [ws seen]. destruct Hinv as (Hs & Hnd & Hall).
  cbn [fst snd] in Hs, Hnd, Hall.
  destruct (Z.ltb_spec 0 (len ws)) as [Hpos | Hzero]; [| discriminate].
  destruct (Z.eqb_spec (len ws) 0) as [Hz | _]; [lia |]. cbn [andb].
  intros [= <- <-]. split; [reflexivity |].
  split; [intros ->; unfold len in Hpos; cbn in Hpos; lia |].
  split; [rewrite <- Hs; exact Hnd | exact Hall].
Qed.

(** X16: [parseText] neither shows the error nor calls [onUpdate] exactly
    when the text is blank, so clearing the box leaves the list of the
    application as it was; and it never does both. *)
Theorem parseText_blank (text : jsstring) :
  (parseText toLowerCase randomUUID errorNoPairs text = (None, None)
   <-> trim text = []) /\
  (forall err upd, parseText toLowerCase randomUUID errorNoPairs text = (err, upd) ->
     err = None \/ upd = None).
Proof.
  split.
  - split.
    + unfold parseText. destruct (foldl _ _ _) as [ws seen].
      destruct (Z.ltb_spec 0 (len ws)) as [Hpos | Hzero]; [discriminate |].
      destruct (Z.eqb_spec (len ws) 0) as [_ | Hnz]; [| unfold len in *; lia].
      cbn [andb]. destruct (Z.ltb_spec 0 (len (trim text))) as [| Hlen]; [discriminate |].
      intros _. destruct (trim text); [reflexivity | unfold len in Hlen; cbn in Hlen; lia].
    + intros Hblank. unfold parseText.
      rewrite parse_lines_blank by (apply split_lines_within, trim_nil, Hblank).
      rewrite Hblank. reflexivity.
  - intros err upd. unfold parseText. destruct (foldl _ _ _) as [ws seen].
    destruct (Z.ltb_spec 0 (len ws)) as [Hpos | Hzero].
    + destruct (Z.eqb_spec (len ws) 0) as [Hz | _]; [lia |]. cbn [andb].
      intros [= <- _]. left. reflexivity.
    + intros [= _ <-]. right. reflexivity.
Qed.

Lemma parse_line_Some (st : list WordPair * list jsstring) (line m1 m2 : jsstring) :
  trim line <> [] -> match_pair (trim line) = Some (m1, m2) ->
  parse_line toLowerCase randomUUID st line
  = if bool_decide (toLowerCase (trim m1) ∈ st.2) then st
    else (st.1 ++ [ {| id := randomUUID (length st.1); word := trim m1;
                       definition := trim m2 |} ],
          st.2 ++ [toLowerCase (trim m1)]).
Proof.
  destruct st as [newWords seen]. unfold parse_line. intros Hne Hmatch.
  destruct (trim line) as [|c cs]; [contradiction |]. rewrite Hmatch. reflexivity.
Qed.

Lemma parse_line_initial (w : WordPair) (st : list WordPair * list jsstring) :
  storable w -> toLowerCase (word w) ∉ st.2 ->
  parse_line toLowerCase randomUUID st (word w ++ [58%N; 32%N] ++ definition w)
  = (st.1 ++ [ {| id := randomUUID (length st.1); word := word w;
                  definition := definition w |} ],
     st.2 ++ [toLowerCase (word w)]).
Proof.
  intros (Hw & Hwt & Hwsep & Hd & Hdt & Hdlt) Hnew.
  apply trim_fix_iff in Hwt as [Hws Hwe]. apply trim_fix_iff in Hdt as [Hds Hde].
  assert (Hline : trim (word w ++ [58%N; 32%N] ++ definition w)
                  = word w ++ [58%N; 32%N] ++ definition w).
  { apply trim_fix.
    - destruct (word w); [contradiction | exact Hws].
    - rewrite app_assoc. apply ends_clean_app; assumption. }
  assert (Hmatch : match_pair (word w ++ [58%N; 32%N] ++ definition w)
                   = Some (word w, 32%N :: definition w)).
  { unfold match_pair. cbn [app].
    rewrite span_word_app;
      [| eapply Forall_impl; [exact Hwsep | intros c [Hc _]; exact Hc] | reflexivity].
    destruct (word w) as [|a m]; [contradiction |].
    replace (forallb (fun c => negb (is_line_terminator c)) (32%N :: definition w))
      with true; [reflexivity |].
    symmetry. apply forallb_forall. intros c Hc. apply list_elem_of_In in Hc.
    apply elem_of_cons in Hc as [-> | Hc]; [reflexivity |].
    rewrite (proj1 (Forall_forall _ _) Hdlt c Hc). reflexivity. }
  assert (Hword : trim (word w) = word w) by (apply trim_fix; assumption).
  assert (Hdef : trim (32%N :: definition w) = definition w).
  { unfold trim. cbn [trim_start]. change (is_white_space 32%N) with true. cbv iota.
    apply trim_fix; assumption. }
  rewrite (parse_line_Some st _ (word w) (32%N :: definition w)).
  - rewrite Hword, Hdef. rewrite bool_decide_eq_false_2 by exact Hnew. reflexivity.
  - rewrite Hline. destruct (word w); [contradiction | discriminate].
  - rewrite Hline. exact Hmatch.
Qed.

Lemma parse_lines_initial (words : list WordPair) (st : list WordPair * list jsstring) :
  Forall storable words ->
  NoDup (st.2 ++ ((fun w => toLowerCase (word w)) <$> words)) ->
  exists newWords seen,
    foldl (parse_line toLowerCase randomUUID) st
          ((fun w => word w ++ [58%N; 32%N] ++ definition w) <$> words)
    = (newWords, seen) /\
    (fun w => (word w, definition w)) <$> newWords
    = ((fun w => (word w, definition w)) <$> st.1)
      ++ ((fun w => (word w, definition w)) <$> words).
Proof.
  intros Hall. revert st. induction Hall as [|w words Hw _ IH]; intros st Hnd.
  { destruct st as [nw seen]. exists nw, seen. cbn. rewrite app_nil_r. split; reflexivity. }
  cbn [fmap list_fmap foldl].
  cbn [fmap list_fmap] in Hnd.
  rewrite parse_line_initial; [| exact Hw |].
  - destruct (IH (st.1 ++ [ {| id := randomUUID (length st.1); word := word w;
                               definition := definition w |} ],
                  st.2 ++ [toLowerCase (word w)])) as (nw & seen & Hfold & Heq).
    { cbn [snd]. rewrite <- app_assoc. exact Hnd. }
    exists nw, seen. split; [exact Hfold |]. rewrite Heq. cbn [fst].
    rewrite fmap_app, <- app_assoc. reflexivity.
  - apply NoDup_app in Hnd as (_ & Hdisj & _). intros Hin.
    apply (Hdisj _ Hin). left.
Qed.

(** X17: the text the box is first filled with parses back to the list it
    was made from: for a non-empty list of pairs as [parseText] makes
    them, with words distinct in lower case, [parseText] of that text
    shows no error and hands [onUpdate] the same words and definitions in
    the same order. *)
Theorem parseText_initial_text (words : list WordPair) :
  words <> [] -> Forall storable words ->
  NoDup ((fun w => toLowerCase (word w)) <$> words) ->
  exists newWords,
    parseText toLowerCase randomUUID errorNoPairs (initial_text words)
    = (None, Some newWords) /\
    (fun w => (word w, definition w)) <$> newWords
    = (fun w => (word w, definition w)) <$> words.
Proof.
  intros Hne Hall Hnd. unfold parseText, initial_text.
  destruct words as [|w words]; [contradiction |].
  rewrite fmap_cons. cbn [join_lines].
  assert (Hnl : Forall (Forall (fun c => c <> 10%N))
                  ((fun w => word w ++ [58%N; 32%N] ++ definition w) <$> w :: words)).
  { apply Forall_fmap. eapply Forall_impl; [exact Hall |].
    intros x (_ & _ & Hxw & _ & _ & Hxd). cbn.
    apply Forall_app. split; [eapply Forall_impl; [exact Hxw | intros c [_ Hc]; exact Hc] |].
    constructor; [discriminate |]. constructor; [discriminate |].
    eapply Forall_impl; [exact Hxd |]. intros c Hc ->. discriminate Hc. }
  rewrite fmap_cons in Hnl. apply Forall_cons in Hnl as [Hnl1 Hnl2].
  rewrite (split_lines_join _ _ Hnl1 Hnl2).
  destruct (parse_lines_initial (w :: words) ([], []) Hall Hnd)
    as (newWords & seen & Hfold & Heq).
  destruct (foldl _ _ _) as [nw sn] eqn:Hf.
  injection Hfold as -> ->. clear Hf.
  cbn [fst] in Heq. rewrite fmap_nil, app_nil_l, fmap_cons in Heq.
  assert (Hlen : 0 < len newWords).
  { apply (f_equal length) in Heq. rewrite length_fmap in Heq. cbn in Heq.
    unfold len. lia. }
  destruct (Z.ltb_spec 0 (len newWords)) as [_ |]; [| lia].
  destruct (Z.eqb_spec (len newWords) 0) as [|_]; [lia |]. cbn [andb].
  exists newWords. split; [reflexivity | exact Heq].
Qed.

End VocabularyBox.

Lemma parseText_pairs_witness :
  exists newWords,
    parseText lower_ascii sample_uuid (units "no pairs") sample_text
    = (None, Some newWords) /\
    len newWords = 2 /\
    NoDup ((fun w => lower_ascii (word w)) <$> newWords) /\
    forall i w, newWords !! i = Some w -> id w = sample_uuid i /\ storable w.
Proof.
  destruct sample_parse as [err [newWords |]] eqn:Hrun; [| discriminate Hrun].
  assert (Hparse : parseText lower_ascii sample_uuid (units "no pairs") sample_text
                   = (err, Some newWords)) by exact Hrun.
  pose proof (parseText_pairs lower_ascii sample_uuid (units "no pairs") sample_text
                err newWords Hparse) as (-> & _ & Hnd & Hall).
  exists newWords. split; [exact Hparse |]. split; [| split; [exact Hnd | exact Hall]].
  injection Hrun as <-. reflexivity.
Defined.

Lemma parseText_initial_text_witness :
  sample_vocab <> [] /\ NoDup ((fun w => lower_ascii (word w)) <$> sample_vocab) /\
  exists newWords,
    parseText lower_ascii sample_uuid (units "no pairs") (initial_text sample_vocab)
    = (None, Some newWords) /\
    (fun w => (word w, definition w)) <$> newWords
    = (fun w => (word w, definition w)) <$> sample_vocab.
Proof.
  assert (Hne : sample_vocab <> []) by discriminate.
  assert (Hnd : NoDup ((fun w => lower_ascii (word w)) <$> sample_vocab)) by compute_done.
  assert (Hall : Forall storable sample_vocab).
  { repeat constructor; try discriminate; try reflexivity. }
  split; [exact Hne |]. split; [exact Hnd |].
  exact (parseText_initial_text lower_ascii sample_uuid (units "no pairs") sample_vocab
           Hne Hall Hnd).
Defined.

(** ** Crossword: the clue lists and the padding *)

Lemma sort_insert_ext {A} (cmp cmp' : A -> A -> Z) (a : A) (l : list A) :
  (forall b, b ∈ l -> cmp a b = cmp' a b) ->
  sort_insert cmp a l = sort_insert cmp' a l.
Proof.
  induction l as [|b l IH]; intros H; [reflexivity |]. cbn [sort_insert].
  rewrite (H b ltac:(left)). destruct (_ <=? 0); [reflexivity |].
  f_equal. apply IH. intros c Hc. apply H. right. exact Hc.
Qed.

Lemma js_sort_ext {A} (cmp cmp' : A -> A -> Z) (l : list A) :
  (forall a b, a ∈ l -> b ∈ l -> cmp a b = cmp' a b) ->
  js_sort cmp l = js_sort cmp' l.
Proof.
  induction l as [|a l IH]; intros H; [reflexivity |]. cbn [js_sort].
  rewrite IH by (intros x y Hx Hy; apply H; right; assumption).
  apply sort_insert_ext. intros b Hb. rewrite js_sort_perm in Hb.
  apply H; [left | right; exact Hb].
Qed.

Lemma filter_direction_perm (l : list CW.entry) :
  List.filter (fun w => bool_decide (CW.direction w = across)) l
  ++ List.filter (fun w => bool_decide (CW.direction w = down)) l ≡ₚ l.
Proof.
  induction l as [|w l IH]; [reflexivity |]. cbn [List.filter].
  destruct (CW.direction w); repeat case_bool_decide; try congruence.
  - cbn [app]. constructor. exact IH.
  - rewrite <- Permutation_middle. constructor. exact IH.
Qed.

Lemma assign_numbers_number (ws : list CW.entry) (e : CW.entry) :
  e ∈ assign_numbers ws ->
  exists n, CW.number e = Some n /\ 1 <= n <= len ws.
Proof.
  unfold assign_numbers. intros (e1 & -> & He1)%list_elem_of_fmap.
  destruct (sorted_starts_spec ws) as (_ & Hnd & Hmem).
  assert (Hstart : start_key e1 ∈ sorted_starts ws) by (apply Hmem; eauto).
  apply list_elem_of_lookup in Hstart as [i Hi].
  pose proof (number_from_lookup _ 0 ∅ i _ Hnd Hi) as Hn.
  pose proof (lookup_lt_Some _ _ _ Hi) as Hlt.
  pose proof (sorted_starts_length ws) as Hlen.
  exists (0 + Z.of_nat i + 1). split; [exact Hn | unfold len; lia].
Qed.

Lemma number_le_sorted (t : list CW.entry) :
  StronglySorted (fun a b => number_or_0 a - number_or_0 b <= 0) t ->
  Forall (fun e => is_Some (CW.number e)) t ->
  StronglySorted number_le t.
Proof.
  induction 1 as [|a t Ht IH Ha]; intros Hall; [constructor |].
  apply Forall_cons in Hall as [[x Hx] Hall]. constructor; [apply IH, Hall |].
  rewrite Forall_forall in Ha, Hall. apply Forall_forall. intros b Hb.
  destruct (Hall b Hb) as [y Hy]. specialize (Ha b Hb).
  unfold number_or_0 in Ha. rewrite Hx, Hy in Ha. cbn in Ha.
  exists x, y. repeat split; (assumption || lia).
Qed.

Lemma js_sort_by_number (l : list CW.entry) :
  Forall (fun e => is_Some (CW.number e)) l ->
  StronglySorted number_le (js_sort by_number l).
Proof.
  intros Hall.
  assert (Hext : js_sort by_number l
                 = js_sort (fun a b => number_or_0 a - number_or_0 b) l).
  { apply js_sort_ext. intros a b Ha Hb. rewrite Forall_forall in Hall.
    destruct (Hall a Ha) as [x Hx], (Hall b Hb) as [y Hy].
    unfold by_number, number_or_0. rewrite Hx, Hy. reflexivity. }
  rewrite Hext. apply number_le_sorted.
  - apply js_sort_sorted; intros; lia.
  - rewrite js_sort_perm. exact Hall.
Qed.

Section CrosswordClues.
Variable toUpperCase : jsstring -> jsstring.

(** X18: in [renderCrossword], every entry of the generated layout is
    listed once, under Across when it runs across and under Down when it
    runs down, and each of the two lists is in ascending order of clue
    number. *)
Theorem renderCrossword_clues (words : list WordPair) (seed : Z) (l : CW.layout) :
  generateCrossword toUpperCase words seed = Ok l ->
  acrossClues (CW.placedWords l) ++ downClues (CW.placedWords l) ≡ₚ CW.placedWords l /\
  Forall (fun w => CW.direction w = across) (acrossClues (CW.placedWords l)) /\
  Forall (fun w => CW.direction w = down) (downClues (CW.placedWords l)) /\
  StronglySorted number_le (acrossClues (CW.placedWords l)) /\
  StronglySorted number_le (downClues (CW.placedWords l)).
Proof.
  intros (first & rest & grid & e0 & more & minX & minY & _ & _ & _ & _ & _ &
          _ & _ & _ & _ & _ & _ & Hwords)%generateCrossword_layout.
  assert (Hnum : Forall (fun e => is_Some (CW.number e)) (CW.placedWords l)).
  { apply Forall_forall. intros e He. rewrite Hwords in He.
    apply assign_numbers_number in He as (n & Hn & _). eauto. }
  assert (Hsub : forall P, Forall (fun e => is_Some (CW.number e))
                             (List.filter P (CW.placedWords l))).
  { intros P. apply Forall_forall. intros e He%list_elem_of_In%filter_In.
    rewrite Forall_forall in Hnum. apply Hnum, list_elem_of_In, He. }
  unfold acrossClues, downClues. split; [| split; [| split; [| split]]].
  - rewrite !js_sort_perm. apply filter_direction_perm.
  - rewrite js_sort_perm. apply Forall_forall.
    intros e [_ He]%list_elem_of_In%filter_In. apply bool_decide_eq_true in He. exact He.
  - rewrite js_sort_perm. apply Forall_forall.
    intros e [_ He]%list_elem_of_In%filter_In. apply bool_decide_eq_true in He. exact He.
  - apply js_sort_by_number, Hsub.
  - apply js_sort_by_number, Hsub.
Qed.

(** X19: every cell of every entry of a returned layout lies in the grid,
    and not in its last two columns or its last two rows: the crop leaves
    two empty columns on the right and two empty rows at the bottom. *)
Theorem generateCrossword_entry_inside (words : list WordPair) (seed : Z)
  (l : CW.layout) (e : CW.entry) (k : Z) :
  generateCrossword toUpperCase words seed = Ok l ->
  e ∈ CW.placedWords l -> 0 <= k < len (CW.word e) ->
  0 <= (cw_cell e k).1 <= CW.width l - 3 /\
  0 <= (cw_cell e k).2 <= CW.height l - 3.
Proof.
  intros (first & rest & grid & e0 & more & minX & minY & _ & _ & _ & _ & _ &
          _ & _ & _ & _ & Hbox & _ & Hwords)%generateCrossword_layout He Hk.
  rewrite Hwords in He. apply final_entry in He as (e1 & He1 & ->).
  change (CW.word (with_number _ (shift_entry minX minY e1))) with (CW.word e1) in Hk.
  rewrite cw_cell_shift. cbn [fst snd].
  pose proof (Hbox e1 He1) as Hb. unfold end_x, end_y in Hb.
  pose proof (cx_cy_bounds (CW.direction e1) (CW.x e1) (CW.y e1) k ltac:(lia)) as Hc.
  unfold cw_cell. cbn [fst snd]. repeat case_decide; lia.
Qed.

End CrosswordClues.

Lemma renderCrossword_clues_witness :
  generateCrossword upper_latin sample_words 5 = Ok sample_crossword /\
  StronglySorted number_le (acrossClues (CW.placedWords sample_crossword)) /\
  StronglySorted number_le (downClues (CW.placedWords sample_crossword)).
Proof.
  split; [exact sample_crossword_run |].
  pose proof (renderCrossword_clues upper_latin sample_words 5 sample_crossword
                sample_crossword_run) as (_ & _ & _ & Ha & Hd).
  split; [exact Ha | exact Hd].
Defined.

Lemma generateCrossword_entry_inside_witness :
  let e := {| CW.word := units "TAB"; CW.clue := []; CW.x := 5; CW.y := 2;
              CW.direction := down; CW.number := Some 3 |} in
  generateCrossword upper_latin sample_words 5 = Ok sample_crossword /\
  e ∈ CW.placedWords sample_crossword /\ 0 <= 2 < len (CW.word e) /\
  0 <= (cw_cell e 2).1 <= CW.width sample_crossword - 3 /\
  0 <= (cw_cell e 2).2 <= CW.height sample_crossword - 3.
Proof.
  intros e.
  assert (He : e ∈ CW.placedWords sample_crossword) by (vm_compute; right; right; left).
  assert (Hk : 0 <= 2 < len (CW.word e)) by (split; [lia | reflexivity]).
  split; [exact sample_crossword_run |]. split; [exact He |]. split; [exact Hk |].
  exact (generateCrossword_entry_inside upper_latin sample_words 5 sample_crossword e 2
           sample_crossword_run He Hk).
Defined.

(** ** Word search: the fill pass *)












Section WordSearchFill.
Variable toUpperCase : jsstring -> jsstring.




End WordSearchFill.


(** ** The order of placement *)

Section PlacementOrder.
Variable toUpperCase : jsstring -> jsstring.

(** C3, as amended: the list both generators iterate over is the input
    sorted by the length of the raw [word] (not of its normalised form),
    longest first, and the sort is stable. The words are placed in the
    order of this list: the entries of a word search are normalised forms
    of a sublist of it, in its order; the first entry of a crossword is
    the normalised form of its first word and the later entries are those
    of a sublist of the words after it, in order. The generators see the
    input only through this list. *)
Theorem sortedWords_by_raw_length (words : list WordPair) :
  sortedWords words ≡ₚ words /\
  StronglySorted (fun a b => len (word b) <= len (word a)) (sortedWords words) /\
  (forall n, List.filter (fun w => len (word w) =? n) (sortedWords words) =
             List.filter (fun w => len (word w) =? n) words) /\
  (forall size seed r,
     generateWordSearch toUpperCase words size seed = Ok r ->
     (WS.word <$> WS.placedWords r)
       `sublist_of` ((fun w => cleanWord toUpperCase (word w)) <$> sortedWords words)) /\
  (forall seed l,
     generateCrossword toUpperCase words seed = Ok l ->
     exists first rest e more,
       sortedWords words = first :: rest /\
       CW.placedWords l = e :: more /\
       CW.word e = cleanWord toUpperCase (word first) /\
       (CW.word <$> more)
         `sublist_of` ((fun w => cleanWord toUpperCase (word w)) <$> rest)) /\
  (forall size seed,
     generateWordSearch toUpperCase words size seed
     = generateWordSearch toUpperCase (sortedWords words) size seed) /\
  (forall seed,
     generateCrossword toUpperCase words seed
     = generateCrossword toUpperCase (sortedWords words) seed).
Proof.
  split; [apply js_sort_perm |]. split; [| split; [| split; [| split; [| split]]]].
  - eapply StronglySorted_weaken; [| apply sortedWords_sorted].
    unfold by_length_desc. intros; lia.
  - intros n. apply js_sort_stable.
    intros a b Ha Hb. unfold by_length_desc. lia.
  - intros size seed r (_ & _ & _ & Hsub & _)%generateWordSearch_result. exact Hsub.
  - intros seed l
      (first & rest & grid & e0 & more & minX & minY & Hsorted & He0 & Hsub & _ & _ &
       _ & _ & _ & _ & _ & _ & Hwords)%generateCrossword_layout.
    unfold assign_numbers in Hwords. rewrite !fmap_cons in Hwords.
    eexists first, rest, _, _. split; [exact Hsorted |]. split; [exact Hwords |].
    split; [rewrite He0; reflexivity |].
    rewrite <- !list_fmap_compose.
    apply (fmap_sublist fst) in Hsub. rewrite <- !list_fmap_compose in Hsub.
    exact Hsub.
  - intros size seed. unfold generateWordSearch.
    rewrite sortedWords_idem. reflexivity.
  - intros seed. unfold generateCrossword.
    rewrite sortedWords_idem. reflexivity.
Qed.

End PlacementOrder.

(** ** Determinism *)

Lemma next_at_spec (rng : nat) (σ : list Z) (s : Z) :
  σ !! rng = Some s ->
  next_at rng σ = (fst (next s), <[rng := snd (next s)]> σ).
Proof.
  intros H. unfold next_at. rewrite H. change (default 0 (Some s)) with s.
  destruct (next s) as [v s']. reflexivity.
Qed.

Lemma next_at_again (rng : nat) (σ : list Z) (s s1 : Z) :
  σ !! rng = Some s ->
  <[rng := s1]> σ !! rng = Some s1.
Proof. intros H. apply list_lookup_insert_eq. eapply lookup_lt_Some, H. Qed.

Lemma outcome_sim_impl {A B} (R S : A -> B -> Prop) (o : outcome A) (o' : outcome B) :
  (forall a b, R a b -> S a b) -> outcome_sim R o o' -> outcome_sim S o o'.
Proof. intros HRS. destruct o, o'; cbn; auto. Qed.

Lemma attempt_loop_at_sim (rng fuel : nat) (size : Z) (term : jsstring)
  (σ : list Z) (s : Z) (g : list (list wscell)) (p : list WS.entry) :
  σ !! rng = Some s ->
  outcome_sim (ws_sim rng σ)
    (attempt_loop_at rng fuel size term (σ, g, p))
    (attempt_loop fuel size term (s, g, p)).
Proof.
  revert σ s. induction fuel as [|fuel IH]; intros σ s Hs.
  { cbn. repeat split. cbn [fst snd]. symmetry. apply list_insert_id, Hs. }
  cbn [attempt_loop_at attempt_loop].
  rewrite (next_at_spec rng σ s Hs).
  destruct (next s) as [v1 s1]. cbn [fst snd].
  pose proof (next_at_again rng σ s s1 Hs) as Hs1.
  match goal with
  | |- context [next_at rng ?σ1] => rewrite (next_at_spec rng σ1 s1 Hs1)
  end.
  rewrite list_insert_insert_eq.
  destruct (next s1) as [v2 s2]. cbn [fst snd].
  pose proof (next_at_again rng σ s s2 Hs) as Hs2.
  match goal with
  | |- context [next_at rng ?σ2] => rewrite (next_at_spec rng σ2 s2 Hs2)
  end.
  rewrite list_insert_insert_eq.
  destruct (next s2) as [v3 s3]. cbn [fst snd].
  pose proof (next_at_again rng σ s s3 Hs) as Hs3.
  assert (Hrec : outcome_sim (ws_sim rng σ)
                   (attempt_loop_at rng fuel size term (<[rng := s3]> σ, g, p))
                   (attempt_loop fuel size term (s3, g, p))).
  { eapply outcome_sim_impl; [| apply (IH _ s3 Hs3)].
    intros a b (Ha & Hg & Hp). split; [| split; assumption].
    rewrite Ha, list_insert_insert_eq. reflexivity. }
  destruct (at_index directions _) as [dir |]; [| exact I].
  destruct (_ && _); [| exact Hrec].
  destruct (fits_loop g _ _ dir 0 term) as [[|] | |]; cbn [mbind outcome_bind];
    [| exact Hrec | exact I | exact I].
  repeat split.
Qed.

Lemma fill_cell_at_sim (rng : nat) (σ : list Z) (s : Z) (g : list (list wscell))
  (p : Z * Z) :
  σ !! rng = Some s ->
  outcome_sim (fill_sim rng σ) (fill_cell_at rng (σ, g) p) (fill_cell (s, g) p).
Proof.
  intros Hs. destruct p as [x y]. unfold fill_cell_at, fill_cell.
  destruct (grid_read g x y) as [c | |]; cbn [mbind outcome_bind]; try exact I.
  case_bool_decide as Hc.
  - rewrite (next_at_spec rng σ s Hs). destruct (next s) as [v s1]. repeat split.
  - split; [| reflexivity]. cbn [fst]. symmetry. apply list_insert_id, Hs.
Qed.

Lemma fill_loop_at_sim (rng : nat) (ps : list (Z * Z)) (σ : list Z) (s : Z)
  (g : list (list wscell)) :
  σ !! rng = Some s ->
  outcome_sim (fill_sim rng σ) (fill_loop_at rng ps (σ, g)) (fill_loop ps (s, g)).
Proof.
  revert σ s g. induction ps as [|p ps IH]; intros σ s g Hs.
  { split; [| reflexivity]. cbn [fst]. symmetry. apply list_insert_id, Hs. }
  cbn [fill_loop_at fill_loop].
  pose proof (fill_cell_at_sim rng σ s g p Hs) as Hone.
  destruct (fill_cell_at rng (σ, g) p) as [[σ1 g1] | |],
           (fill_cell (s, g) p) as [[s1 g1'] | |];
    cbn [outcome_sim] in Hone; try contradiction; cbn [mbind outcome_bind];
    [| exact I ..].
  destruct Hone as [Hσ1 Hg1]. cbn [fst snd] in Hσ1, Hg1. subst σ1 g1'.
  eapply outcome_sim_impl; [| apply (IH _ s1 g1 (next_at_again rng σ s s1 Hs))].
  intros a b [Ha Hg]. split; [| exact Hg].
  rewrite Ha, list_insert_insert_eq. reflexivity.
Qed.

Section Determinism.
Variable toUpperCase : jsstring -> jsstring.

Lemma place_words_at_cons (rng : nat) (size : Z) (item : WordPair)
  (items : list WordPair) (st : ws_store_state) :
  place_words_at toUpperCase rng size (item :: items) st
  = attempt_loop_at rng 100 size (cleanWord toUpperCase (word item)) st
      ≫= place_words_at toUpperCase rng size items.
Proof. reflexivity. Qed.

Lemma place_words_at_sim (rng : nat) (size : Z) (items : list WordPair)
  (σ : list Z) (s : Z) (g : list (list wscell)) (p : list WS.entry) :
  σ !! rng = Some s ->
  outcome_sim (ws_sim rng σ)
    (place_words_at toUpperCase rng size items (σ, g, p))
    (place_words toUpperCase size items (s, g, p)).
Proof.
  revert σ s g p. induction items as [|item items IH]; intros σ s g p Hs.
  { repeat split. cbn [fst snd]. symmetry. apply list_insert_id, Hs. }
  rewrite place_words_at_cons, place_words_cons.
  pose proof (attempt_loop_at_sim rng 100 size (cleanWord toUpperCase (word item))
                σ s g p Hs) as Hone.
  destruct (attempt_loop_at rng 100 size _ (σ, g, p)) as [[[σ1 g1] p1] | |],
           (attempt_loop 100 size _ (s, g, p)) as [[[s1 g1'] p1'] | |];
    cbn [outcome_sim] in Hone; try contradiction; cbn [mbind outcome_bind];
    [| exact I ..].
  destruct Hone as (Hσ1 & Hg1 & Hp1). cbn [fst snd] in Hσ1, Hg1, Hp1. subst σ1 g1' p1'.
  eapply outcome_sim_impl; [| apply (IH _ s1 g1 p1 (next_at_again rng σ s s1 Hs))].
  intros a b (Ha & Hg & Hp). split; [| split; assumption].
  rewrite Ha, list_insert_insert_eq. reflexivity.
Qed.

(** A call in a store returns what the function of the arguments returns,
    and leaves the store with one more object and the others as they
    were. *)
Lemma generateWordSearch_at_sim (words : list WordPair) (size seed : Z) (σ : list Z) :
  outcome_sim (fun a r => a.1 = r /\ exists s, a.2 = σ ++ [s])
    (generateWordSearch_at toUpperCase words size seed σ)
    (generateWordSearch toUpperCase words size seed).
Proof.
  unfold generateWordSearch_at, generateWordSearch, alloc_Random.
  destruct (_ || _); [exact I |].
  set (g := replicate _ _).
  assert (Hs : (σ ++ [seed]) !! length σ = Some seed).
  { rewrite lookup_app_r by apply Nat.le_refl. rewrite Nat.sub_diag. reflexivity. }
  assert (Hins : forall s, <[length σ := s]> (σ ++ [seed]) = σ ++ [s]).
  { intros s. replace (length σ) with (length σ + 0)%nat at 1 by lia.
    rewrite insert_app_r. reflexivity. }
  pose proof (place_words_at_sim (length σ) size (sortedWords words) _ seed g [] Hs)
    as Hplace.
  unfold new_Random.
  destruct (place_words_at toUpperCase _ size _ _) as [[[σ1 g1] p1] | |],
           (place_words toUpperCase size _ _) as [[[s1 g1'] p1'] | |];
    cbn [outcome_sim] in Hplace; try contradiction; cbn [mbind outcome_bind];
    [| exact I ..].
  destruct Hplace as (Hσ1 & Hg1 & Hp1). cbn [fst snd] in Hσ1, Hg1, Hp1.
  subst σ1 g1' p1'. rewrite Hins.
  assert (Hs1 : (σ ++ [s1]) !! length σ = Some s1).
  { rewrite lookup_app_r by apply Nat.le_refl. rewrite Nat.sub_diag. reflexivity. }
  pose proof (fill_loop_at_sim (length σ) (row_major size size) _ s1 g1 Hs1) as Hfill.
  destruct (fill_loop_at _ _ _) as [[σ2 g2] | |],
           (fill_loop _ _) as [[s2 g2'] | |];
    cbn [outcome_sim] in Hfill; try contradiction; cbn [mbind outcome_bind];
    [| exact I ..].
  destruct Hfill as [Hσ2 Hg2]. cbn [fst snd] in Hσ2, Hg2. subst σ2 g2'.
  split; [reflexivity |]. exists s2. cbn [snd].
  replace (length σ) with (length σ + 0)%nat by lia.
  rewrite insert_app_r. reflexivity.
Qed.

(** C9: a call of [generateWordSearch] makes its own generator, so its
    outcome does not depend on the generators that exist when it starts:
    calls with the same word list, size and seed in any two stores return
    the same grid and the same placement list, or throw the same
    exception. In particular a second call, run in the store the first
    has left, returns the result of the first; and a call changes no
    generator that existed before it. *)
Theorem generateWordSearch_deterministic (W : list WordPair) (N S : Z) (σ σ' : list Z) :
  outcome_sim (fun a b => WS.grid a.1 = WS.grid b.1 /\
                          WS.placedWords a.1 = WS.placedWords b.1)
    (generateWordSearch_at toUpperCase W N S σ)
    (generateWordSearch_at toUpperCase W N S σ') /\
  forall r1 σ1, generateWordSearch_at toUpperCase W N S σ = Ok (r1, σ1) ->
    take (length σ) σ1 = σ /\
    exists σ2, generateWordSearch_at toUpperCase W N S σ1 = Ok (r1, σ2).
Proof.
  pose proof (generateWordSearch_at_sim W N S σ) as H1.
  pose proof (generateWordSearch_at_sim W N S σ') as H2.
  split.
  - destruct (generateWordSearch_at toUpperCase W N S σ) as [[a1 a2] | |],
             (generateWordSearch_at toUpperCase W N S σ') as [[b1 b2] | |],
             (generateWordSearch toUpperCase W N S) as [r | |];
      cbn [outcome_sim fst snd] in *; try contradiction; try exact I.
    destruct H1 as [-> _], H2 as [-> _]. split; reflexivity.
  - intros r1 σ1 Hrun. rewrite Hrun in H1.
    pose proof (generateWordSearch_at_sim W N S σ1) as H3.
    destruct (generateWordSearch toUpperCase W N S) as [r | |];
      cbn [outcome_sim fst snd] in H1; try contradiction.
    destruct H1 as [-> [s ->]]. split; [apply take_app_length |].
    destruct (generateWordSearch_at toUpperCase W N S (σ ++ [s])) as [[r2 σ2] | |];
      cbn [outcome_sim fst snd] in H3; try contradiction.
    destruct H3 as [-> _]. exists σ2. reflexivity.
Qed.

End Determinism.

Lemma generateWordSearch_deterministic_witness :
  exists σ1,
    generateWordSearch_at upper_latin sample_words 6 1 sample_store
    = Ok (sample_search, σ1) /\
    take (length sample_store) σ1 = sample_store /\
    exists σ2, generateWordSearch_at upper_latin sample_words 6 1 σ1
               = Ok (sample_search, σ2).
Proof.
  destruct (generateWordSearch_at upper_latin sample_words 6 1 sample_store)
    as [[r1 σ1] | |] eqn:Hrun.
  - pose proof (proj2 (generateWordSearch_deterministic upper_latin sample_words 6 1
                         sample_store sample_store) r1 σ1 Hrun) as Hagain.
    assert (Hr : r1 = sample_search).
    { assert (Hc : fst <$> Some (r1, σ1) = Some sample_search);
        [| injection Hc as ->; reflexivity].
      change (Some (r1, σ1)) with
        (match Ok (r1, σ1) with Ok a => Some a | _ => None end).
      rewrite <- Hrun. vm_compute. reflexivity. }
    subst r1. exists σ1. split; [reflexivity | exact Hagain].
  - exfalso. vm_compute in Hrun. discriminate Hrun.
  - exfalso. vm_compute in Hrun. discriminate Hrun.
Defined.
